(** * SYN-C runtime: value codec, memory manager, program loading and the
      stepped execution engine, embedded from
      [src/sync/converter_sync.py], [src/sync/execution_exceptions.py],
      [src/sync/grammar_sync.py] and [src/sync/executor_sync.py].

    Python integers are [Z]; the program memory (a [defaultdict(int)]) is a
    [gmap Z pyval] read with default [0]; insertion-ordered dictionaries are
    association lists; generators are resumption trees ([gen]) whose [Yield]
    nodes are the suspension points of the source.

    The floating-point fragment of the language ([floatn] literals, the dotted
    operators and the float built-ins) is outside this development: the
    syntax tree below has no float literal and a call of a float built-in
    stops with [OutsideModel]. *)

From Stdlib Require Import ZArith List String Ascii Lia Bool DecimalString.
From stdpp Require Import base gmap list strings.

Open Scope Z_scope.

(* ===================================================================== *)
(** ** execution_exceptions.py *)
(* ===================================================================== *)

Module execution_exceptions.

(** [line] and [char] of the source: both default to [None]. *)
Definition position : Type := option Z * option Z.

Definition nowhere : position := (None, None).

(** One constructor per subclass of [ExecutionError]; the arguments are the
    ones the source passes to the class. [UnknownError] is the bare
    [ExecutionError(line, char, "Unknown error CODE n, ...")]. *)
Inductive ExecutionError : Type :=
| SameNameStructureError (p : position) (structure_name : string)
| SameFieldsNameStructureError (p : position) (structure_name field_name : string)
| SameFieldStructureError (p : position) (structure1_name structure2_name field_name : string)
| SameNameFunctionError (p : position) (function_name : string)
| SameParametersNameFunctionError (p : position) (function_name parameter_name : string)
| SameGlobalVariableNameError (p : position) (variable_name : string)
| NoMainFunctionError
| MainFunctionWithParametersError (p : position)
| WrongBooleanCodeError (p : position) (code : Z)
| WrongCharacterCodeError (p : position) (code : Z)
| WrongPointerCodeError (p : position) (code : Z)
| NonValidCharacterError (p : position) (character : string)
| NonValidIntegerError (p : position) (integer : Z)
| InvalidTypeParameterInFunctionError (p : position) (function_name parameter : string)
| IncorrectNumberOfParametersInFunction (p : position) (function_name : string)
| MallocNegativeSizeError (p : position)
| FreeNotAllocatedPointer (p : position)
| MemoryAccessError (p : position) (address : Z)
| MemoryExceededError (p : position) (variable_name : string)
| ReadOnlyMemoryWriteError (p : position) (address : Z)
| UndeclaredVariableError (p : position) (variable_name : string)
| UndeclaredFunctionError (p : position) (function_name : string)
| UndeclaredStructureError (p : position) (struct_name : string)
| UndeclaredFieldError (p : position) (field_name : string)
| StringToIntValueError (p : position) (s : string)
| MathDomainError (p : position) (value : Z)
| GlobalVariableAndFunctionParameterWithSameNameError
    (p : position) (global_variable_name function_name : string)
| UnknownError (p : position) (code : Z).

(** What a Python call can raise: an [ExecutionError], or one of the
    interpreter's own exceptions. [OutsideModel] is not an exception of the
    source: it marks behaviour (floats, odd tree shapes) that is not
    embedded here. *)
Inductive exn : Type :=
| Exec (e : ExecutionError)
| TypeError
| IndexError
| KeyError
| ValueError
| EOFError
| OutsideModel (what : string).

End execution_exceptions.
Export execution_exceptions.

(* ===================================================================== *)
(** ** converter_sync.py *)
(* ===================================================================== *)

Module converter_sync.

Definition MAX_NB_BITS : Z := 32.
Definition INT_NB_BITS : Z := MAX_NB_BITS.
Definition FLOAT_NB_BITS : Z := MAX_NB_BITS.
Definition POINTER_NB_BITS : Z := 24.
Definition CHAR_NB_BITS : Z := 7.

Definition NULL_ADDRESS : Z := 0.
Definition FALSE_ENCODING : Z := 0.
Definition TRUE_ENCODING : Z := 1.

Definition MEMORY_SIZE : Z := 2 ^ POINTER_NB_BITS.

(** [bin_to_int]: the two's-complement reading of a 32-bit word. *)
Definition bin_to_int (x : Z) : Z :=
  if x <? 2 ^ (INT_NB_BITS - 1) then x else x - 2 ^ INT_NB_BITS.

(** The two [while] loops of [int_to_bin(x, overflow=True)]. Each runs on a
    budget of iterations under which the loop test is false on exit
    ([overflow_down_exit], [overflow_up_exit] below). *)
Fixpoint overflow_down (budget : nat) (x : Z) : Z :=
  match budget with
  | O => x
  | S budget' =>
      if 2 ^ (INT_NB_BITS - 1) <=? x
      then overflow_down budget' (x - 2 ^ INT_NB_BITS)
      else x
  end.

Fixpoint overflow_up (budget : nat) (x : Z) : Z :=
  match budget with
  | O => x
  | S budget' =>
      if x <? - 2 ^ INT_NB_BITS
      then overflow_up budget' (x + 2 ^ INT_NB_BITS)
      else x
  end.

Definition int_to_bin (x : Z) (overflow : bool) : Z :=
  let x :=
    if overflow then
      let x := overflow_down (Z.to_nat (x / 2 ^ INT_NB_BITS + 1)) x in
      overflow_up (Z.to_nat ((- x) / 2 ^ INT_NB_BITS + 1)) x
    else x in
  if x <? 0 then x + 2 ^ INT_NB_BITS else x.

(** [chr] on the ordinals [bin_to_char] lets through (all below 256); a
    negative ordinal is a [ValueError]. *)
Definition chr (x : Z) : exn + ascii :=
  if x <? 0 then inl ValueError else inr (ascii_of_N (Z.to_N x)).

Definition ord (c : ascii) : Z := Z.of_N (N_of_ascii c).

(** [char_to_bin(x)]: [ord(x)] raises [TypeError] unless [x] has length one;
    the handler rewrites six two-character escapes and calls [ord] again. *)
Definition char_to_bin (x : string) : exn + Z :=
  match x with
  | String c EmptyString => inr (ord c)
  | _ =>
      let x :=
        if String.eqb x "\n" then String (ascii_of_nat 10) EmptyString
        else if String.eqb x "\0" then String (ascii_of_nat 0) EmptyString
        else if String.eqb x "\v" then String (ascii_of_nat 11) EmptyString
        else if String.eqb x "\f" then String (ascii_of_nat 12) EmptyString
        else if String.eqb x "\r" then String (ascii_of_nat 13) EmptyString
        else if String.eqb x "\t" then String (ascii_of_nat 9) EmptyString
        else x in
      match x with
      | String c EmptyString => inr (ord c)
      | _ => inl TypeError
      end
  end.

Definition bin_to_char (x : Z) (p : position) : exn + ascii :=
  if x <=? 2 ^ CHAR_NB_BITS then chr x
  else inl (Exec (WrongCharacterCodeError p x)).

Definition bool_to_bin (x : bool) : Z := if x then 1 else 0.

Definition bin_to_bool (x : Z) (p : position) : exn + bool :=
  if x =? 1 then inr true
  else if x =? 0 then inr false
  else inl (Exec (WrongBooleanCodeError p x)).

Definition bin_to_pointer (x : Z) (p : position) : exn + Z :=
  if x <? MEMORY_SIZE then inr (bin_to_int x)
  else inl (Exec (WrongPointerCodeError p x)).

Definition pointer_to_bin (x : Z) : Z := int_to_bin x false.

(** [literal_to_bin]: falls off the end (returns [None]) on any other text. *)
Definition literal_to_bin (x : string) : option Z :=
  if String.eqb x "NULL" then Some NULL_ADDRESS
  else if String.eqb x "FALSE" then Some FALSE_ENCODING
  else if String.eqb x "TRUE" then Some TRUE_ENCODING
  else None.

(** The digits of [format(x, 'b')] for a positive [x], most significant
    first. *)
Fixpoint binary_digits (x : positive) : list ascii :=
  match x with
  | xH => ["1"%char]
  | xO x' => binary_digits x' ++ ["0"%char]
  | xI x' => binary_digits x' ++ ["1"%char]
  end.

(** Zero padding on the left up to [width] characters. *)
Definition zero_fill (width : nat) (digits : list ascii) : list ascii :=
  repeat "0"%char (width - length digits) ++ digits.

(** [bin_to_string]: ['{:032b}'.format(x)]. The sign of a negative number
    counts in the width. *)
Definition bin_to_string (x : Z) : string :=
  string_of_list_ascii
    match x with
    | Z0 => zero_fill 32 ["0"%char]
    | Zpos x' => zero_fill 32 (binary_digits x')
    | Zneg x' => "-"%char :: zero_fill 31 (binary_digits x')
    end.

End converter_sync.
Export converter_sync.

(* ===================================================================== *)
(** ** grammar_sync.py: the syntax tree *)
(* ===================================================================== *)

Module grammar_sync.

(** The token under an [atom], or the value of a [globalaffect]. [integer]
    holds [int(text)]; [char] and [string] hold the text between the
    quotes, as the executor slices it ([text[1:-1]]); [keyword] is one of
    [Tokens('TRUE FALSE NULL')]. *)
Inductive literal : Type :=
| ident (name : string)
| integer (value : Z)
| char (text : string)
| string_literal (text : string)
| keyword (text : string).

(** One constructor per rule the executor dispatches on; children are named
    as in [SYNC_AST_CHILDREN_INDEXES]. [multdivexpr], [addsubexpr],
    [moduloexpr], [cmpexpr] and [eqexpr] share [binaryoperator], [notexpr]
    and [derefexpr] share [unaryoperator], as they share their executor.
    The position is [get_line_of_node], [get_char_of_node]; a [block] has
    none. A parameter of a call is a type token ([inl]) or an expression. *)
#[warnings="-register-all"] Inductive node : Type :=
| atom (lit : literal) (p : position)
| affect (variable : string) (expr : node) (p : position)
| arrayaffect (array index expr : node) (p : position)
| structaffect (struct : node) (field : string) (expr : node) (p : position)
| derefaffect (pointer expr : node) (p : position)
| bracketexpr (expr : node) (p : position)
| binaryoperator (left_expr : node) (operator : string) (right_expr : node) (p : position)
| boolexpr (left_expr : node) (operator : string) (right_expr : node) (p : position)
| unaryoperator (operator : string) (expr : node) (p : position)
| refexpr (variable : string) (p : position)
| call (function_name : string) (parameters : list (string + node)) (p : position)
| arraycall (array index : node) (p : position)
| structcall (struct : node) (field : string) (p : position)
| ifexpr (branches : list (node * node)) (else_block : option node) (p : position)
| forexpr (loop_variable : string) (start_expr end_expr blk : node) (p : position)
| whileexpr (condition_expr blk : node) (p : position)
| continuerule (p : position)
| breakrule (p : position)
| returnrule (expr : node) (p : position)
| block (blockexprs : list node).

Record globalaffect : Type := {
  ga_variable : string;
  ga_value : literal;
  ga_value_position : position;
  ga_position : position
}.

Inductive decl : Type :=
| structdecl (struct_name : string) (fields : list string) (p : position)
| fundecl (function_name : string) (parameters : list string) (blk : node) (p : position).

(** [prog = Opt(globalsdecl) + Repeat(structdecl) + Repeat(fundecl, min=1)]. *)
Record prog : Type := {
  globalsdecl : option (list globalaffect);
  decls : list decl
}.

End grammar_sync.
Export grammar_sync.

(* ===================================================================== *)
(** ** executor_sync.py: state of a running program *)
(* ===================================================================== *)

Module executor_state.

(** What a generator of the executor yields as [value], and what a memory
    cell can hold: [None], an [int], a [bool] (the boolean operators yield
    Python booleans), a [str] (['CONTINUE'], ['BREAK']) or the tuple
    [('RETURN', value)]. *)
Inductive pyval : Type :=
| VNone
| VInt (x : Z)
| VBool (b : bool)
| VStr (s : string)
| VReturn (v : pyval).

(** A Python [bool] is an [int]. *)
Definition as_int (v : pyval) : option Z :=
  match v with
  | VInt x => Some x
  | VBool b => Some (bool_to_bin b)
  | _ => None
  end.

Record function_info : Type := {
  fi_parameters : list string;
  fi_tree : node;
  fi_position : position
}.

(** The attributes of [SynCProgram], then the three standard streams:
    [stdin] holds the lines [input()] will return. *)
Record State : Type := {
  structures_fields : list (string * list string);
  structures_fields_indexes : list (string * Z);
  functions_infos : list (string * function_info);
  read_only_strings_adress : list (string * Z);
  memory : gmap Z pyval;
  read_write_stack_limit : Z;
  memory_heap : list (Z * Z);
  global_variables : list string;
  local_variables : list (list string);
  input_buffer : list ascii;
  nb_elementary_operations : Z;
  stdin : list string;
  stdout : string;
  stderr : string
}.

Definition set_structures_fields (s : State) v : State :=
  {| structures_fields := v; structures_fields_indexes := structures_fields_indexes s;
     functions_infos := functions_infos s; read_only_strings_adress := read_only_strings_adress s;
     memory := memory s; read_write_stack_limit := read_write_stack_limit s;
     memory_heap := memory_heap s; global_variables := global_variables s;
     local_variables := local_variables s; input_buffer := input_buffer s;
     nb_elementary_operations := nb_elementary_operations s;
     stdin := stdin s; stdout := stdout s; stderr := stderr s |}.

Definition set_structures_fields_indexes (s : State) v : State :=
  {| structures_fields := structures_fields s; structures_fields_indexes := v;
     functions_infos := functions_infos s; read_only_strings_adress := read_only_strings_adress s;
     memory := memory s; read_write_stack_limit := read_write_stack_limit s;
     memory_heap := memory_heap s; global_variables := global_variables s;
     local_variables := local_variables s; input_buffer := input_buffer s;
     nb_elementary_operations := nb_elementary_operations s;
     stdin := stdin s; stdout := stdout s; stderr := stderr s |}.

Definition set_functions_infos (s : State) v : State :=
  {| structures_fields := structures_fields s;
     structures_fields_indexes := structures_fields_indexes s;
     functions_infos := v; read_only_strings_adress := read_only_strings_adress s;
     memory := memory s; read_write_stack_limit := read_write_stack_limit s;
     memory_heap := memory_heap s; global_variables := global_variables s;
     local_variables := local_variables s; input_buffer := input_buffer s;
     nb_elementary_operations := nb_elementary_operations s;
     stdin := stdin s; stdout := stdout s; stderr := stderr s |}.

Definition set_read_only_strings_adress (s : State) v : State :=
  {| structures_fields := structures_fields s;
     structures_fields_indexes := structures_fields_indexes s;
     functions_infos := functions_infos s; read_only_strings_adress := v;
     memory := memory s; read_write_stack_limit := read_write_stack_limit s;
     memory_heap := memory_heap s; global_variables := global_variables s;
     local_variables := local_variables s; input_buffer := input_buffer s;
     nb_elementary_operations := nb_elementary_operations s;
     stdin := stdin s; stdout := stdout s; stderr := stderr s |}.

Definition set_memory (s : State) v : State :=
  {| structures_fields := structures_fields s;
     structures_fields_indexes := structures_fields_indexes s;
     functions_infos := functions_infos s;
     read_only_strings_adress := read_only_strings_adress s;
     memory := v; read_write_stack_limit := read_write_stack_limit s;
     memory_heap := memory_heap s; global_variables := global_variables s;
     local_variables := local_variables s; input_buffer := input_buffer s;
     nb_elementary_operations := nb_elementary_operations s;
     stdin := stdin s; stdout := stdout s; stderr := stderr s |}.

Definition set_read_write_stack_limit (s : State) v : State :=
  {| structures_fields := structures_fields s;
     structures_fields_indexes := structures_fields_indexes s;
     functions_infos := functions_infos s;
     read_only_strings_adress := read_only_strings_adress s;
     memory := memory s; read_write_stack_limit := v;
     memory_heap := memory_heap s; global_variables := global_variables s;
     local_variables := local_variables s; input_buffer := input_buffer s;
     nb_elementary_operations := nb_elementary_operations s;
     stdin := stdin s; stdout := stdout s; stderr := stderr s |}.

Definition set_memory_heap (s : State) v : State :=
  {| structures_fields := structures_fields s;
     structures_fields_indexes := structures_fields_indexes s;
     functions_infos := functions_infos s;
     read_only_strings_adress := read_only_strings_adress s;
     memory := memory s; read_write_stack_limit := read_write_stack_limit s;
     memory_heap := v; global_variables := global_variables s;
     local_variables := local_variables s; input_buffer := input_buffer s;
     nb_elementary_operations := nb_elementary_operations s;
     stdin := stdin s; stdout := stdout s; stderr := stderr s |}.

Definition set_global_variables (s : State) v : State :=
  {| structures_fields := structures_fields s;
     structures_fields_indexes := structures_fields_indexes s;
     functions_infos := functions_infos s;
     read_only_strings_adress := read_only_strings_adress s;
     memory := memory s; read_write_stack_limit := read_write_stack_limit s;
     memory_heap := memory_heap s; global_variables := v;
     local_variables := local_variables s; input_buffer := input_buffer s;
     nb_elementary_operations := nb_elementary_operations s;
     stdin := stdin s; stdout := stdout s; stderr := stderr s |}.

Definition set_local_variables (s : State) v : State :=
  {| structures_fields := structures_fields s;
     structures_fields_indexes := structures_fields_indexes s;
     functions_infos := functions_infos s;
     read_only_strings_adress := read_only_strings_adress s;
     memory := memory s; read_write_stack_limit := read_write_stack_limit s;
     memory_heap := memory_heap s; global_variables := global_variables s;
     local_variables := v; input_buffer := input_buffer s;
     nb_elementary_operations := nb_elementary_operations s;
     stdin := stdin s; stdout := stdout s; stderr := stderr s |}.

Definition set_input_buffer (s : State) v : State :=
  {| structures_fields := structures_fields s;
     structures_fields_indexes := structures_fields_indexes s;
     functions_infos := functions_infos s;
     read_only_strings_adress := read_only_strings_adress s;
     memory := memory s; read_write_stack_limit := read_write_stack_limit s;
     memory_heap := memory_heap s; global_variables := global_variables s;
     local_variables := local_variables s; input_buffer := v;
     nb_elementary_operations := nb_elementary_operations s;
     stdin := stdin s; stdout := stdout s; stderr := stderr s |}.

Definition set_nb_elementary_operations (s : State) v : State :=
  {| structures_fields := structures_fields s;
     structures_fields_indexes := structures_fields_indexes s;
     functions_infos := functions_infos s;
     read_only_strings_adress := read_only_strings_adress s;
     memory := memory s; read_write_stack_limit := read_write_stack_limit s;
     memory_heap := memory_heap s; global_variables := global_variables s;
     local_variables := local_variables s; input_buffer := input_buffer s;
     nb_elementary_operations := v;
     stdin := stdin s; stdout := stdout s; stderr := stderr s |}.

Definition set_stdin (s : State) v : State :=
  {| structures_fields := structures_fields s;
     structures_fields_indexes := structures_fields_indexes s;
     functions_infos := functions_infos s;
     read_only_strings_adress := read_only_strings_adress s;
     memory := memory s; read_write_stack_limit := read_write_stack_limit s;
     memory_heap := memory_heap s; global_variables := global_variables s;
     local_variables := local_variables s; input_buffer := input_buffer s;
     nb_elementary_operations := nb_elementary_operations s;
     stdin := v; stdout := stdout s; stderr := stderr s |}.

Definition set_stdout (s : State) v : State :=
  {| structures_fields := structures_fields s;
     structures_fields_indexes := structures_fields_indexes s;
     functions_infos := functions_infos s;
     read_only_strings_adress := read_only_strings_adress s;
     memory := memory s; read_write_stack_limit := read_write_stack_limit s;
     memory_heap := memory_heap s; global_variables := global_variables s;
     local_variables := local_variables s; input_buffer := input_buffer s;
     nb_elementary_operations := nb_elementary_operations s;
     stdin := stdin s; stdout := v; stderr := stderr s |}.

Definition set_stderr (s : State) v : State :=
  {| structures_fields := structures_fields s;
     structures_fields_indexes := structures_fields_indexes s;
     functions_infos := functions_infos s;
     read_only_strings_adress := read_only_strings_adress s;
     memory := memory s; read_write_stack_limit := read_write_stack_limit s;
     memory_heap := memory_heap s; global_variables := global_variables s;
     local_variables := local_variables s; input_buffer := input_buffer s;
     nb_elementary_operations := nb_elementary_operations s;
     stdin := stdin s; stdout := stdout s; stderr := v |}.

(** The attribute values [__init__] assigns before it reads the tree. *)
Definition fresh (input : list string) : State :=
  {| structures_fields := []; structures_fields_indexes := [];
     functions_infos := []; read_only_strings_adress := [];
     memory := ∅; read_write_stack_limit := 1;
     memory_heap := []; global_variables := [];
     local_variables := []; input_buffer := [];
     nb_elementary_operations := 0;
     stdin := input; stdout := ""; stderr := "" |}.

(** A method either returns or raises; both leave a state behind. *)
Inductive outcome (A : Type) : Type :=
| Ok (a : A) (s : State)
| Raised (e : exn) (s : State).
Arguments Ok {A} a s.
Arguments Raised {A} e s.

Definition bind {A B} (m : outcome A) (f : A -> State -> outcome B) : outcome B :=
  match m with
  | Ok a s => f a s
  | Raised e s => Raised e s
  end.

(** A pure conversion that may raise, run in state [s]. *)
Definition lift {A} (r : exn + A) (s : State) : outcome A :=
  match r with
  | inr a => Ok a s
  | inl e => Raised e s
  end.

(** Python dictionaries keep insertion order: [d[k]], [k in d], [d[k] = v]. *)
Fixpoint dict_get {V} (d : list (string * V)) (k : string) : option V :=
  match d with
  | [] => None
  | (k', v) :: d' => if String.eqb k' k then Some v else dict_get d' k
  end.

Definition dict_in {V} (d : list (string * V)) (k : string) : bool :=
  match dict_get d k with Some _ => true | None => false end.

Fixpoint dict_set {V} (d : list (string * V)) (k : string) (v : V) : list (string * V) :=
  match d with
  | [] => [(k, v)]
  | (k', v') :: d' => if String.eqb k' k then (k, v) :: d' else (k', v') :: dict_set d' k v
  end.

(** [x in l] and [l.index(x)] on lists of names. *)
Fixpoint list_in (x : string) (l : list string) : bool :=
  match l with
  | [] => false
  | y :: l' => String.eqb y x || list_in x l'
  end.

Fixpoint list_index (x : string) (l : list string) : option Z :=
  match l with
  | [] => None
  | y :: l' =>
      if String.eqb y x then Some 0
      else match list_index x l' with Some i => Some (i + 1) | None => None end
  end.

(** [len(l)] as a Python integer. *)
Definition len {A} (l : list A) : Z := Z.of_nat (length l).

(** [sum(len(l) for l in ls)]. *)
Definition sum_len (ls : list (list string)) : Z :=
  fold_right (fun l acc => len l + acc) 0 ls.

(** [l[-1]] and [l[:-1]]. *)
Definition last_item {A} (l : list A) : option A := last l.
Definition but_last {A} (l : list A) : list A := removelast l.

(** [l.insert(i, x)] for [0 <= i]; an index past the end appends. *)
Definition list_insert_at {A} (i : nat) (x : A) (l : list A) : list A :=
  firstn i l ++ x :: skipn i l.

(** [del l[i]] for an index in range. *)
Definition list_delete_at {A} (i : nat) (l : list A) : list A :=
  firstn i l ++ skipn (S i) l.

End executor_state.
Export executor_state.
(* ===================================================================== *)
(** ** executor_sync.py: the memory manager *)
(* ===================================================================== *)

Module memory_manager.

(** [_get_memory]. The memory is a [defaultdict(int)]: reading an absent
    key stores and returns [0]. *)
Definition _get_memory (address : Z) (p : position) (s : State) : outcome pyval :=
  if (address <=? 0) || (MEMORY_SIZE <=? address)
  then Raised (Exec (MemoryAccessError p address)) s
  else match memory s !! address with
       | Some word => Ok word s
       | None => Ok (VInt 0) (set_memory s (<[address := VInt 0]> (memory s)))
       end.

(** [_set_memory]. *)
Definition _set_memory (address : Z) (value : pyval) (p : position) (s : State)
  : outcome unit :=
  if (address <=? 0) || (MEMORY_SIZE <=? address)
  then Raised (Exec (MemoryAccessError p address)) s
  else if address <? read_write_stack_limit s
  then Raised (Exec (ReadOnlyMemoryWriteError p address)) s
  else Ok tt (set_memory s (<[address := value]> (memory s))).

(** [_check_memory_limit_exceeded]. *)
Definition _check_memory_limit_exceeded (address : option Z) (s : State) : bool :=
  let local_variable_last_address :=
    read_write_stack_limit s + sum_len (local_variables s) in
  let address :=
    match address with
    | Some address => address
    | None =>
        match last_item (memory_heap s) with
        | None => MEMORY_SIZE
        | Some (reserved_address, _) => reserved_address
        end
    end in
  local_variable_last_address <? address.

(** The [for ... else] of [_malloc]: [Some (address, index_in_heap)] when
    the loop leaves through [break], [None] when it runs to its [else]. *)
Fixpoint malloc_scan (heap : list (Z * Z)) (index : nat) (previous_address size : Z)
  : option (Z * nat) :=
  match heap with
  | [] => None
  | (reserved_address, reserved_size) :: heap' =>
      if reserved_address + reserved_size + size <? previous_address
      then Some (reserved_address + reserved_size, index)
      else malloc_scan heap' (S index) reserved_address size
  end.

(** The block start and list index [_malloc] settles on before it checks
    the room left above the stack. *)
Definition malloc_choice (size : Z) (s : State) : Z * nat :=
  match memory_heap s with
  | [] => (MEMORY_SIZE - size, O)
  | first :: heap' =>
      match malloc_scan (memory_heap s) O MEMORY_SIZE size with
      | Some found => found
      | None =>
          let '(reserved_address, _) := List.last heap' first in
          (reserved_address - size, length (memory_heap s))
      end
  end.

(** [_malloc]. *)
Definition _malloc (size : Z) (p : position) (s : State) : outcome Z :=
  if size <=? 0 then Raised (Exec (MallocNegativeSizeError p)) s
  else
    let '(address, index_in_heap) := malloc_choice size s in
    if negb (_check_memory_limit_exceeded (Some address) s)
    then Ok (pointer_to_bin NULL_ADDRESS) s
    else Ok address
           (set_memory_heap s (list_insert_at index_in_heap (address, size) (memory_heap s))).

(** The [for ... else] of [_free]: the index of the first block that starts
    at [pointer]. *)
Fixpoint free_scan (heap : list (Z * Z)) (i : nat) (pointer : Z) : option nat :=
  match heap with
  | [] => None
  | (address, _) :: heap' =>
      if address =? pointer then Some i else free_scan heap' (S i) pointer
  end.

(** [_free]. *)
Definition _free (pointer : Z) (p : position) (s : State) : outcome unit :=
  match free_scan (memory_heap s) O pointer with
  | Some i => Ok tt (set_memory_heap s (list_delete_at i (memory_heap s)))
  | None => Raised (Exec (FreeNotAllocatedPointer p)) s
  end.

(** [_get_variable_address]. [self.local_variables[-1]] raises [IndexError]
    when no frame is live. *)
Definition _get_variable_address (variable_name : string) (p : position) (s : State)
  : outcome Z :=
  let address := read_write_stack_limit s in
  match list_index variable_name (global_variables s) with
  | Some index => Ok (address + index) s
  | None =>
      let address :=
        address + (len (global_variables s) + sum_len (but_last (local_variables s))) in
      match last_item (local_variables s) with
      | None => Raised IndexError s
      | Some frame =>
          match list_index variable_name frame with
          | Some index => Ok (address + index) s
          | None => Raised (Exec (UndeclaredVariableError p variable_name)) s
          end
      end
  end.

End memory_manager.
Export memory_manager.
(* ===================================================================== *)
(** ** Sequences of memory-manager calls *)
(* ===================================================================== *)

Module memory_calls.

(** The calls the engine makes on the memory manager, and the stack moves
    that go with them: a function call appends a frame
    ([execute_function]), a first assignment appends a name to the last
    frame ([_execute_affect]), both followed by the room check; a return
    deletes the last frame. The declaration of the variable of a FOR, which
    [_execute_forexpr] makes without the room check, is not one of them. *)
Inductive memory_call : Type :=
| do_malloc (size : Z)
| do_free (pointer : Z)
| do_set (address : Z) (value : pyval)
| do_get (address : Z)
| do_push_frame (parameters : list string)
| do_declare_local (variable : string)
| do_pop_frame.

Definition declare_local (variable : string) (p : position) (s : State) : outcome unit :=
  match last_item (local_variables s) with
  | None => Raised IndexError s
  | Some frame =>
      let s := set_local_variables s (but_last (local_variables s) ++ [frame ++ [variable]]) in
      if negb (_check_memory_limit_exceeded None s)
      then Raised (Exec (MemoryExceededError p variable)) s
      else Ok tt s
  end.

Definition push_frame (parameters : list string) (p : position) (s : State) : outcome unit :=
  let s := set_local_variables s (local_variables s ++ [parameters]) in
  if negb (_check_memory_limit_exceeded None s)
  then match last_item parameters with
       | Some name => Raised (Exec (MemoryExceededError p name)) s
       | None => Raised IndexError s
       end
  else Ok tt s.

Definition pop_frame (s : State) : outcome unit :=
  match local_variables s with
  | [] => Raised IndexError s
  | _ :: _ => Ok tt (set_local_variables s (but_last (local_variables s)))
  end.

Definition run_call (c : memory_call) (s : State) : outcome unit :=
  match c with
  | do_malloc size => bind (_malloc size nowhere s) (fun _ s => Ok tt s)
  | do_free pointer => _free pointer nowhere s
  | do_set address value => _set_memory address value nowhere s
  | do_get address => bind (_get_memory address nowhere s) (fun _ s => Ok tt s)
  | do_push_frame parameters => push_frame parameters nowhere s
  | do_declare_local variable => declare_local variable nowhere s
  | do_pop_frame => pop_frame s
  end.

(** Runs the calls in order; the first one that raises ends the run. *)
Fixpoint run_calls (cs : list memory_call) (s : State) : outcome unit :=
  match cs with
  | [] => Ok tt s
  | c :: cs' => bind (run_call c s) (fun _ s => run_calls cs' s)
  end.

(** The word last written at [address] by the calls [cs], or [before] when
    none of them writes there. *)
Fixpoint last_written (cs : list memory_call) (address : Z) (before : pyval) : pyval :=
  match cs with
  | [] => before
  | do_set address' value :: cs' =>
      last_written cs' address (if address' =? address then value else before)
  | _ :: cs' => last_written cs' address before
  end.

(** The content of a cell as a read sees it. *)
Definition cell (s : State) (address : Z) : pyval :=
  default (VInt 0) (memory s !! address).

(** The blocks of the heap list, as address intervals. *)
Definition in_block (b : Z * Z) (address : Z) : Prop :=
  fst b <= address < fst b + snd b.

(** The address of the last occupied stack word: the read-only limit, plus
    the global variables, plus all live locals, less one. *)
Definition last_stack_address (s : State) : Z :=
  read_write_stack_limit s + len (global_variables s) + sum_len (local_variables s) - 1.

End memory_calls.
Export memory_calls.
(* ===================================================================== *)
(** ** executor_sync.py: loading a program ([SynCProgram.__init__]) *)
(* ===================================================================== *)

Module loader.

(** Methods as state transformers. *)
Definition M (A : Type) : Type := State -> outcome A.

Definition ret {A} (a : A) : M A := fun s => Ok a s.
Definition raise {A} (e : exn) : M A := fun s => Raised e s.
Definition get_state : M State := fun s => Ok s s.
Definition modify (f : State -> State) : M unit := fun s => Ok tt (f s).

Definition and_then {A B} (m : M A) (f : A -> M B) : M B :=
  fun s => bind (m s) f.

Declare Scope method_scope.
Delimit Scope method_scope with method.
Notation "x <- m ;; k" := (and_then m (fun x => k))
  (at level 90, m at level 80, right associativity) : method_scope.
Notation "m ;;; k" := (and_then m (fun _ => k))
  (at level 90, right associativity) : method_scope.
Local Open Scope method_scope.

(** [for x in l: body(x)]. *)
Fixpoint for_each {A} (l : list A) (body : A -> M unit) : M unit :=
  match l with
  | [] => ret tt
  | x :: l' => body x ;;; for_each l' body
  end.

(** [for i, x in enumerate(l): body(i, x, l[i + 1:])]. *)
Fixpoint for_enumerate {A} (i : Z) (l : list A) (body : Z -> A -> list A -> M unit) : M unit :=
  match l with
  | [] => ret tt
  | x :: l' => body i x l' ;;; for_enumerate (i + 1) l' body
  end.

(** [c in "0tvrnf\\'"] for a character [c]. *)
Definition is_escape_letter (c : ascii) : bool :=
  existsb (Ascii.eqb c) (list_ascii_of_string "0tvrnf\'").

(** [check_is_string_is_ascii_printable_with_escape]: the index of the
    first offending character, or [None]. *)
Fixpoint check_printable_from (i : Z) (check_escape : bool) (s : list ascii) : option Z :=
  match s with
  | [] => None
  | c :: s' =>
      if negb check_escape && Ascii.eqb c "\"
      then check_printable_from (i + 1) true s'
      else if check_escape
      then if is_escape_letter c then check_printable_from (i + 1) false s' else Some i
      else if (32 <=? ord c) && (ord c <=? 126)
      then check_printable_from (i + 1) false s'
      else Some i
  end.

Definition check_is_string_is_ascii_printable_with_escape (s : string) : option Z :=
  check_printable_from 0 false (list_ascii_of_string s).

Definition is_octal_digit (c : ascii) : bool := (48 <=? ord c) && (ord c <=? 55).

(** [s.encode().decode('unicode_escape')] on a string that passed the check
    above: the escapes left are [\0] (an octal escape of up to three
    digits), [\t \v \r \n \f], the backslash and the quote; a backslash at
    the end of the string raises [UnicodeDecodeError], a [ValueError]. *)
Fixpoint unicode_escape (s : list ascii) : exn + list ascii :=
  match s with
  | [] => inr []
  | c :: s' =>
      if Ascii.eqb c "\" then
        match s' with
        | [] => inl ValueError
        | e :: s'' =>
            let continue_with (x : ascii) (rest : exn + list ascii) :=
              match rest with inr r => inr (x :: r) | inl err => inl err end in
            if Ascii.eqb e "t" then continue_with (ascii_of_nat 9) (unicode_escape s'')
            else if Ascii.eqb e "v" then continue_with (ascii_of_nat 11) (unicode_escape s'')
            else if Ascii.eqb e "r" then continue_with (ascii_of_nat 13) (unicode_escape s'')
            else if Ascii.eqb e "n" then continue_with (ascii_of_nat 10) (unicode_escape s'')
            else if Ascii.eqb e "f" then continue_with (ascii_of_nat 12) (unicode_escape s'')
            else if Ascii.eqb e "\" then continue_with "\"%char (unicode_escape s'')
            else if Ascii.eqb e "'" then continue_with "'"%char (unicode_escape s'')
            else if Ascii.eqb e "0" then
              match s'' with
              | d1 :: s3 =>
                  if is_octal_digit d1 then
                    match s3 with
                    | d2 :: s4 =>
                        if is_octal_digit d2
                        then continue_with
                               (ascii_of_N (Z.to_N (8 * (ord d1 - 48) + (ord d2 - 48))))
                               (unicode_escape s4)
                        else continue_with (ascii_of_N (Z.to_N (ord d1 - 48)))
                                           (unicode_escape s3)
                    | [] => inr [ascii_of_N (Z.to_N (ord d1 - 48))]
                    end
                  else continue_with (ascii_of_nat 0) (unicode_escape s'')
              | [] => inr [ascii_of_nat 0]
              end
            else inl (OutsideModel "escape sequence")
        end
      else match unicode_escape s' with inr r => inr (c :: r) | inl err => inl err end
  end.

(** [node_char += k] on a position. *)
Definition shift_char (p : position) (k : Z) : exn + position :=
  match snd p with
  | Some c => inr (fst p, Some (c + k))
  | None => inl TypeError
  end.

(** [s[i]] as a one-character string. *)
Definition char_at (s : string) (i : Z) : string :=
  match String.get (Z.to_nat i) s with
  | Some c => String c EmptyString
  | None => EmptyString
  end.

(** [_set_string_to_address]: the closing NUL first, then the characters. *)
Definition _set_string_to_address (s : list ascii) (address : Z) (p : position) : M unit :=
  _set_memory (address + len s) (VInt 0) p ;;;
  for_enumerate 0 s (fun i c _ => _set_memory (address + i) (VInt (ord c)) p).

(** The literal tokens below a node, in the order of the tuple tree. *)
Fixpoint literals (n : node) : list (literal * position) :=
  match n with
  | atom lit p =>
      match lit with
      | ident _ => []
      | _ => [(lit, p)]
      end
  | affect _ expr _ => literals expr
  | arrayaffect array index expr _ => literals array ++ literals index ++ literals expr
  | structaffect struct _ expr _ => literals struct ++ literals expr
  | derefaffect pointer expr _ => literals pointer ++ literals expr
  | bracketexpr expr _ => literals expr
  | binaryoperator left_expr _ right_expr _ => literals left_expr ++ literals right_expr
  | boolexpr left_expr _ right_expr _ => literals left_expr ++ literals right_expr
  | unaryoperator _ expr _ => literals expr
  | refexpr _ _ => []
  | call _ parameters _ =>
      (fix over (ps : list (string + node)) : list (literal * position) :=
         match ps with
         | [] => []
         | inl _ :: ps' => over ps'
         | inr e :: ps' => literals e ++ over ps'
         end) parameters
  | arraycall array index _ => literals array ++ literals index
  | structcall struct _ _ => literals struct
  | ifexpr branches else_block _ =>
      (fix over (bs : list (node * node)) : list (literal * position) :=
         match bs with
         | [] => []
         | (c, b) :: bs' => literals c ++ literals b ++ over bs'
         end) branches
      ++ match else_block with Some b => literals b | None => [] end
  | forexpr _ start_expr end_expr blk _ =>
      literals start_expr ++ literals end_expr ++ literals blk
  | whileexpr condition_expr blk _ => literals condition_expr ++ literals blk
  | continuerule _ => []
  | breakrule _ => []
  | returnrule expr _ => literals expr
  | block blockexprs =>
      (fix over (es : list node) : list (literal * position) :=
         match es with
         | [] => []
         | e :: es' => literals e ++ over es'
         end) blockexprs
  end.

Definition literals_of_decl (d : decl) : list (literal * position) :=
  match d with
  | structdecl _ _ _ => []
  | fundecl _ _ blk _ => literals blk
  end.

Definition literals_of_prog (tree : prog) : list (literal * position) :=
  match globalsdecl tree with
  | Some gs =>
      flat_map (fun g => match ga_value g with
                         | ident _ => []
                         | lit => [(lit, ga_value_position g)]
                         end) gs
  | None => []
  end ++ flat_map literals_of_decl (decls tree).

(** [_read_structure]. *)
Definition _read_structure (structure_name : string) (fields : list string) (p : position)
  : M unit :=
  s <- get_state ;;
  if dict_in (structures_fields s) structure_name
  then raise (Exec (SameNameStructureError p structure_name))
  else
    modify (fun s => set_structures_fields s
                       (dict_set (structures_fields s) structure_name fields)) ;;;
    for_enumerate 0 fields (fun i field rest =>
      if list_in field rest
      then raise (Exec (SameFieldsNameStructureError p structure_name field))
      else
        s <- get_state ;;
        (if dict_in (structures_fields_indexes s) field
         then for_each (structures_fields s) (fun '(other_structure_name, other_fields) =>
                if String.eqb other_structure_name structure_name then ret tt
                else if list_in field other_fields
                then raise (Exec (SameFieldStructureError p other_structure_name
                                    structure_name field))
                else ret tt)
         else ret tt) ;;;
        modify (fun s => set_structures_fields_indexes s
                           (dict_set (structures_fields_indexes s) field i))).

(** [_read_function]. *)
Definition _read_function (function_name : string) (parameters : list string)
    (blk : node) (p : position) : M unit :=
  s <- get_state ;;
  if dict_in (functions_infos s) function_name
  then raise (Exec (SameNameFunctionError p function_name))
  else
    for_enumerate 0 parameters (fun _ parameter rest =>
      if list_in parameter rest
      then raise (Exec (SameParametersNameFunctionError p function_name parameter))
      else ret tt) ;;;
    modify (fun s => set_functions_infos s
                       (dict_set (functions_infos s) function_name
                          {| fi_parameters := parameters; fi_tree := blk;
                             fi_position := p |})).

(** [_read_structs_and_functions]. *)
Definition _read_structs_and_functions (tree : prog) : M unit :=
  for_each (decls tree) (fun d =>
    match d with
    | structdecl structure_name fields p => _read_structure structure_name fields p
    | fundecl function_name parameters blk p =>
        _read_function function_name parameters blk p
    end).

(** [_search_for_static_strings]: what the traversal does at a string. *)
Definition register_static_string (string_value : string) (p : position) : M unit :=
  s <- get_state ;;
  if dict_in (read_only_strings_adress s) string_value then ret tt
  else
    modify (fun s => set_read_only_strings_adress s
                       (dict_set (read_only_strings_adress s) string_value
                          (read_write_stack_limit s))) ;;;
    match check_is_string_is_ascii_printable_with_escape string_value with
    | Some error_char_index =>
        p' <- lift (shift_char p (error_char_index + 1)) ;;
        raise (Exec (NonValidCharacterError p' (char_at string_value error_char_index)))
    | None =>
        decoded <- lift (unicode_escape (list_ascii_of_string string_value)) ;;
        s <- get_state ;;
        _set_string_to_address decoded (read_write_stack_limit s) p ;;;
        modify (fun s => set_read_write_stack_limit s
                           (read_write_stack_limit s + (len decoded + 1)))
    end.

Definition _search_for_static_strings (tree : prog) : M unit :=
  for_each (literals_of_prog tree) (fun '(lit, p) =>
    match lit with
    | string_literal text => register_static_string text p
    | _ => ret tt
    end).

(** [_search_int_char_float_errors]. *)
Definition _search_int_char_float_errors (tree : prog) : M unit :=
  for_each (literals_of_prog tree) (fun '(lit, p) =>
    match lit with
    | integer intval =>
        if (- 2 ^ 31 <=? intval) && (intval <? 2 ^ 31) then ret tt
        else raise (Exec (NonValidIntegerError p intval))
    | char c =>
        match check_is_string_is_ascii_printable_with_escape c with
        | Some error_char_index =>
            p' <- lift (shift_char p (error_char_index + 1)) ;;
            raise (Exec (NonValidCharacterError p' c))
        | None => ret tt
        end
    | _ => ret tt
    end).

(** The word of a literal, as [_declare_globals] and [_execute_atom]
    compute it; [code] is the number of the "Unknown error" of the caller. *)
Definition literal_value (lit : literal) (p : position) (code : Z) : M pyval :=
  match lit with
  | integer value => ret (VInt (int_to_bin value false))
  | char text => x <- lift (char_to_bin text) ;; ret (VInt x)
  | string_literal text =>
      s <- get_state ;;
      match dict_get (read_only_strings_adress s) text with
      | Some address => ret (VInt address)
      | None => raise KeyError
      end
  | ident text | keyword text =>
      match literal_to_bin text with
      | Some x => ret (VInt x)
      | None => raise (Exec (UnknownError p code))
      end
  end.

(** [_declare_globals]. *)
Definition _declare_globals (tree : prog) : M unit :=
  match globalsdecl tree with
  | None => ret tt
  | Some global_variables_list =>
      for_each global_variables_list (fun global_affect =>
        let variable := ga_variable global_affect in
        let p := ga_position global_affect in
        s <- get_state ;;
        if list_in variable (global_variables s)
        then raise (Exec (SameGlobalVariableNameError p variable))
        else
          for_each (functions_infos s) (fun '(function_name, info) =>
            if list_in variable (fi_parameters info)
            then raise (Exec (GlobalVariableAndFunctionParameterWithSameNameError
                                p variable function_name))
            else ret tt) ;;;
          modify (fun s => set_global_variables s (global_variables s ++ [variable])) ;;;
          value <- literal_value (ga_value global_affect) p 0 ;;
          address <- _get_variable_address variable p ;;
          _set_memory address value p)
  end.

(** [_check_main_function]. *)
Definition _check_main_function : M unit :=
  s <- get_state ;;
  match dict_get (functions_infos s) "main" with
  | None => raise (Exec NoMainFunctionError)
  | Some main_function =>
      if len (fi_parameters main_function) =? 0 then ret tt
      else raise (Exec (MainFunctionWithParametersError (fi_position main_function)))
  end.

(** The four steps [__init__] runs before it looks for [main]. *)
Definition load_before_main_check (tree : prog) : M unit :=
  _read_structs_and_functions tree ;;;
  _search_for_static_strings tree ;;;
  _search_int_char_float_errors tree ;;;
  _declare_globals tree.

(** [SynCProgram.__init__], from the attribute values of [fresh]. *)
Definition SynCProgram (tree : prog) : M unit :=
  load_before_main_check tree ;;;
  _check_main_function.

(** Whether the program declares a function named [main]. *)
Definition declares_main (tree : prog) : bool :=
  existsb (fun d => match d with
                    | fundecl function_name _ _ _ => String.eqb function_name "main"
                    | structdecl _ _ _ => false
                    end) (decls tree).

End loader.
Export loader.
(* ===================================================================== *)
(** ** executor_sync.py: generators *)
(* ===================================================================== *)

Module generators.

(** A generator that has been started, as a resumption: it has returned
    ([StopIteration]), raised, or is suspended at a [yield] with the
    4-tuple it yields and what it does when resumed in the state the
    consumer hands back. [Starved] is not a behaviour of the source: the
    recursion budget of the embedding ran out. *)
Inductive gen (A : Type) : Type :=
| Return (a : A) (s : State)
| Throw (e : exn) (s : State)
| Yield (elementary : bool) (value : pyval) (p : position) (s : State)
        (resume : State -> gen A)
| Starved.
Arguments Return {A} a s.
Arguments Throw {A} e s.
Arguments Yield {A} elementary value p s resume.
Arguments Starved {A}.

Definition G (A : Type) : Type := State -> gen A.

Fixpoint gen_bind {A B} (g : gen A) (f : A -> G B) : gen B :=
  match g with
  | Return a s => f a s
  | Throw e s => Throw e s
  | Yield elementary value p s resume =>
      Yield elementary value p s (fun s' => gen_bind (resume s') f)
  | Starved => Starved
  end.

Definition g_then {A B} (m : G A) (f : A -> G B) : G B :=
  fun s => gen_bind (m s) f.

Definition done {A} (a : A) : G A := fun s => Return a s.
Definition throw {A} (e : exn) : G A := fun s => Throw e s.
Definition current_state : G State := fun s => Return s s.
Definition update (f : State -> State) : G unit := fun s => Return tt (f s).

(** A call of a method from the body of a generator. *)
Definition method {A} (m : M A) : G A :=
  fun s => match m s with
           | Ok a s' => Return a s'
           | Raised e s' => Throw e s'
           end.

Definition pure {A} (r : exn + A) : G A := method (lift r).

(** [yield elementary, value, node_line, node_char]. *)
Definition yield (elementary : bool) (value : pyval) (p : position) : G unit :=
  fun s => Yield elementary value p s (fun s' => Return tt s').

Declare Scope gen_scope.
Delimit Scope gen_scope with gen.
Notation "x <- m ;; k" := (g_then m (fun x => k))
  (at level 90, m at level 80, right associativity) : gen_scope.
Notation "m ;;; k" := (g_then m (fun _ => k))
  (at level 90, right associativity) : gen_scope.

(** The consumer
    [for elementary, value, l, c in g: yield elementary, None, l, c;
     if value is not None: binary_value = value]. *)
Fixpoint forward_value (g : gen unit) (binary_value : pyval) : gen pyval :=
  match g with
  | Return _ s => Return binary_value s
  | Throw e s => Throw e s
  | Yield elementary value p s resume =>
      Yield elementary VNone p s
            (fun s' => forward_value (resume s')
                         (match value with VNone => binary_value | _ => value end))
  | Starved => Starved
  end.

(** The consumer of the condition of a WHILE: only elementary steps are
    passed on. *)
Fixpoint forward_elementary (g : gen unit) (binary_value : pyval) : gen pyval :=
  match g with
  | Return _ s => Return binary_value s
  | Throw e s => Throw e s
  | Yield elementary value p s resume =>
      let binary_value := match value with VNone => binary_value | _ => value end in
      if elementary
      then Yield true VNone p s (fun s' => forward_elementary (resume s') binary_value)
      else forward_elementary (resume s) binary_value
  | Starved => Starved
  end.

(** How the consumer of a loop body left its [for]. *)
Inductive loop_exit : Type :=
| body_exhausted
| body_continue
| body_break.

(** The consumer of the block of a FOR or WHILE: at ['CONTINUE'] it yields
    and leaves the block, at ['BREAK'] it yields and returns, anything
    else is passed on. *)
Fixpoint forward_loop_body (g : gen unit) : gen loop_exit :=
  match g with
  | Return _ s => Return body_exhausted s
  | Throw e s => Throw e s
  | Yield elementary value p s resume =>
      match value with
      | VStr "CONTINUE" => Yield elementary VNone p s (fun s' => Return body_continue s')
      | VStr "BREAK" => Yield elementary VNone p s (fun s' => Return body_break s')
      | _ => Yield elementary value p s (fun s' => forward_loop_body (resume s'))
      end
  | Starved => Starved
  end.

(** The consumer of a function body in [execute_function]: at a
    [('RETURN', v)] it yields [v] and leaves the body. *)
Fixpoint forward_function_body (g : gen unit) : gen unit :=
  match g with
  | Return _ s => Return tt s
  | Throw e s => Throw e s
  | Yield elementary value p s resume =>
      match value with
      | VReturn v => Yield elementary v p s (fun s' => Return tt s')
      | _ => Yield elementary value p s (fun s' => forward_function_body (resume s'))
      end
  | Starved => Starved
  end.

(** The nested executors of [execute_node] read [node_line] and
    [node_char] from its scope, and its last loop,
    [for elementary, value, node_line, node_char in executor(): yield ...],
    rebinds the two at every step the executor yields: from then on the
    position the executor reads is the position of that step. An executor
    is therefore run from a position and leaves one. *)
Definition E (A : Type) : Type := position -> G (A * position).

(** A part [g] of an executor under that loop, entered at position [p]. *)
Fixpoint track {A} (g : gen A) (p : position) : gen (A * position) :=
  match g with
  | Return a s => Return (a, p) s
  | Throw e s => Throw e s
  | Yield elementary value step_position s resume =>
      Yield elementary value step_position s (fun s' => track (resume s') step_position)
  | Starved => Starved
  end.

Definition e_then {A B} (m : E A) (f : A -> E B) : E B :=
  fun p s => gen_bind (m p s) (fun r => f (fst r) (snd r)).

(** A part of an executor that reads the position where it starts: it
    passes on no step of another node before it has used it for the last
    time. *)
Definition at_node {A} (f : position -> G A) : E A :=
  fun p s => track (f p s) p.
Arguments at_node {A} f%_gen.

(** The steps of another generator, passed on by a loop of the executor. *)
Definition steps_of {A} (m : G A) : E A := at_node (fun _ => m).

Definition e_done {A} (a : A) : E A := at_node (fun _ => done a).

Definition e_starved {A} : E A := fun _ _ => Starved.

(** [execute_node] on a node: its executor starts from the position of the
    node, [get_line_of_node(node)] and [get_char_of_node(node)]. *)
Definition start {A} (p : position) (m : E A) : G A :=
  fun s => gen_bind (m p s) (fun r => done (fst r)).

Declare Scope node_scope.
Delimit Scope node_scope with node.
Notation "x <- m ;; k" := (e_then m (fun x => k))
  (at level 90, m at level 80, right associativity) : node_scope.
Notation "m ;;; k" := (e_then m (fun _ => k))
  (at level 90, right associativity) : node_scope.

End generators.
Export generators.
(* ===================================================================== *)
(** ** executor_sync.py: Python values in the converters *)
(* ===================================================================== *)

Module values.

Definition int_of (v : pyval) : exn + Z :=
  match as_int v with
  | Some x => inr x
  | None => inl TypeError
  end.

(** [bin_to_int(x)] returns [x] itself when [x < 2**31]: a [bool] stays a
    [bool]. *)
Definition py_bin_to_int (v : pyval) : exn + pyval :=
  match v with
  | VInt x => inr (VInt (bin_to_int x))
  | VBool b => inr (VBool b)
  | _ => inl TypeError
  end.

(** [bin_to_int(x)] where only its number is used. *)
Definition bin_to_int_of (v : pyval) : exn + Z :=
  match py_bin_to_int v with
  | inr v' => int_of v'
  | inl e => inl e
  end.

(** [int_to_bin(x)] returns [x] itself when [x >= 0]. *)
Definition py_int_to_bin (v : pyval) : exn + pyval :=
  match v with
  | VInt x => inr (VInt (int_to_bin x false))
  | VBool b => inr (VBool b)
  | _ => inl TypeError
  end.

(** [bin_to_bool(x)]; for an [x] that is no number the exception class
    fails to format it. *)
Definition py_bin_to_bool (v : pyval) (p : position) : exn + bool :=
  match v with
  | VInt x => bin_to_bool x p
  | VBool b => inr b
  | VStr _ => inl ValueError
  | _ => inl TypeError
  end.

Definition py_bin_to_pointer (v : pyval) (p : position) : exn + Z :=
  match as_int v with
  | Some x => bin_to_pointer x p
  | None => inl TypeError
  end.

Definition py_bin_to_char (v : pyval) (p : position) : exn + ascii :=
  match as_int v with
  | Some x => bin_to_char x p
  | None => inl TypeError
  end.

(** [a == b]. *)
Fixpoint py_eq (a b : pyval) : bool :=
  match a, b with
  | VNone, VNone => true
  | VStr x, VStr y => String.eqb x y
  | VReturn x, VReturn y => py_eq x y
  | _, _ =>
      match as_int a, as_int b with
      | Some x, Some y => x =? y
      | _, _ => false
      end
  end.

(** [str(x)] of an integer. *)
Definition str_of_int (x : Z) : string := NilZero.string_of_int (Z.to_int x).

(** [str(value)] as [print] writes it. *)
Definition py_str (v : pyval) : exn + string :=
  match v with
  | VInt x => inr (str_of_int x)
  | VBool true => inr "True"%string
  | VBool false => inr "False"%string
  | VStr s => inr s
  | VNone => inr "None"%string
  | VReturn _ => inl (OutsideModel "str of a tuple")
  end.

(** [s[:size]]. *)
Definition slice_to (s : string) (size : Z) : string :=
  if 0 <=? size then String.substring 0 (Z.to_nat size) s
  else String.substring 0 (Z.to_nat (len (list_ascii_of_string s) + size)) s.

(** [int(bin, 2)] on a string of binary digits; the empty string is a
    [ValueError]. *)
Definition int_base2 (bin : list ascii) : exn + Z :=
  match bin with
  | [] => inl ValueError
  | _ => inr (fold_left (fun acc c => 2 * acc + (if Ascii.eqb c "1" then 1 else 0)) bin 0)
  end.

End values.
Export values.

(* ===================================================================== *)
(** ** executor_sync.py: [execute_node] and [execute_function] *)
(* ===================================================================== *)

Module executor_sync.

Local Open Scope gen_scope.

(** The value a sub-expression leaves to its consumer. *)
Definition value_of (g : G unit) : G pyval := fun s => forward_value (g s) VNone.

(** A loop that stops by itself within [budget] rounds, run without
    building the budget as a unary number. [inl] goes on, [inr] stops. *)
Fixpoint repeat_until {A R} (budget : positive) (step : A -> M (A + R)) (a : A)
  : M (A + R) :=
  fun s =>
  match budget with
  | xH => step a s
  | xO budget' =>
      match repeat_until budget' step a s with
      | Ok (inl a') s' => repeat_until budget' step a' s'
      | other => other
      end
  | xI budget' =>
      match step a s with
      | Ok (inl a') s' =>
          match repeat_until budget' step a' s' with
          | Ok (inl a'') s'' => repeat_until budget' step a'' s''
          | other => other
          end
      | other => other
      end
  end.

(** [_get_string_from_address]: the address grows by one each round and a
    read at [MEMORY_SIZE] raises, so [MEMORY_SIZE] rounds are enough. *)
Definition _get_string_from_address (address : Z) (p : position) : M string :=
  fun s =>
  match repeat_until (Z.to_pos MEMORY_SIZE)
          (fun '(address, text) s =>
             bind (_get_memory address p s) (fun word s =>
             bind (lift (py_bin_to_char word p) s) (fun c s =>
             if Ascii.eqb c (ascii_of_nat 0) then Ok (inr text) s
             else Ok (inl (address + 1, (text ++ String c EmptyString)%string)) s)))
          (address, EmptyString) s with
  | Ok (inr text) s' => Ok text s'
  | Ok (inl _) s' => Raised (OutsideModel "_get_string_from_address") s'
  | Raised e s' => Raised e s'
  end.

(** [_execute_atom]. *)
Definition _execute_atom (lit : literal) : E unit :=
  at_node (fun p =>
    match lit with
    | ident variable =>
        address <- method (_get_variable_address variable p) ;;
        value <- method (_get_memory address p) ;;
        yield false value p
    | _ =>
        value <- method (literal_value lit p 1) ;;
        yield false value p
    end).

(** The test [variable not in self.global_variables and variable not in
    self.local_variables[-1]], followed by the [append]. *)
Definition undeclared (variable : string) : G bool :=
  s <- current_state ;;
  if list_in variable (global_variables s) then done false
  else match last_item (local_variables s) with
       | None => throw IndexError
       | Some frame => done (negb (list_in variable frame))
       end.

Definition append_local (variable : string) : G unit :=
  update (fun s =>
    match last_item (local_variables s) with
    | Some frame =>
        set_local_variables s (but_last (local_variables s) ++ [frame ++ [variable]])
    | None => s
    end).

Section nodes.

(** The recursive calls [self.execute_node] and [self.execute_function]. *)
Variable execute_node : node -> G unit.
Variable execute_function : string -> list pyval -> G unit.

Local Open Scope node_scope.

(** [_execute_affect]. *)
Definition _execute_affect (variable : string) (expr : node) : E unit :=
  address <- at_node (fun p =>
    fresh_name <- undeclared variable ;;
    (if fresh_name : bool then
       append_local variable ;;;
       s <- current_state ;;
       if negb (_check_memory_limit_exceeded None s)
       then throw (Exec (MemoryExceededError p variable))
       else done tt
     else done tt) ;;;
    method (_get_variable_address variable p))%gen ;;
  binary_value <- steps_of (value_of (execute_node expr)) ;;
  at_node (fun p =>
    method (_set_memory address binary_value p) ;;;
    yield true VNone p)%gen.

(** [_execute_arrayaffect]. *)
Definition _execute_arrayaffect (array index expr : node) : E unit :=
  binary_array <- steps_of (value_of (execute_node array)) ;;
  binary_index <- steps_of (value_of (execute_node index)) ;;
  binary_value <- steps_of (value_of (execute_node expr)) ;;
  at_node (fun p =>
    address <- pure (py_bin_to_pointer binary_array p) ;;
    index_value <- pure (bin_to_int_of binary_index) ;;
    method (_set_memory (address + index_value) binary_value p) ;;;
    yield true VNone p)%gen.

(** [_execute_structaffect]. *)
Definition _execute_structaffect (struct : node) (field : string) (expr : node)
  : E unit :=
  binary_struct <- steps_of (value_of (execute_node struct)) ;;
  binary_value <- steps_of (value_of (execute_node expr)) ;;
  at_node (fun p =>
    address <- pure (py_bin_to_pointer binary_struct p) ;;
    s <- current_state ;;
    match dict_get (structures_fields_indexes s) field with
    | None => throw (Exec (UndeclaredFieldError p field))
    | Some field_index =>
        method (_set_memory (address + field_index) binary_value p) ;;;
        yield true VNone p
    end)%gen.

(** [_execute_derefaffect]. *)
Definition _execute_derefaffect (pointer expr : node) : E unit :=
  binary_pointer <- steps_of (value_of (execute_node pointer)) ;;
  binary_value <- steps_of (value_of (execute_node expr)) ;;
  at_node (fun p =>
    address <- pure (py_bin_to_pointer binary_pointer p) ;;
    method (_set_memory address binary_value p) ;;;
    yield true VNone p)%gen.

(** [_execute_bracketexpr]: every step of the child is passed on as it is. *)
Definition _execute_bracketexpr (expr : node) : E unit := steps_of (execute_node expr).

(** The operator application of [_execute_binaryoperator]. *)
Definition apply_binary_operator (operator : string) (binary_left_value binary_right_value : pyval)
    (p : position) : exn + pyval :=
  if list_in operator ["+"; "-"; "/"; "*"; "%"; "<="; ">="; "<"; ">"]%string then
    match bin_to_int_of binary_left_value with
    | inl e => inl e
    | inr left_value =>
        match bin_to_int_of binary_right_value with
        | inl e => inl e
        | inr right_value =>
            if String.eqb operator "+"
            then inr (VInt (int_to_bin (left_value + right_value) true))
            else if String.eqb operator "-"
            then inr (VInt (int_to_bin (left_value - right_value) true))
            else if String.eqb operator "*"
            then inr (VInt (int_to_bin (left_value * right_value) true))
            else if String.eqb operator "/"
            then if right_value =? 0
                 then inl (Exec (MathDomainError p right_value))
                 else inr (VInt (int_to_bin (left_value / right_value) true))
            else if String.eqb operator "%"
            then if right_value =? 0
                 then inl (Exec (MathDomainError p right_value))
                 else inr (VInt (int_to_bin (left_value mod right_value) true))
            else if String.eqb operator "<="
            then inr (VInt (bool_to_bin (left_value <=? right_value)))
            else if String.eqb operator ">="
            then inr (VInt (bool_to_bin (right_value <=? left_value)))
            else if String.eqb operator "<"
            then inr (VInt (bool_to_bin (left_value <? right_value)))
            else inr (VInt (bool_to_bin (right_value <? left_value)))
        end
    end
  else if list_in operator ["+."; "-."; "/."; "*."; "<=."; ">=."; "<."; ">."]%string
  then inl (OutsideModel "float operator")
  else if String.eqb operator "=="
  then inr (VInt (bool_to_bin (py_eq binary_left_value binary_right_value)))
  else if String.eqb operator "!="
  then inr (VInt (bool_to_bin (negb (py_eq binary_left_value binary_right_value))))
  else inl (Exec (UnknownError p 2)).

(** [_execute_binaryoperator]. *)
Definition _execute_binaryoperator (left_expr : node) (operator : string) (right_expr : node)
  : E unit :=
  binary_left_value <- steps_of (value_of (execute_node left_expr)) ;;
  binary_right_value <- steps_of (value_of (execute_node right_expr)) ;;
  at_node (fun p =>
    result <- pure (apply_binary_operator operator binary_left_value binary_right_value p) ;;
    yield true result p)%gen.

(** [_execute_boolbinaryoperator]. *)
Definition _execute_boolbinaryoperator (left_expr : node) (operator : string)
    (right_expr : node) : E unit :=
  binary_left_value <- steps_of (value_of (execute_node left_expr)) ;;
  result <- at_node (fun p =>
    left_value <- pure (py_bin_to_bool binary_left_value p) ;;
    if String.eqb operator "AND"
    then done (if negb left_value then Some false else None)
    else if String.eqb operator "OR"
    then done (if left_value : bool then Some true else None)
    else throw (Exec (UnknownError p 3)))%gen ;;
  match result with
  | Some decided => at_node (fun p => yield true (VBool decided) p)%gen
  | None =>
      binary_right_value <- steps_of (value_of (execute_node right_expr)) ;;
      at_node (fun p =>
        right_value <- pure (py_bin_to_bool binary_right_value p) ;;
        yield true (VBool right_value) p)%gen
  end.

(** [_execute_unaryoperator]. *)
Definition _execute_unaryoperator (operator : string) (expr : node) : E unit :=
  binary_value <- steps_of (value_of (execute_node expr)) ;;
  at_node (fun p =>
    if String.eqb operator "NOT" then
      value <- pure (py_bin_to_bool binary_value p) ;;
      yield true (VInt (bool_to_bin (negb value))) p
    else if String.eqb operator "$" then
      address <- pure (py_bin_to_pointer binary_value p) ;;
      result <- method (_get_memory address p) ;;
      yield true result p
    else throw (Exec (UnknownError p 4)))%gen.

(** [_execute_refexpr]. *)
Definition _execute_refexpr (variable_name : string) : E unit :=
  at_node (fun p =>
    address <- method (_get_variable_address variable_name p) ;;
    yield true (VInt (pointer_to_bin address)) p)%gen.

(** [_execute_arraycall]. *)
Definition _execute_arraycall (array index : node) : E unit :=
  binary_array <- steps_of (value_of (execute_node array)) ;;
  binary_index <- steps_of (value_of (execute_node index)) ;;
  at_node (fun p =>
    address <- pure (py_bin_to_pointer binary_array p) ;;
    index_value <- pure (bin_to_int_of binary_index) ;;
    result <- method (_get_memory (address + index_value) p) ;;
    yield true result p)%gen.

(** [_execute_structcall]. *)
Definition _execute_structcall (struct : node) (field : string) : E unit :=
  binary_struct <- steps_of (value_of (execute_node struct)) ;;
  at_node (fun p =>
    address <- pure (py_bin_to_pointer binary_struct p) ;;
    s <- current_state ;;
    match dict_get (structures_fields_indexes s) field with
    | None => throw (Exec (UndeclaredFieldError p field))
    | Some field_index =>
        result <- method (_get_memory (address + field_index) p) ;;
        yield true result p
    end)%gen.

(** The arity test at the head of [_execute_call]. *)
Definition expected_nb_parameters (function_name : string) (nb : Z) (p : position)
  : G bool :=
  if list_in function_name ["READ"; "RAND"; "FLUSH"; "FLUSHERR"]%string
  then done (nb =? 0)
  else if list_in function_name
            ["IABS"; "FABS"; "COS"; "SIN"; "TAN"; "SQRT"; "EXP"; "LN"; "SH"; "CH"; "TH";
             "CEIL"; "FLOOR"; "ROUND"; "MALLOC_STRUCT"; "FREE"; "SRAND"; "I2F"; "F2I";
             "S2I"; "S2F"; "V2B"; "ELEMENTARY_OPERATIONS"]%string
  then done (nb =? 1)
  else if String.eqb function_name "POW" then done (nb =? 2)
  else if list_in function_name ["I2S"; "F2S"]%string then done (nb =? 3)
  else if list_in function_name ["PRINT"; "PRINTERR"]%string then done true
  else if String.eqb function_name "MALLOC" then done (1 <=? nb)
  else
    (s <- current_state ;;
     match dict_get (functions_infos s) function_name with
     | None => throw (Exec (UndeclaredFunctionError p function_name))
     | Some info => done (nb =? len (fi_parameters info))
     end)%gen.

Definition type_names : list string :=
  ["INT"; "FLOAT"; "CHAR"; "BOOL"; "STRING"; "POINTER"]%string.

(** The loop that fills [binary_parameters]: a type token is kept as its
    name, an expression is evaluated. *)
Fixpoint evaluate_parameters (parameters : list (string + node)) : E (list pyval) :=
  match parameters with
  | [] => e_done []
  | inl token :: parameters' =>
      if list_in token type_names
      then binary_parameters <- evaluate_parameters parameters' ;;
           e_done (VStr token :: binary_parameters)
      else steps_of (throw KeyError)
  | inr parameter :: parameters' =>
      binary_value <- steps_of (value_of (execute_node parameter)) ;;
      binary_parameters <- evaluate_parameters parameters' ;;
      e_done (binary_value :: binary_parameters)
  end.

(** The initialisation loop of MALLOC: one write and one elementary step
    for each extra parameter. *)
Fixpoint initialise_cells (address i : Z) (values : list pyval) (p : position) : G unit :=
  match values with
  | [] => done tt
  | binary_parameter :: values' =>
      (method (_set_memory (address + i) binary_parameter p) ;;;
       yield true VNone p ;;;
       initialise_cells address (i + 1) values' p)%gen
  end.

(** [print(value, file=file, end='')]. *)
Definition print (to_stdout : bool) (value : pyval) : M unit :=
  fun s =>
  match py_str value with
  | inl e => Raised e s
  | inr text =>
      Ok tt (if to_stdout then set_stdout s (stdout s ++ text)%string
             else set_stderr s (stderr s ++ text)%string)
  end.

(** The loop of PRINT and PRINTERR over [binary_parameters]. *)
Fixpoint print_parameters (function_name : string) (type : option string)
    (binary_parameters : list pyval) (p : position) : M unit :=
  match binary_parameters with
  | [] => loader.ret tt
  | parameter :: rest =>
      let parameter_is_type :=
        match parameter with
        | VStr t => list_in t ["INT"; "FLOAT"; "BOOL"; "POINTER"; "STRING"; "CHAR"]%string
        | _ => false
        end in
      if parameter_is_type then
        match type, parameter with
        | Some t, _ =>
            raise (Exec (InvalidTypeParameterInFunctionError p function_name t))
        | None, VStr t => print_parameters function_name (Some t) rest p
        | None, _ => raise TypeError
        end
      else
        and_then
          (match type with
           | None | Some "STRING" =>
               and_then (lift (py_bin_to_pointer parameter p)) (fun address =>
               and_then (_get_string_from_address address p) (fun text =>
               loader.ret (VStr text)))
           | Some "INT" => lift (py_bin_to_int parameter)
           | Some "FLOAT" => raise (OutsideModel "bin_to_float")
           | Some "CHAR" =>
               and_then (lift (py_bin_to_char parameter p)) (fun c =>
               loader.ret (VStr (String c EmptyString)))
           | Some "BOOL" =>
               and_then (lift (py_bin_to_bool parameter p)) (fun b =>
               loader.ret (VBool b))
           | Some "POINTER" =>
               and_then (lift (py_bin_to_pointer parameter p)) (fun _ =>
               lift (py_bin_to_int parameter))
           | Some _ => raise (Exec (UnknownError p 5))
           end)
          (fun value =>
           and_then (print (String.eqb function_name "PRINT") value) (fun _ =>
           print_parameters function_name None rest p))
  end.

(** [c in '01'] for a character [c]. *)
Definition is_binary_digit (c : ascii) : bool := Ascii.eqb c "0" || Ascii.eqb c "1".

(** The inner [while] of READ: every character of the buffer is popped,
    the binary digits are kept. *)
Fixpoint drain (buffer bin : list ascii) : list ascii :=
  match buffer with
  | [] => bin
  | c :: buffer' => drain buffer' (if is_binary_digit c then bin ++ [c] else bin)
  end.

(** The outer [while True] of READ; [lines] is what [input()] will return,
    and an [input()] with no line left raises [EOFError]. *)
Fixpoint read_bits (lines : list string) (bin : list ascii) : M (list ascii) :=
  fun s =>
  let bin := drain (input_buffer s) bin in
  let s := set_input_buffer s [] in
  if len bin <? MAX_NB_BITS then
    match lines with
    | [] => Raised EOFError s
    | line :: lines' =>
        read_bits lines' bin
          (set_stdin (set_input_buffer s (input_buffer s ++ list_ascii_of_string line)) lines')
    end
  else Ok bin s.

(** The branch [function_name == 'READ']. *)
Definition READ : M pyval :=
  fun s =>
  bind (read_bits (stdin s) [] s) (fun bin s =>
  bind (lift (int_base2 bin) s) (fun result s => Ok (VInt result) s)).

(** The dispatch of [_execute_call] on the function name, after the
    parameters are evaluated. *)
Definition call_result (function_name : string) (binary_parameters : list pyval)
    (p : position) : G pyval :=
  (let result := VInt (int_to_bin 0 false) in
  let parameter (i : nat) : G pyval :=
    match nth_error binary_parameters i with
    | Some v => done v
    | None => throw IndexError
    end in
  if list_in function_name
       ["FABS"; "COS"; "SIN"; "TAN"; "SQRT"; "EXP"; "LN"; "SH"; "CH"; "TH"; "CEIL";
        "FLOOR"; "ROUND"]%string
  then throw (OutsideModel "float built-in")
  else if String.eqb function_name "IABS" then
    v <- parameter 0%nat ;;
    value <- pure (bin_to_int_of v) ;;
    done (VInt (int_to_bin (Z.abs value) false))
  else if String.eqb function_name "POW" then throw (OutsideModel "float built-in")
  else if String.eqb function_name "MALLOC" then
    v <- parameter 0%nat ;;
    size <- pure (bin_to_int_of v) ;;
    address <- method (_malloc size p) ;;
    initialise_cells address 0 (tl binary_parameters) p ;;;
    done (VInt (pointer_to_bin address))
  else if String.eqb function_name "MALLOC_STRUCT" then
    v <- parameter 0%nat ;;
    s <- current_state ;;
    match v with
    | VStr struct_name =>
        match dict_get (structures_fields s) struct_name with
        | None => throw (Exec (UndeclaredStructureError p struct_name))
        | Some fields =>
            address <- method (_malloc (len fields) nowhere) ;;
            done (VInt (pointer_to_bin address))
        end
    | _ => throw (OutsideModel "MALLOC_STRUCT")
    end
  else if String.eqb function_name "FREE" then
    v <- parameter 0%nat ;;
    pointer <- pure (py_bin_to_pointer v p) ;;
    method (_free pointer nowhere) ;;;
    done result
  else if list_in function_name ["PRINT"; "PRINTERR"]%string then
    method (print_parameters function_name None binary_parameters p) ;;;
    done result
  else if list_in function_name ["FLUSH"; "FLUSHERR"]%string then done result
  else if String.eqb function_name "READ" then method READ
  else if list_in function_name ["RAND"; "SRAND"; "I2F"; "F2I"; "F2S"; "S2I"; "S2F"]%string
  then throw (OutsideModel "float, random or parsing built-in")
  else if String.eqb function_name "I2S" then
    v0 <- parameter 0%nat ;;
    value <- pure (py_bin_to_int v0) ;;
    v1 <- parameter 1%nat ;;
    address <- pure (py_bin_to_pointer v1 p) ;;
    v2 <- parameter 2%nat ;;
    size <- pure (bin_to_int_of v2) ;;
    text <- pure (py_str value) ;;
    method (_set_string_to_address (list_ascii_of_string (slice_to text size)) address p) ;;;
    done result
  else if String.eqb function_name "V2B" then
    v <- parameter 0%nat ;;
    done (VInt (bool_to_bin (negb (py_eq v (VInt 0)))))
  else if String.eqb function_name "ELEMENTARY_OPERATIONS" then
    v <- parameter 0%nat ;;
    s <- current_state ;;
    match v with
    | VStr "INT" => done (VInt (int_to_bin (nb_elementary_operations s) true))
    | VStr "FLOAT" => throw (OutsideModel "float_to_bin")
    | _ => throw (Exec (UnknownError (fst p, fst p) 6))
    end
  else
    fun s => forward_value (execute_function function_name binary_parameters s) result)%gen.

(** [_execute_call]. MALLOC_STRUCT takes the text of its parameter, an
    identifier, in place of its value. *)
Definition _execute_call (function_name : string) (parameters : list (string + node))
  : E unit :=
  expected <- at_node (expected_nb_parameters function_name (len parameters)) ;;
  if negb expected
  then at_node (fun p => throw (Exec (IncorrectNumberOfParametersInFunction p function_name)))%gen
  else
    binary_parameters <-
      (if String.eqb function_name "MALLOC_STRUCT" then
         match parameters with
         | inr (atom (ident struct_name) _) :: _ => e_done [VStr struct_name]
         | _ => steps_of (throw (OutsideModel "MALLOC_STRUCT"))
         end
       else evaluate_parameters parameters) ;;
    result <- at_node (call_result function_name binary_parameters) ;;
    at_node (yield true result).

(** [_execute_ifexpr]: the IF and ELIF branches in order, then the ELSE. *)
Fixpoint _execute_ifexpr (branches : list (node * node)) (else_block : option node)
  : E unit :=
  match branches with
  | (condition, blk) :: branches' =>
      binary_condition <- steps_of (value_of (execute_node condition)) ;;
      condition <- at_node (fun p =>
        yield true VNone p ;;;
        pure (py_bin_to_bool binary_condition p))%gen ;;
      if condition : bool then steps_of (execute_node blk)
      else _execute_ifexpr branches' else_block
  | [] =>
      match else_block with
      | Some blk => steps_of (execute_node blk)
      | None => e_done tt
      end
  end.

(** The [while] of [_execute_forexpr]; [budget] bounds its rounds. *)
Fixpoint for_rounds (budget : nat) (address end_expr : Z) (blk : node) : E unit :=
  match budget with
  | O => e_starved
  | S budget' =>
      again <- at_node (fun p =>
        word <- method (_get_memory address p) ;;
        i <- pure (bin_to_int_of word) ;;
        done (i <? end_expr))%gen ;;
      if again : bool then
        exit <- steps_of (fun s => forward_loop_body (execute_node blk s)) ;;
        match exit with
        | body_break => e_done tt
        | _ =>
            at_node (fun p =>
              word <- method (_get_memory address p) ;;
              i <- pure (bin_to_int_of word) ;;
              method (_set_memory address (VInt (int_to_bin (i + 1) false)) p) ;;;
              yield true VNone p ;;;
              yield true VNone p ;;;
              yield true VNone p)%gen ;;;
            for_rounds budget' address end_expr blk
        end
      else e_done tt
  end.

(** [_execute_forexpr]. The loop variable is declared without the room
    check. *)
Definition _execute_forexpr (budget : nat) (variable : string)
    (start_expr end_expr blk : node) : E unit :=
  address <- at_node (fun p =>
    fresh_name <- undeclared variable ;;
    (if fresh_name : bool then append_local variable else done tt) ;;;
    method (_get_variable_address variable p))%gen ;;
  binary_start_expr <- steps_of (value_of (execute_node start_expr)) ;;
  start_value <- steps_of (pure (py_bin_to_int binary_start_expr)) ;;
  binary_end_expr <- steps_of (value_of (execute_node end_expr)) ;;
  end_value <- at_node (fun p =>
    end_value <- pure (bin_to_int_of binary_end_expr) ;;
    first_word <- pure (py_int_to_bin start_value) ;;
    method (_set_memory address first_word p) ;;;
    yield true VNone p ;;;
    yield true VNone p ;;;
    done end_value)%gen ;;
  for_rounds budget address end_value blk.

(** The [while True] of [_execute_whileexpr]; [budget] bounds its rounds. *)
Fixpoint _execute_whileexpr (budget : nat) (condition_node blk : node) : E unit :=
  match budget with
  | O => e_starved
  | S budget' =>
      binary_condition <-
        steps_of (fun s => forward_elementary (execute_node condition_node s) VNone) ;;
      condition <- at_node (fun p =>
        condition <- pure (py_bin_to_bool binary_condition p) ;;
        yield true VNone p ;;;
        done condition)%gen ;;
      if condition : bool then
        exit <- steps_of (fun s => forward_loop_body (execute_node blk s)) ;;
        match exit with
        | body_break => e_done tt
        | _ => _execute_whileexpr budget' condition_node blk
        end
      else e_done tt
  end.

(** [_execute_continuerule], [_execute_breakrule], [_execute_returnrule]. *)
Definition _execute_continuerule : E unit := at_node (yield false (VStr "CONTINUE")).

Definition _execute_breakrule : E unit := at_node (yield false (VStr "BREAK")).

Definition _execute_returnrule (expr : node) : E unit :=
  binary_value <- steps_of (value_of (execute_node expr)) ;;
  at_node (yield false (VReturn binary_value)).

(** [_execute_block]: the steps of each command, as they are. *)
Fixpoint _execute_block (blockexprs : list node) : E unit :=
  match blockexprs with
  | [] => e_done tt
  | blockexpr :: blockexprs' =>
      steps_of (execute_node blockexpr) ;;; _execute_block blockexprs'
  end.

End nodes.

(** [execute_function], given [execute_node]. *)
Definition execute_function_with (execute_node : node -> G unit)
    (function_name : string) (params : list pyval) : G unit :=
  s <- current_state ;;
  match dict_get (functions_infos s) function_name with
  | None => throw KeyError
  | Some info =>
      let p := fi_position info in
      method (push_frame (fi_parameters info) p) ;;;
      match fi_parameters info with
      | [] => done tt
      | first :: _ =>
          address0 <- method (_get_variable_address first p) ;;
          method (for_enumerate 0 params (fun i param _ => _set_memory (address0 + i) param p))
      end ;;;
      (fun s => forward_function_body (execute_node (fi_tree info) s)) ;;;
      method pop_frame
  end.

(** The executor [type_to_function[node[0]]] of a node and the position
    [get_line_of_node(node)], [get_char_of_node(node)] it starts from; a
    block has none. *)
Definition executor_of (execute_node : node -> G unit)
    (execute_function : string -> list pyval -> G unit) (budget : nat) (n : node)
  : position * E unit :=
  match n with
  | atom lit p => (p, _execute_atom lit)
  | affect variable expr p => (p, _execute_affect execute_node variable expr)
  | arrayaffect array index expr p =>
      (p, _execute_arrayaffect execute_node array index expr)
  | structaffect struct field expr p =>
      (p, _execute_structaffect execute_node struct field expr)
  | derefaffect pointer expr p => (p, _execute_derefaffect execute_node pointer expr)
  | bracketexpr expr p => (p, _execute_bracketexpr execute_node expr)
  | binaryoperator left_expr operator right_expr p =>
      (p, _execute_binaryoperator execute_node left_expr operator right_expr)
  | boolexpr left_expr operator right_expr p =>
      (p, _execute_boolbinaryoperator execute_node left_expr operator right_expr)
  | unaryoperator operator expr p =>
      (p, _execute_unaryoperator execute_node operator expr)
  | refexpr variable p => (p, _execute_refexpr variable)
  | call function_name parameters p =>
      (p, _execute_call execute_node execute_function function_name parameters)
  | arraycall array index p => (p, _execute_arraycall execute_node array index)
  | structcall struct field p => (p, _execute_structcall execute_node struct field)
  | ifexpr branches else_block p => (p, _execute_ifexpr execute_node branches else_block)
  | forexpr variable start_expr end_expr blk p =>
      (p, _execute_forexpr execute_node budget variable start_expr end_expr blk)
  | whileexpr condition_expr blk p =>
      (p, _execute_whileexpr execute_node budget condition_expr blk)
  | continuerule p => (p, _execute_continuerule)
  | breakrule p => (p, _execute_breakrule)
  | returnrule expr p => (p, _execute_returnrule execute_node expr)
  | block blockexprs => (nowhere, _execute_block execute_node blockexprs)
  end.

(** [execute_node]: the executor of the node, under the loop that passes
    its steps on and rebinds the position of the node. [fuel] bounds the
    depth of the calls of [execute_node] on one another and the rounds of
    each loop. *)
Fixpoint execute_node (fuel : nat) (n : node) : G unit :=
  match fuel with
  | O => fun _ => Starved
  | S fuel' =>
      let '(p, executor) :=
        executor_of (execute_node fuel') (execute_function_with (execute_node fuel'))
          fuel' n in
      start p executor
  end.

Definition execute_function (fuel : nat) : string -> list pyval -> G unit :=
  execute_function_with (execute_node fuel).

(** The loop of [main_function_iterator]: an elementary step is counted
    and yielded, any other step is dropped. *)
Fixpoint count_elementary (g : gen unit) : gen unit :=
  match g with
  | Return _ s => Return tt s
  | Throw e s => Throw e s
  | Yield elementary _ p s resume =>
      if elementary then
        Yield true VNone p
              (set_nb_elementary_operations s (nb_elementary_operations s + 1))
              (fun s' => count_elementary (resume s'))
      else count_elementary (resume s)
  | Starved => Starved
  end.

(** [main_function_iterator]. *)
Definition main_function_iterator (fuel : nat) : G unit :=
  fun s => count_elementary (execute_function fuel "main" [] s).

(** [for _ in iterator: pass], the loop of [execute_program]: [None] when
    the budget of the embedding ran out. *)
Fixpoint exhaust {A} (g : gen A) : option (outcome A) :=
  match g with
  | Return a s => Some (Ok a s)
  | Throw e s => Some (Raised e s)
  | Yield _ _ _ s resume => exhaust (resume s)
  | Starved => None
  end.

(** The values a generator yields when it is run to its end, and the one
    among them a consumer that keeps the last value other than [None] ends
    with, starting from [binary_value]. *)
Fixpoint values_yielded {A} (g : gen A) : list pyval :=
  match g with
  | Yield _ value _ s resume => value :: values_yielded (resume s)
  | _ => []
  end.

Definition last_value (values : list pyval) (binary_value : pyval) : pyval :=
  fold_left (fun kept value => match value with VNone => kept | _ => value end)
            values binary_value.

(** What the driver sees at each of its steps: the position it is handed
    and the operation count at that moment. *)
Fixpoint steps_seen (g : gen unit) : list (position * Z) :=
  match g with
  | Yield _ _ p s resume => (p, nb_elementary_operations s) :: steps_seen (resume s)
  | _ => []
  end.

(** [execute_program] on a parsed program, with [input] on the standard
    input. *)
Definition execute_program (fuel : nat) (tree : prog) (input : list string)
  : option (outcome unit) :=
  match SynCProgram tree (fresh input) with
  | Raised e s => Some (Raised e s)
  | Ok _ s => exhaust (main_function_iterator fuel s)
  end.

End executor_sync.
Export executor_sync.
(* ===================================================================== *)
(** ** Programs used below, as the parser would hand them over *)
(* ===================================================================== *)

Module programs.

Definition at_ (line column : Z) : position := (Some line, Some column).

(** [FUNCTION main() FOR(i;0;5) IF(i == 3) BREAK ENDIF PRINT(INT,i) ENDFOR END] *)
Definition scenario_C : prog :=
  {| globalsdecl := None;
     decls :=
       [fundecl "main" []
          (block
             [forexpr "i" (atom (integer 0) (at_ 1 23)) (atom (integer 5) (at_ 1 25))
                (block
                   [ifexpr
                      [(binaryoperator (atom (ident "i") (at_ 1 31)) "=="
                          (atom (integer 3) (at_ 1 36)) (at_ 1 33),
                        block [breakrule (at_ 1 39)])]
                      None (at_ 1 28);
                    call "PRINT" [inl "INT"%string; inr (atom (ident "i") (at_ 1 61))]
                      (at_ 1 56)])
                (at_ 1 17)])
          (at_ 1 1)] |}.

(** [FUNCTION g() RETURN 5 END
     FUNCTION f() g() END
     FUNCTION main() PRINT(INT, f()) END] *)
Definition bare_call : prog :=
  {| globalsdecl := None;
     decls :=
       [fundecl "g" [] (block [returnrule (atom (integer 5) (at_ 1 21)) (at_ 1 14)])
          (at_ 1 1);
        fundecl "f" [] (block [call "g" [] (at_ 2 15)]) (at_ 2 1);
        fundecl "main" []
          (block [call "PRINT" [inl "INT"%string; inr (call "f" [] (at_ 3 29))] (at_ 3 22)])
          (at_ 3 1)] |}.

(** [FUNCTION f() x = 1 END
     FUNCTION main() PRINT(INT, f()) END]: a body of assignments only. *)
Definition no_return : prog :=
  {| globalsdecl := None;
     decls :=
       [fundecl "f" [] (block [affect "x" (atom (integer 1) (at_ 1 18)) (at_ 1 16)])
          (at_ 1 1);
        fundecl "main" []
          (block [call "PRINT" [inl "INT"%string; inr (call "f" [] (at_ 2 29))] (at_ 2 22)])
          (at_ 2 1)] |}.

(** [GLOBALS a = 0 b = 0 ENDGLOBALS
     FUNCTION main() MALLOC(16777214, 7) PRINT(INT, b) END] *)
Definition two_globals : prog :=
  {| globalsdecl :=
       Some [ {| ga_variable := "a"; ga_value := integer 0;
                 ga_value_position := at_ 1 13; ga_position := at_ 1 11 |};
              {| ga_variable := "b"; ga_value := integer 0;
                 ga_value_position := at_ 1 19; ga_position := at_ 1 17 |} ];
     decls :=
       [fundecl "main" []
          (block
             [call "MALLOC" [inr (atom (integer 16777214) (at_ 2 24));
                             inr (atom (integer 7) (at_ 2 34))] (at_ 2 23);
              call "PRINT" [inl "INT"%string; inr (atom (ident "b") (at_ 2 48))]
                (at_ 2 42)])
          (at_ 2 1)] |}.

(** [FUNCTION main()
       a = MALLOC(1) b = MALLOC(2) c = MALLOC(1) FREE(b) d = MALLOC(2)
       PRINT(POINTER, d)
     END] *)
Definition exact_gap : prog :=
  {| globalsdecl := None;
     decls :=
       [fundecl "main" []
          (block
             [affect "a" (call "MALLOC" [inr (atom (integer 1) (at_ 2 12))] (at_ 2 11))
                (at_ 2 3);
              affect "b" (call "MALLOC" [inr (atom (integer 2) (at_ 2 26))] (at_ 2 25))
                (at_ 2 17);
              affect "c" (call "MALLOC" [inr (atom (integer 1) (at_ 2 40))] (at_ 2 39))
                (at_ 2 31);
              call "FREE" [inr (atom (ident "b") (at_ 2 48))] (at_ 2 47);
              affect "d" (call "MALLOC" [inr (atom (integer 2) (at_ 2 62))] (at_ 2 61))
                (at_ 2 53);
              call "PRINT" [inl "POINTER"%string; inr (atom (ident "d") (at_ 3 18))]
                (at_ 3 8)])
          (at_ 1 1)] |}.

(** [GLOBALS x = 1 x = 2 ENDGLOBALS
     FUNCTION f() END]: no [main], and a global declared twice. *)
Definition no_main_twice_global : prog :=
  {| globalsdecl :=
       Some [ {| ga_variable := "x"; ga_value := integer 1;
                 ga_value_position := at_ 1 13; ga_position := at_ 1 11 |};
              {| ga_variable := "x"; ga_value := integer 2;
                 ga_value_position := at_ 1 19; ga_position := at_ 1 17 |} ];
     decls := [fundecl "f" [] (block []) (at_ 2 1)] |}.

(** [FUNCTION f() END]: no [main], nothing else wrong. *)
Definition no_main : prog :=
  {| globalsdecl := None;
     decls := [fundecl "f" [] (block []) (at_ 1 1)] |}.

(** [FUNCTION main() PRINT(INT, READ()) PRINT(" ") PRINT(INT, READ()) END] *)
Definition read_twice : prog :=
  {| globalsdecl := None;
     decls :=
       [fundecl "main" []
          (block
             [call "PRINT" [inl "INT"%string; inr (call "READ" [] (at_ 1 32))] (at_ 1 22);
              call "PRINT" [inr (atom (string_literal " ") (at_ 1 42))] (at_ 1 41);
              call "PRINT" [inl "INT"%string; inr (call "READ" [] (at_ 1 62))] (at_ 1 52)])
          (at_ 1 1)] |}.

(** [STRUCT pair first second ENDSTRUCT
     STRUCT cons head tail ENDSTRUCT
     FUNCTION main() END]: two structures. *)
Definition two_structures : prog :=
  {| globalsdecl := None;
     decls :=
       [structdecl "pair" ["first"; "second"]%string (at_ 1 1);
        structdecl "cons" ["head"; "tail"]%string (at_ 2 1);
        fundecl "main" [] (block []) (at_ 3 1)] |}.

(** A line of [n] ones. *)
Definition ones (n : nat) : string := string_of_list_ascii (repeat "1"%char n).

End programs.
Export programs.
(* ===================================================================== *)
(** ** Predicates on methods and states used in the proofs *)
(* ===================================================================== *)

Module invariants.

(** [m] keeps [P]: a call that returns from a state with [P] ends in a state
    with [P]. *)
Definition keeps {A} (P : State -> Prop) (m : M A) : Prop :=
  forall s a s', m s = Ok a s' -> P s -> P s'.

(** No function named [main] is registered. *)
Definition no_main_registered (s : State) : Prop :=
  dict_get (functions_infos s) "main" = None.

(** The heap list runs from the highest block down and no two blocks
    overlap: each block holds at least one word and ends at or below
    [top], the start of the block before it ([MEMORY_SIZE] for the
    first). *)
Fixpoint heap_sorted (top : Z) (heap : list (Z * Z)) : Prop :=
  match heap with
  | [] => True
  | (address, size) :: heap' =>
      1 <= size /\ address + size <= top /\ heap_sorted address heap'
  end.

(** The number the binary digits [digits] spell after [start], as
    [int(bin, 2)] folds them. *)
Definition spelled (digits : list ascii) (start : Z) : Z :=
  fold_left (fun acc c => 2 * acc + (if Ascii.eqb c "1" then 1 else 0)) digits start.

(** A started generator keeps a view of the state steady: at each of its
    yields, at its return and at its raise, the view is the one of the
    state it was last resumed in ([v] at first). *)
Fixpoint steady {V A} (view : State -> V) (v : V) (g : gen A) : Prop :=
  match g with
  | Return _ s => view s = v
  | Throw _ s => view s = v
  | Yield _ _ _ s resume => view s = v /\ forall s', steady view (view s') (resume s')
  | Starved => True
  end.

Definition G_steady {V A} (view : State -> V) (m : G A) : Prop :=
  forall s, steady view (view s) (m s).

Definition M_steady {V A} (view : State -> V) (m : M A) : Prop :=
  forall s, match m s with
            | Ok _ s' => view s' = view s
            | Raised _ s' => view s' = view s
            end.

Definition E_steady {V A} (view : State -> V) (m : E A) : Prop :=
  forall p, G_steady view (m p).

(** What the engine is given and does not change: the tables of the
    program, the read-only limit, the globals, and the operation count,
    which only the driver raises. *)
Definition program_view (s : State) :=
  (structures_fields s, structures_fields_indexes s, functions_infos s,
   read_only_strings_adress s, read_write_stack_limit s, global_variables s,
   nb_elementary_operations s).

(** The same without the operation count: what loading leaves to the run. *)
Definition loaded_program (s : State) :=
  (structures_fields s, structures_fields_indexes s, functions_infos s,
   read_only_strings_adress s, read_write_stack_limit s, global_variables s).

(** The frames [l'] are the frames [l], with names added to the last
    frame at most. *)
Definition frames_extended (l l' : list (list string)) : Prop :=
  l' = l \/
  exists below top added, l = below ++ [top] /\ l' = below ++ [top ++ added].

(** A generator resumed with the frames it yielded with ends, when it
    returns, with frames that satisfy [P]; when [strict], so do the frames
    at each step that carries a value. *)
Fixpoint balanced {A} (strict : bool) (P : list (list string) -> Prop) (g : gen A)
  : Prop :=
  match g with
  | Return _ s => P (local_variables s)
  | Throw _ _ => True
  | Yield _ value _ s resume =>
      (strict = true -> value <> VNone -> P (local_variables s)) /\
      forall s', local_variables s' = local_variables s -> balanced strict P (resume s')
  | Starved => True
  end.

Definition G_balanced {A} (strict : bool) (m : G A) : Prop :=
  forall s, balanced strict (frames_extended (local_variables s)) (m s).

Definition E_balanced {A} (strict : bool) (m : E A) : Prop :=
  forall p, G_balanced strict (m p).

(** The read-only zone: its limit and what its cells read as. *)
Definition read_only_zone (s : State) : Z * list pyval :=
  (read_write_stack_limit s, map (cell s) (seqZ 1 (read_write_stack_limit s - 1))).

(** The state a run ends in, whether it returned or raised. *)
Definition final_state {A} (o : outcome A) : State :=
  match o with
  | Ok _ s => s
  | Raised _ s => s
  end.

(** The run stayed in the fragment of the language that is embedded: it
    did not stop on [OutsideModel]. *)
Definition inside_model {A} (o : outcome A) : Prop :=
  match o with
  | Raised (OutsideModel _) _ => False
  | _ => True
  end.

(** [n], [n + 1], ..., [n + k - 1]. *)
Definition counts_from (n : Z) (k : nat) : list Z :=
  map (fun i => n + Z.of_nat i) (seq 0 k).

(** Predicates on states that do not look at some of the attributes. *)
Definition ignores_structures (P : State -> Prop) : Prop :=
  (forall s v, P s -> P (set_structures_fields s v)) /\
  (forall s v, P s -> P (set_structures_fields_indexes s v)).

Definition ignores_functions (P : State -> Prop) : Prop :=
  forall s v, P s -> P (set_functions_infos s v).

Definition ignores_strings (P : State -> Prop) : Prop :=
  (forall s v, P s -> P (set_read_only_strings_adress s v)) /\
  (forall s v, P s -> P (set_read_write_stack_limit s v)).

Definition ignores_memory (P : State -> Prop) : Prop :=
  forall s v, P s -> P (set_memory s v).

Definition ignores_globals (P : State -> Prop) : Prop :=
  forall s v, P s -> P (set_global_variables s v).

(** The function table the declarations of a program describe, in the
    order of the declarations. *)
Definition declared_functions (ds : list decl) : list (string * function_info) :=
  flat_map (fun d => match d with
                     | fundecl function_name parameters blk p =>
                         [(function_name,
                           {| fi_parameters := parameters; fi_tree := blk;
                              fi_position := p |})]
                     | structdecl _ _ _ => []
                     end) ds.

(** The structure table the declarations of a program describe, in the
    order of the declarations. *)
Definition declared_structures (ds : list decl) : list (string * list string) :=
  flat_map (fun d => match d with
                     | structdecl structure_name fields _ => [(structure_name, fields)]
                     | fundecl _ _ _ _ => []
                     end) ds.

(** The names of the globals block, in order. *)
Definition declared_globals (tree : prog) : list string :=
  match globalsdecl tree with
  | Some gs => map ga_variable gs
  | None => []
  end.

(** [n] rounds of a loop that stops by itself, the budget in unary. *)
Fixpoint iterate {A R} (n : nat) (step : A -> M (A + R)) (a : A) : M (A + R) :=
  fun s =>
  match n with
  | O => Ok (inl a) s
  | S n' =>
      match step a s with
      | Ok (inl a') s' => iterate n' step a' s'
      | other => other
      end
  end.

(** The cells from [address] on hold the characters of [text], then NUL. *)
Definition holds_string (s : State) (address : Z) (text : list ascii) : Prop :=
  (forall i c, text !! i = Some c ->
               memory s !! (address + Z.of_nat i) = Some (VInt (ord c))) /\
  memory s !! (address + len text) = Some (VInt 0).

(** The number of backslashes a text ends with: when it is odd, the last
    one opens an escape, the ones before it being escaped in pairs. *)
Fixpoint leading_backslashes (text : list ascii) : nat :=
  match text with
  | c :: text' => if Ascii.eqb c "\" then S (leading_backslashes text') else O
  | [] => O
  end.

Definition trailing_backslashes (text : list ascii) : nat :=
  leading_backslashes (rev text).

(** The value of [check_escape] once the loop of the check of the
    characters has gone over [text] without returning. *)
Fixpoint escape_open (check_escape : bool) (text : list ascii) : bool :=
  match text with
  | [] => check_escape
  | c :: text' => escape_open (negb check_escape && Ascii.eqb c "\") text'
  end.

(** Predicates on states that a write at or above the read-only limit
    keeps. *)
Definition ignores_writes (P : State -> Prop) : Prop :=
  forall s address value,
    read_write_stack_limit s <= address -> P s ->
    P (set_memory s (<[address := value]> (memory s))).

(** Every string of the table of static strings lies, decoded and closed
    by NUL, in the cells below the read-only limit. *)
Definition static_strings_stored (s : State) : Prop :=
  1 <= read_write_stack_limit s /\
  forall text address,
    dict_get (read_only_strings_adress s) text = Some address ->
    exists decoded,
      unicode_escape (list_ascii_of_string text) = inr decoded /\
      1 <= address /\ address + len decoded < read_write_stack_limit s /\
      holds_string s address decoded.

(** The free words between a block and [top], the start of what lies
    above it. *)
Definition gap_above (b : Z * Z) (top : Z) : Z := top - (fst b + snd b).

(** The free words above each block of the heap list: up to the block
    before it, or to [top] for the first. *)
Fixpoint gaps (top : Z) (heap : list (Z * Z)) : list Z :=
  match heap with
  | [] => []
  | b :: heap' => gap_above b top :: gaps (fst b) heap'
  end.

(** The stack top as [_check_memory_limit_exceeded] computes it: the
    read-only limit plus all live locals, the globals left out. *)
Definition checked_stack_top (s : State) : Z :=
  read_write_stack_limit s + sum_len (local_variables s).

(** What the allocator and the room checks maintain. *)
Definition allocator_invariant (s : State) : Prop :=
  heap_sorted MEMORY_SIZE (memory_heap s) /\
  Forall (fun b => checked_stack_top s < fst b) (memory_heap s).

End invariants.
Export invariants.
(* ===================================================================== *)
(** ** Properties of the value codec *)
(* ===================================================================== *)

Section codec.

Local Ltac unfold_bits :=
  change (INT_NB_BITS - 1) with 31 in *; change INT_NB_BITS with 32 in *;
  change CHAR_NB_BITS with 7 in *.

Lemma overflow_down_exit (x : Z) :
  overflow_down (Z.to_nat (x / 2 ^ INT_NB_BITS + 1)) x < 2 ^ (INT_NB_BITS - 1).
Proof.
  assert (G : forall n y, y < Z.of_nat n * 2 ^ 32 -> overflow_down n y < 2 ^ 31).
  { induction n as [|n IH]; intros y Hy; simpl.
    - lia.
    - unfold_bits. destruct (Z.leb_spec (2 ^ 31) y); [apply IH|]; lia. }
  unfold_bits. apply G.
  pose proof (Z.div_mod x (2 ^ 32) ltac:(lia)).
  pose proof (Z.mod_pos_bound x (2 ^ 32) ltac:(lia)).
  destruct (Z.le_gt_cases 0 (x / 2 ^ 32 + 1)) as [Hq|Hq].
  - rewrite Z2Nat.id by exact Hq. lia.
  - replace (Z.to_nat (x / 2 ^ 32 + 1)) with O by lia. simpl. nia.
Qed.

Lemma overflow_up_exit (x : Z) :
  - 2 ^ INT_NB_BITS <= overflow_up (Z.to_nat ((- x) / 2 ^ INT_NB_BITS + 1)) x.
Proof.
  assert (G : forall n y, - (Z.of_nat n + 1) * 2 ^ 32 <= y -> - 2 ^ 32 <= overflow_up n y).
  { induction n as [|n IH]; intros y Hy; simpl.
    - lia.
    - unfold_bits. destruct (Z.ltb_spec y (- 2 ^ 32)); [apply IH|]; lia. }
  unfold_bits. apply G.
  pose proof (Z.div_mod (- x) (2 ^ 32) ltac:(lia)).
  pose proof (Z.mod_pos_bound (- x) (2 ^ 32) ltac:(lia)).
  destruct (Z.le_gt_cases 0 ((- x) / 2 ^ 32 + 1)) as [Hq|Hq].
  - rewrite Z2Nat.id by exact Hq. lia.
  - replace (Z.to_nat ((- x) / 2 ^ 32 + 1)) with O by lia. simpl. nia.
Qed.

Lemma bin_to_int_range (w : Z) :
  0 <= w < 2 ^ 32 -> - 2 ^ 31 <= bin_to_int w < 2 ^ 31.
Proof.
  intros Hw. unfold bin_to_int. unfold_bits.
  destruct (Z.ltb_spec w (2 ^ 31)); lia.
Qed.

(** C9. For every 32-bit word [w], encoding the signed integer that [w]
    decodes to gives [w] back, with the overflow flag off. *)
Theorem int_to_bin_bin_to_int (w : Z) :
  0 <= w < 2 ^ 32 -> int_to_bin (bin_to_int w) false = w.
Proof.
  intros Hw. unfold int_to_bin, bin_to_int. unfold_bits.
  destruct (Z.ltb_spec w (2 ^ 31)) as [Hlt|Hge].
  - destruct (Z.ltb_spec w 0); lia.
  - destruct (Z.ltb_spec (w - 2 ^ 32) 0); lia.
Qed.

Lemma int_to_bin_bin_to_int_witness :
  0 <= 4294967295 < 2 ^ 32 /\ int_to_bin (bin_to_int 4294967295) false = 4294967295.
Proof.
  split; [lia | apply (int_to_bin_bin_to_int 4294967295); lia].
Defined.

(** When decoding a word as a character succeeds. *)
Lemma bin_to_char_succeeds (w : Z) (p : position) :
  (0 <= w <= 128 -> bin_to_char w p = inr (ascii_of_N (Z.to_N w))) /\
  (128 < w -> bin_to_char w p = inl (Exec (WrongCharacterCodeError p w))).
Proof.
  unfold bin_to_char, chr. unfold_bits.
  destruct (Z.leb_spec w (2 ^ 7)), (Z.ltb_spec w 0);
    split; intros; (reflexivity || lia).
Qed.

(** C6. The word 128 is above 127, and decoding it as a character does not
    fail: it returns the character of ordinal 128. *)
Theorem bin_to_char_128 (p : position) :
  bin_to_char 128 p = inr (ascii_of_N 128) /\
  bin_to_char 128 p <> inl (Exec (WrongCharacterCodeError p 128)).
Proof.
  split; [reflexivity | discriminate].
Qed.

End codec.

(* ===================================================================== *)
(** ** Properties of the memory manager *)
(* ===================================================================== *)

Section memory.

Lemma address_in_range (address : Z) :
  1 <= address < 2 ^ 24 ->
  (address <=? 0) || (MEMORY_SIZE <=? address) = false.
Proof.
  intros H. change MEMORY_SIZE with (2 ^ 24).
  destruct (Z.leb_spec address 0), (Z.leb_spec (2 ^ 24) address); simpl; lia.
Qed.

(** A read in range returns the content of the cell and changes no cell. *)
Lemma get_memory_in_range (address : Z) (p : position) (s : State) :
  1 <= address < 2 ^ 24 ->
  exists s', _get_memory address p s = Ok (cell s address) s' /\
             forall b, cell s' b = cell s b.
Proof.
  intros H. unfold _get_memory, cell. rewrite (address_in_range _ H).
  destruct (memory s !! address) as [w|] eqn:E.
  - exists s. split; [reflexivity | reflexivity].
  - eexists. split; [reflexivity|]. intros b. simpl.
    destruct (decide (address = b)) as [->|Hne].
    + rewrite lookup_insert_eq, E. reflexivity.
    + rewrite lookup_insert_ne by exact Hne. reflexivity.
Qed.

Lemma get_memory_cell (address : Z) (p : position) (s s' : State) (w : pyval) :
  _get_memory address p s = Ok w s' -> forall b, cell s' b = cell s b.
Proof.
  unfold _get_memory, cell.
  destruct ((address <=? 0) || (MEMORY_SIZE <=? address)); [discriminate|].
  destruct (memory s !! address) as [w0|] eqn:E; intros [= <- <-] b.
  - reflexivity.
  - simpl. destruct (decide (address = b)) as [->|Hne].
    + rewrite lookup_insert_eq, E. reflexivity.
    + rewrite lookup_insert_ne by exact Hne. reflexivity.
Qed.

Lemma set_memory_cell (address : Z) (value : pyval) (p : position) (s s' : State) :
  _set_memory address value p s = Ok tt s' ->
  forall b, cell s' b = if address =? b then value else cell s b.
Proof.
  unfold _set_memory, cell.
  destruct ((address <=? 0) || (MEMORY_SIZE <=? address)); [discriminate|].
  destruct (address <? read_write_stack_limit s); [discriminate|].
  intros [= <-] b. simpl.
  destruct (Z.eqb_spec address b) as [->|Hne].
  - rewrite lookup_insert_eq. reflexivity.
  - rewrite lookup_insert_ne by exact Hne. reflexivity.
Qed.

Lemma malloc_memory (size : Z) (p : position) (s s' : State) (a : Z) :
  _malloc size p s = Ok a s' -> memory s' = memory s.
Proof.
  unfold _malloc. destruct (size <=? 0); [discriminate|].
  destruct (malloc_choice size s) as [address index].
  destruct (negb _); intros [= _ <-]; reflexivity.
Qed.

Lemma free_memory (pointer : Z) (p : position) (s s' : State) :
  _free pointer p s = Ok tt s' -> memory s' = memory s.
Proof.
  unfold _free. destruct (free_scan _ _ _); [|discriminate].
  intros [= <-]. reflexivity.
Qed.

Lemma run_call_cell (c : memory_call) (s s' : State) :
  run_call c s = Ok tt s' ->
  forall b, cell s' b = last_written [c] b (cell s b).
Proof.
  destruct c as [size|pointer|address value|address|parameters|variable|]; simpl.
  - destruct (_malloc size nowhere s) as [a s1|] eqn:E; simpl; [|discriminate].
    intros [= <-] b. unfold cell. rewrite (malloc_memory _ _ _ _ _ E). reflexivity.
  - intros E b. unfold cell. rewrite (free_memory _ _ _ _ E). reflexivity.
  - intros E b. apply (set_memory_cell _ _ _ _ _ E).
  - destruct (_get_memory address nowhere s) as [w s1|] eqn:E; simpl; [|discriminate].
    intros [= <-] b. apply (get_memory_cell _ _ _ _ _ E).
  - unfold push_frame. destruct (negb _); [destruct (last_item _); discriminate|].
    intros [= <-] b. reflexivity.
  - unfold declare_local. destruct (last_item _); [|discriminate].
    destruct (negb _); [discriminate|]. intros [= <-] b. reflexivity.
  - unfold pop_frame. destruct (local_variables s); [discriminate|].
    intros [= <-] b. reflexivity.
Qed.

Lemma run_calls_cell (cs : list memory_call) :
  forall s s', run_calls cs s = Ok tt s' ->
  forall b, cell s' b = last_written cs b (cell s b).
Proof.
  induction cs as [|c cs IH]; intros s s' E b.
  - simpl in E. injection E as <-. reflexivity.
  - simpl in E. destruct (run_call c s) as [[] s1|] eqn:E1; simpl in E; [|discriminate].
    rewrite (IH _ _ E b), (run_call_cell _ _ _ E1 b).
    destruct c; reflexivity.
Qed.

(** C10. Let [s] be the state after any run of memory-manager calls from
    [s0] that raised nothing. Reading an address of [[1, 2^24)] succeeds and
    returns the word last written there during the run, or what the cell
    held before it (0 for a program that starts, as every cell is then
    absent); and after a FREE, whatever it frees, the read still succeeds
    with the same word. *)
Theorem read_returns_last_written
    (cs : list memory_call) (s0 s : State) (address : Z) (p : position) :
  run_calls cs s0 = Ok tt s ->
  1 <= address < 2 ^ 24 ->
  (exists s', _get_memory address p s
              = Ok (last_written cs address (cell s0 address)) s') /\
  (forall input, cell (fresh input) address = VInt 0) /\
  (forall pointer s1, _free pointer p s = Ok tt s1 ->
     exists s', _get_memory address p s1
                = Ok (last_written cs address (cell s0 address)) s').
Proof.
  intros Hrun Haddr. split; [|split].
  - destruct (get_memory_in_range address p s Haddr) as (s' & E & _).
    exists s'. rewrite E, (run_calls_cell _ _ _ Hrun). reflexivity.
  - intros input. reflexivity.
  - intros pointer s1 Hfree.
    destruct (get_memory_in_range address p s1 Haddr) as (s' & E & _).
    exists s'. rewrite E. unfold cell at 1.
    rewrite (free_memory _ _ _ _ Hfree).
    fold (cell s address). rewrite (run_calls_cell _ _ _ Hrun). reflexivity.
Qed.

(** C4. A request of size zero or less raises the malloc-size error and
    leaves the state as it was; a request of size one or more whose chosen
    block start fails the room check returns the NULL word, raises nothing
    and leaves the state, heap list included, as it was. *)
Theorem malloc_error_results (size : Z) (p : position) (s : State) :
  (size <= 0 -> _malloc size p s = Raised (Exec (MallocNegativeSizeError p)) s) /\
  (1 <= size ->
   _check_memory_limit_exceeded (Some (fst (malloc_choice size s))) s = false ->
   _malloc size p s = Ok 0 s).
Proof.
  unfold _malloc. split.
  - intros H. destruct (Z.leb_spec size 0); [reflexivity | lia].
  - intros H Hroom. destruct (Z.leb_spec size 0); [lia|].
    destruct (malloc_choice size s) as [address index]. simpl in Hroom.
    rewrite Hroom. reflexivity.
Qed.

End memory.

(* ===================================================================== *)
(** ** What the allocator maintains *)
(* ===================================================================== *)

Section allocator.

Lemma heap_sorted_weaken (heap : list (Z * Z)) (top top' : Z) :
  top <= top' -> heap_sorted top heap -> heap_sorted top' heap.
Proof.
  destruct heap as [|[a n] heap]; simpl; [tauto|].
  intros Hle (Hn & Ha & Hs). repeat split; [lia | lia | exact Hs].
Qed.

Lemma heap_sorted_below (heap : list (Z * Z)) (top : Z) :
  heap_sorted top heap -> Forall (fun b => fst b + snd b <= top) heap.
Proof.
  revert top. induction heap as [|[a n] heap IH]; intros top; simpl.
  - constructor.
  - intros (Hn & Ha & Hs). constructor; [simpl; lia|].
    eapply Forall_impl; [apply IH, Hs|]. intros [a' n']; simpl. lia.
Qed.

Lemma last_cons_default {A} (l : list A) (x d : A) :
  List.last (x :: l) d = List.last l x.
Proof.
  revert x d. induction l as [|y l IH]; intros x d; [reflexivity|].
  change (List.last (x :: y :: l) d) with (List.last (y :: l) d).
  rewrite (IH y d). symmetry. apply IH.
Qed.

Lemma last_item_cons {A} (l : list A) (x : A) :
  last_item (x :: l) = Some (List.last l x).
Proof.
  revert x. induction l as [|y l IH]; intros x; [reflexivity|].
  change (last_item (x :: y :: l)) with (last_item (y :: l)).
  rewrite IH, last_cons_default. reflexivity.
Qed.

(** The last block of a sorted heap list is the lowest. *)
Lemma heap_sorted_last (heap : list (Z * Z)) (top : Z) (first : Z * Z) :
  heap_sorted top (first :: heap) ->
  Forall (fun b => fst (List.last heap first) <= fst b) (first :: heap).
Proof.
  revert top first. induction heap as [|[a n] heap IH]; intros top [a0 n0] Hs.
  - constructor; [simpl; lia | constructor].
  - destruct Hs as (Hn0 & Ha0 & Hs). specialize (IH _ _ Hs).
    rewrite last_cons_default. constructor; [|exact IH].
    inversion IH as [|? ? H1 _]; subst. simpl in *. destruct Hs as (? & ? & _). lia.
Qed.

(** A block found by the scan fits strictly between its neighbours. *)
Lemma malloc_scan_sorted (size : Z) (heap : list (Z * Z)) :
  1 <= size ->
  forall top k address j,
    heap_sorted top heap ->
    malloc_scan heap k top size = Some (address, j) ->
    exists pos, j = (k + pos)%nat /\
                heap_sorted top (list_insert_at pos (address, size) heap).
Proof.
  intros Hsize. induction heap as [|[a n] heap IH]; intros top k address j Hs E.
  - discriminate E.
  - simpl in E. destruct Hs as (Hn & Ha & Hs).
    destruct (Z.ltb_spec (a + n + size) top) as [Hfit|Hno].
    + injection E as <- <-. exists O. split; [lia|].
      simpl. repeat split; try lia. exact Hs.
    + destruct (IH _ _ _ _ Hs E) as (pos & -> & Hins).
      exists (S pos). split; [lia|]. simpl. repeat split; try lia. exact Hins.
Qed.

Lemma heap_sorted_append (size : Z) (heap : list (Z * Z)) (first : Z * Z) (top : Z) :
  1 <= size ->
  heap_sorted top (first :: heap) ->
  heap_sorted top
    ((first :: heap) ++ [(fst (List.last heap first) - size, size)]).
Proof.
  intros Hsize. revert top first.
  induction heap as [|[a n] heap IH]; intros top [a0 n0] Hs.
  - simpl in *. repeat split; lia.
  - destruct Hs as (Hn0 & Ha0 & Hs). rewrite last_cons_default.
    rewrite <- app_comm_cons. split; [exact Hn0|]. split; [exact Ha0|]. apply IH, Hs.
Qed.

Lemma heap_sorted_delete (heap : list (Z * Z)) :
  forall top i, heap_sorted top heap -> heap_sorted top (list_delete_at i heap).
Proof.
  induction heap as [|[a n] heap IH]; intros top i Hs.
  - destruct i; exact Hs.
  - destruct Hs as (Hn & Ha & Hs). destruct i as [|i].
    + simpl. apply (heap_sorted_weaken _ a); [lia | exact Hs].
    + change (list_delete_at (S i) ((a, n) :: heap)) with ((a, n) :: list_delete_at i heap).
      repeat split; [exact Hn | exact Ha | apply IH, Hs].
Qed.

Lemma Forall_list_insert_at {A} (P : A -> Prop) (i : nat) (x : A) (l : list A) :
  P x -> Forall P l -> Forall P (list_insert_at i x l).
Proof.
  intros Hx Hl. unfold list_insert_at. apply Forall_app. split.
  - apply Forall_take, Hl.
  - constructor; [exact Hx | apply Forall_drop, Hl].
Qed.

Lemma Forall_list_delete_at {A} (P : A -> Prop) (i : nat) (l : list A) :
  Forall P l -> Forall P (list_delete_at i l).
Proof.
  intros Hl. unfold list_delete_at. apply Forall_app. split.
  - apply Forall_take, Hl.
  - apply Forall_drop, Hl.
Qed.

Lemma list_insert_at_end {A} (x : A) (l : list A) :
  list_insert_at (length l) x l = l ++ [x].
Proof.
  unfold list_insert_at. rewrite firstn_all, skipn_all. reflexivity.
Qed.

Lemma malloc_keeps_invariant (size : Z) (p : position) :
  keeps allocator_invariant (_malloc size p).
Proof.
  intros s a s' E [Hsorted Habove]. unfold _malloc in E.
  destruct (Z.leb_spec size 0) as [|Hsize]; [discriminate|].
  destruct (malloc_choice size s) as [address index] eqn:Ec.
  destruct (_check_memory_limit_exceeded (Some address) s) eqn:Eroom; simpl in E;
    injection E as _ <-; [|split; assumption].
  assert (Hroom : checked_stack_top s < address).
  { unfold _check_memory_limit_exceeded in Eroom. apply Z.ltb_lt in Eroom. exact Eroom. }
  unfold allocator_invariant, checked_stack_top in *. simpl.
  unfold malloc_choice in Ec.
  destruct (memory_heap s) as [|first heap] eqn:Eh.
  - injection Ec as <- <-. split.
    + simpl. repeat split; lia.
    + apply Forall_list_insert_at; [exact Hroom | constructor].
  - destruct (malloc_scan (first :: heap) 0 MEMORY_SIZE size) as [[a' j]|] eqn:Es.
    + injection Ec as <- <-.
      destruct (malloc_scan_sorted size _ ltac:(lia) _ _ _ _ Hsorted Es) as (pos & -> & Hins).
      split; [exact Hins | apply Forall_list_insert_at; assumption].
    + destruct (List.last heap first) as [reserved_address reserved_size] eqn:El.
      injection Ec as <- <-. split.
      * replace (list_insert_at _ _ _)
          with ((first :: heap) ++ [(reserved_address - size, size)])
          by (symmetry; apply (list_insert_at_end _ (first :: heap))).
        pose proof (heap_sorted_append size heap first MEMORY_SIZE ltac:(lia) Hsorted) as H.
        rewrite El in H. exact H.
      * apply Forall_list_insert_at; assumption.
Qed.

Lemma free_keeps_invariant (pointer : Z) (p : position) :
  keeps allocator_invariant (_free pointer p).
Proof.
  intros s a s' E [Hsorted Habove]. unfold _free in E.
  destruct (free_scan _ _ _) as [i|]; [|discriminate]. injection E as _ <-.
  split; simpl.
  - apply heap_sorted_delete, Hsorted.
  - apply Forall_list_delete_at, Habove.
Qed.

Lemma sum_len_app (ls ls' : list (list string)) :
  sum_len (ls ++ ls') = sum_len ls + sum_len ls'.
Proof.
  induction ls as [|l ls IH]; simpl; [reflexivity|].
  fold (sum_len (ls ++ ls')). fold (sum_len ls). lia.
Qed.

Lemma sum_len_nonneg (ls : list (list string)) : 0 <= sum_len ls.
Proof.
  induction ls as [|l ls IH]; simpl; [lia|]. fold (sum_len ls). unfold len. lia.
Qed.

Lemma but_last_last {A} (l : list A) (x : A) :
  last_item l = Some x -> l = but_last l ++ [x].
Proof.
  unfold last_item, but_last. induction l as [|y l IH]; [discriminate|].
  destruct l as [|z l].
  - intros [= ->]. reflexivity.
  - intros H. change (removelast (y :: z :: l)) with (y :: removelast (z :: l)).
    simpl. f_equal. apply IH. exact H.
Qed.

Lemma sum_len_but_last (ls : list (list string)) :
  sum_len (but_last ls) <= sum_len ls.
Proof.
  destruct (last_item ls) as [x|] eqn:E.
  - rewrite (but_last_last _ _ E) at 2. rewrite sum_len_app.
    pose proof (sum_len_nonneg [x]). lia.
  - destruct ls as [|y ls]; [simpl; lia|].
    exfalso. revert y E. unfold last_item.
    induction ls as [|z ls IH]; intros y E; [discriminate|]. apply (IH z). exact E.
Qed.

(** A room check passed with [address = None] puts the stack top below
    every block. *)
Lemma room_check_above (s : State) :
  heap_sorted MEMORY_SIZE (memory_heap s) ->
  _check_memory_limit_exceeded None s = true ->
  Forall (fun b => checked_stack_top s < fst b) (memory_heap s).
Proof.
  intros Hsorted Hroom. unfold _check_memory_limit_exceeded in Hroom.
  apply Z.ltb_lt in Hroom. fold (checked_stack_top s) in Hroom.
  destruct (memory_heap s) as [|first heap] eqn:Eh; [constructor|].
  rewrite last_item_cons in Hroom. destruct (List.last heap first) as [al nl] eqn:E.
  pose proof (heap_sorted_last heap MEMORY_SIZE first Hsorted) as Hlow.
  rewrite E in Hlow. eapply Forall_impl; [exact Hlow|].
  intros [a n]; simpl. lia.
Qed.

Lemma run_call_keeps_invariant (c : memory_call) :
  keeps allocator_invariant (run_call c).
Proof.
  destruct c as [size|pointer|address value|address|parameters|variable|];
    intros s a s' E Hinv; simpl in E.
  - destruct (_malloc size nowhere s) as [x s1|] eqn:E1; simpl in E; [|discriminate].
    injection E as _ <-. exact (malloc_keeps_invariant _ _ _ _ _ E1 Hinv).
  - exact (free_keeps_invariant _ _ _ _ _ E Hinv).
  - unfold _set_memory in E. destruct (_ || _); [discriminate|].
    destruct (_ <? _); [discriminate|]. injection E as _ <-. exact Hinv.
  - unfold _get_memory in E. destruct (_ || _); simpl in E; [discriminate|].
    destruct (memory s !! address); simpl in E; injection E as _ <-; exact Hinv.
  - unfold push_frame in E.
    destruct (_check_memory_limit_exceeded None _) eqn:Eroom; simpl in E;
      [|destruct (last_item parameters); discriminate].
    injection E as _ <-. destruct Hinv as [Hsorted _].
    split; [exact Hsorted | apply room_check_above; assumption].
  - unfold declare_local in E. destruct (last_item (local_variables s)); [|discriminate].
    destruct (_check_memory_limit_exceeded None _) eqn:Eroom; simpl in E; [|discriminate].
    injection E as _ <-. destruct Hinv as [Hsorted _].
    split; [exact Hsorted | apply room_check_above; assumption].
  - unfold pop_frame in E. destruct (local_variables s) eqn:El; [discriminate|].
    rewrite <- El in E. injection E as _ <-. destruct Hinv as [Hsorted Habove].
    split; [exact Hsorted|].
    change (memory_heap (set_local_variables s (but_last (local_variables s))))
      with (memory_heap s).
    eapply Forall_impl; [exact Habove|]. intros [a' n'].
    change (checked_stack_top (set_local_variables s (but_last (local_variables s))))
      with (read_write_stack_limit s + sum_len (but_last (local_variables s))).
    unfold checked_stack_top.
    pose proof (sum_len_but_last (local_variables s)). lia.
Qed.

Lemma run_calls_keep_invariant (cs : list memory_call) :
  keeps allocator_invariant (run_calls cs).
Proof.
  induction cs as [|c cs IH]; intros s a s' E Hinv; simpl in E.
  - injection E as _ <-. exact Hinv.
  - destruct (run_call c s) as [x s1|] eqn:E1; simpl in E; [|discriminate].
    exact (IH _ _ _ E (run_call_keeps_invariant _ _ _ _ E1 Hinv)).
Qed.

(** Two blocks of a sorted heap list share no address. *)
Lemma heap_sorted_disjoint (heap : list (Z * Z)) (top : Z) (i j : nat) (b1 b2 : Z * Z) :
  heap_sorted top heap -> (i < j)%nat ->
  heap !! i = Some b1 -> heap !! j = Some b2 ->
  fst b2 + snd b2 <= fst b1.
Proof.
  revert top i j. induction heap as [|[a n] heap IH]; intros top i j Hs Hij H1 H2.
  - discriminate H1.
  - destruct Hs as (Hn & Ha & Hs). destruct j as [|j]; [lia|].
    simpl in H2. destruct i as [|i].
    + injection H1 as <-. simpl.
      pose proof (heap_sorted_below _ _ Hs) as Hb.
      rewrite Forall_forall in Hb. apply (Hb b2).
      eapply list_elem_of_lookup_2. exact H2.
    + simpl in H1. apply (IH a i j Hs); [lia | assumption | assumption].
Qed.

Lemma last_stack_address_split (s : State) :
  last_stack_address s = checked_stack_top s + len (global_variables s) - 1.
Proof. unfold last_stack_address, checked_stack_top. lia. Qed.

(** What the scan settles on: the first block, from the top, with strictly
    more than [size] free words above it; the new block starts right above
    that block. *)
Lemma malloc_scan_found (size : Z) (heap : list (Z * Z)) :
  forall top k address j,
    malloc_scan heap k top size = Some (address, j) ->
    exists pos below free,
      j = (k + pos)%nat /\ heap !! pos = Some below /\
      address = fst below + snd below /\
      gaps top heap !! pos = Some free /\ size < free /\
      Forall (fun free => free <= size) (firstn pos (gaps top heap)).
Proof.
  induction heap as [|[a n] heap IH]; intros top k address j E; [discriminate E|].
  simpl in E. destruct (Z.ltb_spec (a + n + size) top) as [Hfit|Hno].
  - injection E as <- <-. exists O, (a, n), (gap_above (a, n) top).
    repeat split; try reflexivity; try lia.
    + unfold gap_above. simpl. lia.
    + constructor.
  - destruct (IH _ _ _ _ E) as (pos & below & free & -> & Hl & -> & Hg & Hfree & Hbefore).
    exists (S pos), below, free. split; [lia|]. split; [exact Hl|]. split; [reflexivity|].
    split; [exact Hg|]. split; [exact Hfree|].
    simpl. constructor; [unfold gap_above; simpl; lia | exact Hbefore].
Qed.

(** When the scan finds nothing, no block has more than [size] free words
    above it. *)
Lemma malloc_scan_not_found (size : Z) (heap : list (Z * Z)) :
  forall top k,
    malloc_scan heap k top size = None ->
    Forall (fun free => free <= size) (gaps top heap).
Proof.
  induction heap as [|[a n] heap IH]; intros top k E; [constructor|].
  simpl in E. destruct (Z.ltb_spec (a + n + size) top) as [Hfit|Hno]; [discriminate|].
  simpl. constructor; [unfold gap_above; simpl; lia | apply (IH _ _ E)].
Qed.

(** The allocator invariant of the specification, in the form the code
    keeps it: after any run of allocations, frees, writes, reads and
    checked stack moves that starts with an empty heap list and raises
    nothing, the blocks are pairwise disjoint and every allocated address
    is below [2^24] and strictly above the stack top the room check
    computes, which counts the locals and not the globals; it is above the
    last occupied stack word when no more than one global is declared. *)
Lemma allocator_invariant_reachable (cs : list memory_call) (s0 s : State) :
  memory_heap s0 = [] ->
  run_calls cs s0 = Ok tt s ->
  (forall i j b1 b2 address,
     i <> j -> memory_heap s !! i = Some b1 -> memory_heap s !! j = Some b2 ->
     in_block b1 address -> ~ in_block b2 address) /\
  (forall b address,
     In b (memory_heap s) -> in_block b address ->
     checked_stack_top s < address < 2 ^ 24 /\
     (len (global_variables s) <= 1 -> last_stack_address s < address)).
Proof.
  intros Hempty E.
  assert (Hinv : allocator_invariant s).
  { apply (run_calls_keep_invariant cs _ _ _ E).
    unfold allocator_invariant. rewrite Hempty. split; [exact I | constructor]. }
  destruct Hinv as [Hsorted Habove]. split.
  - intros i j b1 b2 address Hij H1 H2 [Hlo1 Hhi1] [Hlo2 Hhi2].
    destruct (Nat.lt_total i j) as [Hlt|[Heq|Hgt]]; [|contradiction|].
    + pose proof (heap_sorted_disjoint _ _ _ _ _ _ Hsorted Hlt H1 H2). lia.
    + pose proof (heap_sorted_disjoint _ _ _ _ _ _ Hsorted Hgt H2 H1). lia.
  - intros b address Hin [Hlo Hhi].
    apply list_elem_of_In in Hin.
    rewrite Forall_forall in Habove. specialize (Habove b Hin).
    pose proof (heap_sorted_below _ _ Hsorted) as Hb.
    rewrite Forall_forall in Hb. specialize (Hb b Hin).
    change MEMORY_SIZE with (2 ^ 24) in Hb.
    rewrite last_stack_address_split. lia.
Qed.

End allocator.

(* ===================================================================== *)
(** ** Properties of program loading *)
(* ===================================================================== *)

Section loading.

Local Open Scope method_scope.

Lemma keeps_ret {A} (P : State -> Prop) (a : A) : keeps P (ret a).
Proof. intros s a' s' [= _ <-] H. exact H. Qed.

Lemma keeps_raise {A} (P : State -> Prop) (e : exn) : keeps P (@raise A e).
Proof. intros s a s' E. discriminate E. Qed.

Lemma keeps_lift {A} (P : State -> Prop) (r : exn + A) : keeps P (lift r).
Proof. intros s a s' E H. destruct r; simpl in E; [discriminate|]. injection E as _ <-. exact H. Qed.

Lemma keeps_get_state (P : State -> Prop) : keeps P get_state.
Proof. intros s a s' [= _ <-] H. exact H. Qed.

Lemma keeps_modify (P : State -> Prop) (f : State -> State) :
  (forall s, P s -> P (f s)) -> keeps P (modify f).
Proof. intros Hf s a s' [= _ <-] H. apply Hf, H. Qed.

Lemma keeps_and_then {A B} (P : State -> Prop) (m : M A) (f : A -> M B) :
  keeps P m -> (forall a, keeps P (f a)) -> keeps P (and_then m f).
Proof.
  intros Hm Hf s b s' E H. unfold and_then in E.
  destruct (m s) as [a s1|] eqn:E1; simpl in E; [|discriminate].
  exact (Hf a _ _ _ E (Hm _ _ _ E1 H)).
Qed.

Lemma keeps_for_each {A} (P : State -> Prop) (l : list A) (body : A -> M unit) :
  (forall x, keeps P (body x)) -> keeps P (for_each l body).
Proof.
  intros Hb. induction l as [|x l IH]; simpl.
  - apply keeps_ret.
  - apply keeps_and_then; [apply Hb | intros _; exact IH].
Qed.

Lemma keeps_for_enumerate {A} (P : State -> Prop) (l : list A) (body : Z -> A -> list A -> M unit) :
  (forall i x rest, keeps P (body i x rest)) -> forall i, keeps P (for_enumerate i l body).
Proof.
  intros Hb. induction l as [|x l IH]; intros i; simpl.
  - apply keeps_ret.
  - apply keeps_and_then; [apply Hb | intros _; apply IH].
Qed.

(** The methods that leave [functions_infos] alone. *)
Lemma keeps_set_memory (P : State -> Prop) address value p :
  (forall s m, P s -> P (set_memory s m)) -> keeps P (_set_memory address value p).
Proof.
  intros HP s a s' E H. unfold _set_memory in E.
  destruct (_ || _); [discriminate|].
  destruct (_ <? _); [discriminate|]. injection E as _ <-. apply HP, H.
Qed.

Lemma keeps_get_variable_address (P : State -> Prop) variable p :
  keeps P (_get_variable_address variable p).
Proof.
  intros s a s' E H. unfold _get_variable_address in E.
  destruct (list_index _ (global_variables s)).
  - injection E as _ <-. exact H.
  - destruct (last_item _); [|discriminate].
    destruct (list_index _ _); [|discriminate]. injection E as _ <-. exact H.
Qed.

Local Ltac keeps_step :=
  first
    [ apply keeps_ret | apply keeps_raise | apply keeps_lift | apply keeps_get_state
    | apply keeps_get_variable_address
    | apply keeps_set_memory; intros; assumption
    | apply keeps_modify; intros; assumption
    | apply keeps_and_then; [|intros ?]
    | apply keeps_for_each; intros ?
    | apply keeps_for_enumerate; intros ? ? ? ].

Lemma read_structure_keeps name fields p :
  keeps no_main_registered (_read_structure name fields p).
Proof.
  unfold _read_structure.
  apply keeps_and_then; [apply keeps_get_state|]. intros s0.
  destruct (dict_in _ _); [apply keeps_raise|].
  repeat keeps_step.
  destruct (list_in _ _); [apply keeps_raise|].
  apply keeps_and_then; [apply keeps_get_state|]. intros s1.
  apply keeps_and_then; [|intros _; apply keeps_modify; intros; assumption].
  destruct (dict_in _ _); [|apply keeps_ret].
  apply keeps_for_each. intros [other_name other_fields].
  destruct (String.eqb _ _); [apply keeps_ret|].
  destruct (list_in _ _); [apply keeps_raise | apply keeps_ret].
Qed.

Lemma dict_get_set_other {V} (d : list (string * V)) (k k' : string) (v : V) :
  String.eqb k k' = false -> dict_get (dict_set d k v) k' = dict_get d k'.
Proof.
  intros Hne. induction d as [|[k0 v0] d IH]; simpl.
  - rewrite Hne. reflexivity.
  - destruct (String.eqb k0 k) eqn:E0; simpl.
    + apply String.eqb_eq in E0. subst k0. rewrite Hne. reflexivity.
    + destruct (String.eqb k0 k'); [reflexivity | exact IH].
Qed.

Lemma read_function_keeps name parameters blk p :
  String.eqb name "main" = false ->
  keeps no_main_registered (_read_function name parameters blk p).
Proof.
  intros Hname. unfold _read_function.
  apply keeps_and_then; [apply keeps_get_state|]. intros s0.
  destruct (dict_in _ _); [apply keeps_raise|].
  apply keeps_and_then.
  - apply keeps_for_enumerate. intros i x rest.
    destruct (list_in _ _); [apply keeps_raise | apply keeps_ret].
  - intros _. apply keeps_modify. intros s H. unfold no_main_registered in *. simpl.
    rewrite dict_get_set_other by exact Hname. exact H.
Qed.

Lemma read_structs_and_functions_keeps tree :
  declares_main tree = false ->
  keeps no_main_registered (_read_structs_and_functions tree).
Proof.
  unfold declares_main, _read_structs_and_functions.
  induction (decls tree) as [|d ds IH]; simpl; intros Hmain.
  - apply keeps_ret.
  - apply orb_false_iff in Hmain as [Hd Hds].
    apply keeps_and_then; [|intros _; apply IH, Hds].
    destruct d as [name fields p|name parameters blk p].
    + apply read_structure_keeps.
    + apply read_function_keeps, Hd.
Qed.

Lemma set_string_to_address_keeps text address p :
  keeps no_main_registered (_set_string_to_address text address p).
Proof. unfold _set_string_to_address. repeat keeps_step. Qed.

Lemma search_for_static_strings_keeps tree :
  keeps no_main_registered (_search_for_static_strings tree).
Proof.
  unfold _search_for_static_strings. apply keeps_for_each. intros [lit p].
  destruct lit; try apply keeps_ret.
  unfold register_static_string.
  apply keeps_and_then; [apply keeps_get_state|]. intros s0.
  destruct (dict_in _ _); [apply keeps_ret|].
  apply keeps_and_then; [apply keeps_modify; intros; assumption|]. intros _.
  destruct (check_is_string_is_ascii_printable_with_escape _).
  - repeat keeps_step.
  - apply keeps_and_then; [apply keeps_lift|]. intros decoded.
    apply keeps_and_then; [apply keeps_get_state|]. intros s1.
    apply keeps_and_then; [apply set_string_to_address_keeps|]. intros _.
    apply keeps_modify; intros; assumption.
Qed.

Lemma search_int_char_float_errors_keeps tree :
  keeps no_main_registered (_search_int_char_float_errors tree).
Proof.
  unfold _search_int_char_float_errors. apply keeps_for_each. intros [lit p].
  destruct lit; try apply keeps_ret.
  - destruct (_ && _); [apply keeps_ret | apply keeps_raise].
  - destruct (check_is_string_is_ascii_printable_with_escape _); repeat keeps_step.
Qed.

Lemma literal_value_keeps lit p code :
  keeps no_main_registered (literal_value lit p code).
Proof.
  destruct lit; simpl; repeat keeps_step.
  - destruct (literal_to_bin _); [apply keeps_ret | apply keeps_raise].
  - destruct (dict_get _ _); [apply keeps_ret | apply keeps_raise].
  - destruct (literal_to_bin _); [apply keeps_ret | apply keeps_raise].
Qed.

Lemma declare_globals_keeps tree :
  keeps no_main_registered (_declare_globals tree).
Proof.
  unfold _declare_globals. destruct (globalsdecl tree); [|apply keeps_ret].
  apply keeps_for_each. intros g.
  apply keeps_and_then; [apply keeps_get_state|]. intros s0.
  destruct (list_in _ _); [apply keeps_raise|].
  apply keeps_and_then.
  { apply keeps_for_each. intros [function_name info].
    destruct (list_in _ _); [apply keeps_raise | apply keeps_ret]. }
  intros _. apply keeps_and_then; [apply keeps_modify; intros; assumption|]. intros _.
  apply keeps_and_then; [apply literal_value_keeps|]. intros value.
  apply keeps_and_then; [apply keeps_get_variable_address|]. intros address.
  apply keeps_set_memory; intros; assumption.
Qed.

Lemma load_before_main_check_keeps tree :
  declares_main tree = false ->
  keeps no_main_registered (load_before_main_check tree).
Proof.
  intros Hmain. unfold load_before_main_check.
  apply keeps_and_then; [apply read_structs_and_functions_keeps, Hmain|]. intros _.
  apply keeps_and_then; [apply search_for_static_strings_keeps|]. intros _.
  apply keeps_and_then; [apply search_int_char_float_errors_keeps|]. intros _.
  apply declare_globals_keeps.
Qed.

(** C7, as the code has it. The search for [main] is the last step of
    loading, after the global initialisers are evaluated and the global
    names checked. For a program that declares no [main]: when the four
    earlier steps raise nothing, loading fails with the missing-main error;
    when one of them raises, loading fails with that error. *)
Theorem main_is_checked_last (tree : prog) (input : list string) :
  declares_main tree = false ->
  match load_before_main_check tree (fresh input) with
  | Ok _ s => SynCProgram tree (fresh input) = Raised (Exec NoMainFunctionError) s
  | Raised e s => SynCProgram tree (fresh input) = Raised e s
  end.
Proof.
  intros Hmain. unfold SynCProgram, and_then.
  destruct (load_before_main_check tree (fresh input)) as [[] s|e s] eqn:E; simpl.
  - pose proof (load_before_main_check_keeps tree Hmain _ _ _ E eq_refl) as Hs.
    unfold _check_main_function, and_then, get_state. simpl.
    unfold no_main_registered in Hs. rewrite Hs. reflexivity.
  - reflexivity.
Qed.

Lemma main_is_checked_last_witness :
  declares_main no_main = false /\
  exists s, SynCProgram no_main (fresh []) = Raised (Exec NoMainFunctionError) s.
Proof.
  split; [reflexivity|].
  pose proof (main_is_checked_last no_main [] eq_refl) as H.
  destruct (load_before_main_check no_main (fresh [])) as [[] s|e s] eqn:E.
  - exists s. exact H.
  - vm_compute in E. discriminate E.
Defined.

(** C7, as stated, fails: this program has no [main] and declares the
    global [x] twice, and loading it fails with the duplicate-global
    error. *)
Lemma missing_main_is_not_reported_first :
  declares_main no_main_twice_global = false /\
  (exists s, SynCProgram no_main_twice_global (fresh [])
             = Raised (Exec (SameGlobalVariableNameError (Some 1, Some 17) "x")) s) /\
  ~ (exists s, SynCProgram no_main_twice_global (fresh [])
               = Raised (Exec NoMainFunctionError) s).
Proof.
  split; [reflexivity|]. split.
  - eexists. vm_compute. reflexivity.
  - intros [s E]. vm_compute in E. discriminate E.
Qed.

End loading.

(* ===================================================================== *)
(** ** Runs of the execution engine *)
(* ===================================================================== *)

Section runs.

(** Every elementary step the driver is handed raises the operation count
    by one before the driver sees it; a step that is not elementary leaves
    the count alone and is not handed on. *)
Lemma count_elementary_step (elementary : bool) (value : pyval) (p : position)
    (s : State) (resume : State -> gen unit) :
  count_elementary (Yield elementary value p s resume)
  = if elementary
    then Yield true VNone p
           (set_nb_elementary_operations s (nb_elementary_operations s + 1))
           (fun s' => count_elementary (resume s'))
    else count_elementary (resume s).
Proof. reflexivity. Qed.

(** C8, as the code has it. Scenario C runs to completion and prints
    exactly "012": the loop is left at [i = 3], before 3 is printed. The
    driver is handed 22 elementary steps and the operation count it reads
    at them is 1, 2, ..., 22, one more at each step. The steps of the FOR
    itself carry the position of the last step the FOR has passed on: the
    first assignment and the first guard test (counts 1 and 2) that of the
    bound 5, column 25, and the two steps of each increment and the guard
    test that follows them (counts 6 to 8, 12 to 14 and 18 to 20) that of
    the step of PRINT, column 61; the count strictly increases at each of
    them. The steps at column 36 are the comparison and the test of the
    IF. *)
Theorem scenario_C_prints_012 :
  exists s0 s,
    SynCProgram scenario_C (fresh []) = Ok tt s0 /\
    execute_program 50 scenario_C [] = Some (Ok tt s) /\
    stdout s = "012"%string /\
    nb_elementary_operations s = 22 /\
    map snd (steps_seen (main_function_iterator 50 s0)) = map Z.of_nat (seq 1 22) /\
    steps_seen (main_function_iterator 50 s0)
    = [(at_ 1 25, 1); (at_ 1 25, 2);
       (at_ 1 36, 3); (at_ 1 36, 4); (at_ 1 61, 5);
       (at_ 1 61, 6); (at_ 1 61, 7); (at_ 1 61, 8);
       (at_ 1 36, 9); (at_ 1 36, 10); (at_ 1 61, 11);
       (at_ 1 61, 12); (at_ 1 61, 13); (at_ 1 61, 14);
       (at_ 1 36, 15); (at_ 1 36, 16); (at_ 1 61, 17);
       (at_ 1 61, 18); (at_ 1 61, 19); (at_ 1 61, 20);
       (at_ 1 36, 21); (at_ 1 36, 22)].
Proof.
  eexists. eexists.
  split; [vm_compute; reflexivity|].
  split; [vm_compute; reflexivity|].
  repeat split; vm_compute; reflexivity.
Qed.

(** C8, as stated, fails: the run of scenario C completes and what it has
    printed is not "0123". *)
Lemma scenario_C_does_not_print_0123 :
  exists s, execute_program 50 scenario_C [] = Some (Ok tt s) /\
            stdout s <> "0123"%string.
Proof.
  eexists. split; [vm_compute; reflexivity|]. discriminate.
Qed.

(** The value a consumer of the form [if value is not None: binary_value =
    value] ends with is the last value other than [None] its generator
    yields. So a call of a declared function, which starts from
    [int_to_bin(0)], evaluates to zero only when the body passes on no
    value at all. *)
Lemma forward_value_result (g : gen unit) :
  forall binary_value,
    exhaust (forward_value g binary_value)
    = match exhaust g with
      | Some (Ok _ s) => Some (Ok (last_value (values_yielded g) binary_value) s)
      | Some (Raised e s) => Some (Raised e s)
      | None => None
      end.
Proof.
  induction g as [[] s|e s|elementary value p s resume IH|]; intros binary_value;
    try reflexivity.
  simpl. rewrite IH. destruct (exhaust (resume s)) as [[a s'|e s']|]; reflexivity.
Qed.

(** C1 fails on the code: [f] has the body [g()], a bare call, and no
    RETURN; the call [f()] evaluates to 5, the result of [g], and the
    program prints 5. A body of assignments only gives 0. *)
Theorem bare_call_value_becomes_result :
  (exists s0 s,
     SynCProgram bare_call (fresh []) = Ok tt s0 /\
     exhaust (value_of (execute_node 50 (call "f" [] (at_ 3 29)))
                (set_local_variables s0 [[]]))
     = Some (Ok (VInt 5) s)) /\
  (exists s, execute_program 50 bare_call [] = Some (Ok tt s) /\ stdout s = "5"%string) /\
  (exists s, execute_program 50 no_return [] = Some (Ok tt s) /\ stdout s = "0"%string).
Proof.
  split; [|split].
  - eexists. eexists. split; [vm_compute; reflexivity|]. vm_compute. reflexivity.
  - eexists. split; [vm_compute; reflexivity|]. reflexivity.
  - eexists. split; [vm_compute; reflexivity|]. reflexivity.
Qed.

(** C2 fails on the code: with two globals declared, MALLOC(16777214, 7)
    raises nothing and returns the block that starts at address 2, the
    address of the global [b], the last occupied stack word; the
    initialiser 7 lands in [b]. *)
Theorem malloc_block_covers_global :
  exists s,
    execute_program 50 two_globals [] = Some (Ok tt s) /\
    memory_heap s = [(2, 16777214)] /\
    _get_variable_address "b" nowhere s = Ok 2 s /\
    last_stack_address s = 2 /\
    in_block (2, 16777214) (last_stack_address s) /\
    stdout s = "7"%string.
Proof.
  eexists. split; [vm_compute; reflexivity|].
  split; [reflexivity|]. split; [reflexivity|]. split; [reflexivity|].
  split; [|reflexivity]. vm_compute. split; [discriminate | reflexivity].
Qed.

(** C3 fails on the code: after MALLOC(1), MALLOC(2), MALLOC(1) and the
    FREE of the middle block, the heap list is [(16777215, 1);
    (16777212, 1)] with a gap of exactly two free words at 16777213; the
    next MALLOC(2) does not use it and returns 16777210, below the lowest
    block. *)
Theorem malloc_skips_gap_of_exact_size :
  (exists s,
     run_calls [do_push_frame []; do_malloc 1; do_malloc 2; do_malloc 1; do_free 16777213]
       (fresh []) = Ok tt s /\
     memory_heap s = [(16777215, 1); (16777212, 1)] /\
     malloc_scan (memory_heap s) 0 MEMORY_SIZE 2 = None /\
     exists s', _malloc 2 nowhere s = Ok 16777210 s' /\
                memory_heap s' = [(16777215, 1); (16777212, 1); (16777210, 2)]) /\
  (exists s, execute_program 50 exact_gap [] = Some (Ok tt s) /\
             stdout s = "16777210"%string).
Proof.
  split.
  - eexists. split; [vm_compute; reflexivity|].
    split; [reflexivity|]. split; [reflexivity|].
    eexists. split; [vm_compute; reflexivity|]. reflexivity.
  - eexists. split; [vm_compute; reflexivity|]. reflexivity.
Qed.

(** C5 fails on the code: READ pops every character of the buffer. With a
    line of 33 binary digits it takes all 33, returns [2^33 - 1], which is
    no 32-bit word, and leaves nothing for the next READ; with a line of 64
    digits the program that reads twice prints one 64-digit number and its
    second READ finds the input at its end. *)
Theorem READ_takes_every_digit :
  (exists s, READ (fresh [ones 33]) = Ok (VInt (2 ^ 33 - 1)) s /\
             input_buffer s = [] /\ stdin s = []) /\
  (exists s, execute_program 50 read_twice [ones 64] = Some (Raised EOFError s) /\
             stdout s = "18446744069414584319 "%string).
Proof.
  split.
  - eexists. split; [vm_compute; reflexivity|]. split; reflexivity.
  - eexists. split; [vm_compute; reflexivity|]. reflexivity.
Qed.

Lemma drain_filter (buffer bin : list ascii) :
  drain buffer bin = bin ++ List.filter is_binary_digit buffer.
Proof.
  revert bin. induction buffer as [|c buffer IH]; intros bin; simpl.
  - rewrite app_nil_r. reflexivity.
  - rewrite IH. destruct (is_binary_digit c); [|reflexivity].
    rewrite <- app_assoc. reflexivity.
Qed.

(** READ asks for no line once the buffer has given it 32 digits. *)
Lemma read_bits_enough (lines : list string) (bin : list ascii) (s : State) :
  (len (drain (input_buffer s) bin) <? MAX_NB_BITS) = false ->
  read_bits lines bin s = Ok (drain (input_buffer s) bin) (set_input_buffer s []).
Proof.
  intros H. destruct lines; simpl; rewrite H; reflexivity.
Qed.

(** With an empty buffer and a next line that holds exactly 32 binary
    digits, as the lines the referee sends do, READ takes that line, drops
    its other characters and returns the integer the 32 digits spell. *)
Lemma READ_line_of_32_digits (s : State) (line : string) (rest : list string) :
  input_buffer s = [] ->
  stdin s = line :: rest ->
  length (List.filter is_binary_digit (list_ascii_of_string line)) = 32%nat ->
  exists word s',
    int_base2 (List.filter is_binary_digit (list_ascii_of_string line)) = inr word /\
    READ s = Ok (VInt word) s' /\
    input_buffer s' = [] /\ stdin s' = rest.
Proof.
  intros Hbuffer Hstdin Hdigits.
  set (digits := List.filter is_binary_digit (list_ascii_of_string line)) in *.
  assert (Hword : exists word, int_base2 digits = inr word).
  { unfold int_base2. destruct digits; [discriminate Hdigits | eexists; reflexivity]. }
  destruct Hword as [word Hword]. exists word.
  unfold READ. rewrite Hstdin. simpl.
  rewrite Hbuffer. simpl.
  change (len [] <? MAX_NB_BITS) with true. simpl.
  rewrite read_bits_enough; simpl; rewrite drain_filter; simpl; fold digits.
  - rewrite Hword. simpl. eexists. repeat split; reflexivity.
  - unfold len. rewrite Hdigits. reflexivity.
Qed.

End runs.

(* ===================================================================== *)
(** ** Instances *)
(* ===================================================================== *)

Lemma malloc_error_results_witness :
  _malloc 0 nowhere (fresh []) = Raised (Exec (MallocNegativeSizeError nowhere)) (fresh []) /\
  _malloc 16777216 nowhere (set_local_variables (fresh []) [[]])
  = Ok 0 (set_local_variables (fresh []) [[]]).
Proof.
  split.
  - apply (malloc_error_results 0 nowhere (fresh [])). lia.
  - apply (malloc_error_results 16777216 nowhere (set_local_variables (fresh []) [[]])).
    + lia.
    + reflexivity.
Defined.

Lemma read_returns_last_written_witness :
  exists s s',
    run_calls [do_push_frame []; do_malloc 4; do_set 16777212 (VInt 7); do_free 16777212]
      (fresh []) = Ok tt s /\
    _get_memory 16777212 nowhere s = Ok (VInt 7) s'.
Proof.
  destruct (run_calls [do_push_frame []; do_malloc 4; do_set 16777212 (VInt 7);
                       do_free 16777212] (fresh [])) as [[] s|e s] eqn:E.
  - destruct (read_returns_last_written _ _ s 16777212 nowhere E ltac:(lia))
      as [[s' H] _].
    exists s, s'. split; [reflexivity | exact H].
  - vm_compute in E. discriminate E.
Defined.

(* ===================================================================== *)
(** ** More on the value codec *)
(* ===================================================================== *)

Section codec_more.

Local Ltac unfold_bits :=
  change (INT_NB_BITS - 1) with 31 in *; change INT_NB_BITS with 32 in *;
  change CHAR_NB_BITS with 7 in *; change MEMORY_SIZE with (2 ^ 24) in *.

Lemma overflow_down_steps (n : nat) :
  forall x, exists k, 0 <= k /\ overflow_down n x = x - k * 2 ^ 32 /\
                      (0 < k -> - 2 ^ 31 <= overflow_down n x).
Proof.
  induction n as [|n IH]; intros x; simpl.
  - exists 0. lia.
  - unfold_bits. destruct (Z.leb_spec (2 ^ 31) x) as [Hge|Hlt].
    + destruct (IH (x - 2 ^ 32)) as (k & Hk & E & Hlow).
      exists (k + 1). split; [lia|]. split; [lia|]. intros _.
      destruct (Z.eq_dec k 0) as [->|Hne]; [rewrite E; lia | apply Hlow; lia].
    + exists 0. lia.
Qed.

Lemma overflow_up_steps (n : nat) :
  forall x, exists k, 0 <= k /\ overflow_up n x = x + k * 2 ^ 32 /\
                      (0 < k -> overflow_up n x < 0).
Proof.
  induction n as [|n IH]; intros x; simpl.
  - exists 0. lia.
  - unfold_bits. destruct (Z.ltb_spec x (- 2 ^ 32)) as [Hlt|Hge].
    + destruct (IH (x + 2 ^ 32)) as (k & Hk & E & Hneg).
      exists (k + 1). split; [lia|]. split; [lia|]. intros _.
      destruct (Z.eq_dec k 0) as [->|Hne]; [rewrite E; lia | apply Hneg; lia].
    + exists 0. lia.
Qed.

Lemma int_to_bin_wraps (x : Z) : int_to_bin x true = x mod 2 ^ 32.
Proof.
  unfold int_to_bin.
  set (y := overflow_down (Z.to_nat (x / 2 ^ INT_NB_BITS + 1)) x).
  set (z := overflow_up (Z.to_nat (- y / 2 ^ INT_NB_BITS + 1)) y).
  pose proof (overflow_down_exit x) as Hy. fold y in Hy.
  pose proof (overflow_up_exit y) as Hz. fold z in Hz.
  destruct (overflow_down_steps (Z.to_nat (x / 2 ^ INT_NB_BITS + 1)) x)
    as (k1 & Hk1 & E1 & _). fold y in E1.
  destruct (overflow_up_steps (Z.to_nat (- y / 2 ^ INT_NB_BITS + 1)) y)
    as (k2 & Hk2 & E2 & Hneg). fold z in E2, Hneg.
  unfold_bits.
  assert (Hz2 : z < 2 ^ 31).
  { destruct (Z.eq_dec k2 0) as [->|Hne]; [lia|]. specialize (Hneg ltac:(lia)). lia. }
  destruct (Z.ltb_spec z 0) as [Hlt|Hge].
  - apply (Z.mod_unique_pos x (2 ^ 32) (k1 - k2 - 1)); lia.
  - apply (Z.mod_unique_pos x (2 ^ 32) (k1 - k2)); lia.
Qed.

(** X1. With the overflow flag on, encoding wraps: the word of any integer
    [x] is [x] modulo [2^32]. *)
Theorem int_to_bin_overflow_wraps (x : Z) :
  int_to_bin x true = x mod 2 ^ 32.
Proof. exact (int_to_bin_wraps x). Qed.

Lemma signed_word_round_trip (x : Z) :
  - 2 ^ 31 <= x < 2 ^ 31 ->
  0 <= int_to_bin x false < 2 ^ 32 /\ bin_to_int (int_to_bin x false) = x.
Proof.
  intros Hx. unfold int_to_bin, bin_to_int. unfold_bits.
  destruct (Z.ltb_spec x 0) as [Hneg|Hpos].
  - destruct (Z.ltb_spec (x + 2 ^ 32) (2 ^ 31)); lia.
  - destruct (Z.ltb_spec x (2 ^ 31)); lia.
Qed.

(** X2. Encoding a signed integer of the 32-bit range gives a word of
    [[0, 2^32)], and decoding that word gives the integer back. *)
Theorem bin_to_int_int_to_bin (x : Z) :
  - 2 ^ 31 <= x < 2 ^ 31 ->
  0 <= int_to_bin x false < 2 ^ 32 /\ bin_to_int (int_to_bin x false) = x.
Proof. exact (signed_word_round_trip x). Qed.

Lemma bin_to_int_int_to_bin_witness :
  - 2 ^ 31 <= -1 < 2 ^ 31 /\
  0 <= int_to_bin (-1) false < 2 ^ 32 /\ bin_to_int (int_to_bin (-1) false) = -1.
Proof.
  split; [lia | apply (bin_to_int_int_to_bin (-1)); lia].
Defined.

(** X3. The only words that decode as booleans are 0 and 1; every other
    word raises the wrong-boolean error with that word; and decoding the
    word of a boolean gives it back. *)
Theorem bin_to_bool_total (x : Z) (b : bool) (p : position) :
  bin_to_bool (bool_to_bin b) p = inr b /\
  (x <> 0 -> x <> 1 -> bin_to_bool x p = inl (Exec (WrongBooleanCodeError p x))) /\
  (forall b', bin_to_bool x p = inr b' -> x = bool_to_bin b').
Proof.
  split; [destruct b; reflexivity|]. unfold bin_to_bool. split.
  - intros H0 H1. destruct (Z.eqb_spec x 1); [contradiction|].
    destruct (Z.eqb_spec x 0); [contradiction | reflexivity].
  - intros b'. destruct (Z.eqb_spec x 1) as [->|]; [intros [= <-]; reflexivity|].
    destruct (Z.eqb_spec x 0) as [->|]; [intros [= <-]; reflexivity | discriminate].
Qed.

(** X4. A word below [2^24] decodes as a pointer to itself when it is not
    negative; a word of [2^24] or more raises the wrong-pointer error; and
    the word of an address of [[0, 2^24)] decodes to that address. *)
Theorem bin_to_pointer_range (x : Z) (p : position) :
  (0 <= x < 2 ^ 24 -> bin_to_pointer x p = inr x /\
                      bin_to_pointer (pointer_to_bin x) p = inr x) /\
  (2 ^ 24 <= x -> bin_to_pointer x p = inl (Exec (WrongPointerCodeError p x))).
Proof.
  unfold bin_to_pointer, pointer_to_bin, int_to_bin, bin_to_int. unfold_bits. split.
  - intros Hx. destruct (Z.ltb_spec x 0); [lia|].
    destruct (Z.ltb_spec x (2 ^ 24)); [|lia].
    destruct (Z.ltb_spec x (2 ^ 31)); [|lia]. split; reflexivity.
  - intros Hx. destruct (Z.ltb_spec x (2 ^ 24)); [lia | reflexivity].
Qed.

Lemma bin_to_bool_total_witness :
  bin_to_bool (bool_to_bin true) nowhere = inr true /\
  bin_to_bool 2 nowhere = inl (Exec (WrongBooleanCodeError nowhere 2)).
Proof.
  split.
  - apply (bin_to_bool_total 2 true nowhere).
  - apply (bin_to_bool_total 2 true nowhere); lia.
Defined.

Lemma bin_to_pointer_range_witness :
  bin_to_pointer 16777215 nowhere = inr 16777215 /\
  bin_to_pointer 16777216 nowhere = inl (Exec (WrongPointerCodeError nowhere 16777216)).
Proof.
  split.
  - apply (bin_to_pointer_range 16777215 nowhere). lia.
  - apply (bin_to_pointer_range 16777216 nowhere). lia.
Defined.

Lemma char_word_round_trip (c : ascii) (p : position) :
  char_to_bin (String c EmptyString) = inr (ord c) /\
  (ord c <= 128 -> bin_to_char (ord c) p = inr c).
Proof.
  split; [reflexivity|]. intros Hc. unfold bin_to_char, chr. unfold_bits.
  destruct (Z.leb_spec (ord c) (2 ^ 7)); [|lia].
  unfold ord in *. destruct (Z.ltb_spec (Z.of_N (N_of_ascii c)) 0); [lia|].
  rewrite N2Z.id, ascii_N_embedding. reflexivity.
Qed.

(** X5. A character and its word: [char_to_bin] of a one-character text
    is the ordinal of the character, and decoding that word gives the
    character back whenever the ordinal is at most 128. *)
Theorem bin_to_char_char_to_bin (c : ascii) (p : position) :
  char_to_bin (String c EmptyString) = inr (ord c) /\
  (ord c <= 128 -> bin_to_char (ord c) p = inr c).
Proof. exact (char_word_round_trip c p). Qed.

Lemma bin_to_char_char_to_bin_witness :
  char_to_bin "A" = inr 65 /\ bin_to_char 65 nowhere = inr "A"%char.
Proof.
  split.
  - apply (bin_to_char_char_to_bin "A"%char nowhere).
  - apply (bin_to_char_char_to_bin "A"%char nowhere). vm_compute. discriminate.
Defined.

Lemma binary_digits_value (x : positive) : spelled (binary_digits x) 0 = Zpos x.
Proof.
  unfold spelled.
  induction x as [x IH|x IH|]; simpl; [| |reflexivity];
    rewrite fold_left_app, IH; simpl; lia.
Qed.

Lemma zeros_value (n : nat) (digits : list ascii) :
  spelled (repeat "0"%char n ++ digits) 0 = spelled digits 0.
Proof.
  unfold spelled. induction n as [|n IH]; [reflexivity | exact IH].
Qed.

Lemma binary_digits_length (x : positive) :
  forall n : nat, Zpos x < 2 ^ Z.of_nat n -> (length (binary_digits x) <= n)%nat.
Proof.
  induction x as [x IH|x IH|]; intros n Hx.
  - destruct n as [|n]; [simpl in Hx; lia|].
    simpl. rewrite length_app. simpl.
    rewrite Nat2Z.inj_succ, Z.pow_succ_r in Hx by lia.
    specialize (IH n ltac:(lia)). lia.
  - destruct n as [|n]; [simpl in Hx; lia|].
    simpl. rewrite length_app. simpl.
    rewrite Nat2Z.inj_succ, Z.pow_succ_r in Hx by lia.
    specialize (IH n ltac:(lia)). lia.
  - destruct n as [|n]; [simpl in Hx; lia | simpl; lia].
Qed.

Lemma binary_digits_binary (x : positive) :
  List.filter is_binary_digit (binary_digits x) = binary_digits x.
Proof.
  induction x as [x IH|x IH|]; simpl; [| |reflexivity];
    rewrite List.filter_app, IH; reflexivity.
Qed.

Lemma zero_fill_binary (width : nat) (digits : list ascii) :
  List.filter is_binary_digit digits = digits ->
  List.filter is_binary_digit (zero_fill width digits) = zero_fill width digits.
Proof.
  intros H. unfold zero_fill. rewrite List.filter_app, H. f_equal.
  induction (width - length digits)%nat as [|n IH]; simpl; [reflexivity | f_equal; exact IH].
Qed.

Lemma zero_fill_length (width : nat) (digits : list ascii) :
  (length digits <= width)%nat -> length (zero_fill width digits) = width.
Proof.
  intros H. unfold zero_fill. rewrite length_app, repeat_length. lia.
Qed.

Lemma bin_to_string_digits (w : Z) :
  0 <= w < 2 ^ 32 ->
  let text := list_ascii_of_string (bin_to_string w) in
  length text = 32%nat /\
  List.filter is_binary_digit text = text /\
  int_base2 text = inr w.
Proof.
  intros Hw text. subst text. unfold bin_to_string.
  rewrite list_ascii_of_string_of_list_ascii.
  destruct w as [|x|x]; [| |lia].
  - repeat split; reflexivity.
  - assert (Hlen : (length (binary_digits x) <= 32)%nat).
    { apply binary_digits_length. exact (proj2 Hw). }
    split; [apply zero_fill_length, Hlen|].
    split; [apply zero_fill_binary, binary_digits_binary|].
    unfold int_base2.
    destruct (zero_fill 32 (binary_digits x)) as [|c text] eqn:E.
    + apply (f_equal (@length ascii)) in E.
      rewrite zero_fill_length in E by exact Hlen. discriminate E.
    + rewrite <- E. change (fold_left _ ?l 0) with (spelled l 0).
      unfold zero_fill. rewrite zeros_value, binary_digits_value. reflexivity.
Qed.

(** X6. The text [bin_to_string] gives for a word of [[0, 2^32)] has
    exactly 32 characters, all of them binary digits, and read in base 2
    it spells the word. *)
Theorem bin_to_string_spells (w : Z) :
  0 <= w < 2 ^ 32 ->
  let text := list_ascii_of_string (bin_to_string w) in
  length text = 32%nat /\
  List.filter is_binary_digit text = text /\
  int_base2 text = inr w.
Proof. exact (bin_to_string_digits w). Qed.

Lemma bin_to_string_spells_witness :
  0 <= 5 < 2 ^ 32 /\
  int_base2 (list_ascii_of_string (bin_to_string 5)) = inr 5.
Proof.
  split; [lia | apply (bin_to_string_spells 5); lia].
Defined.

End codec_more.

(* ===================================================================== *)
(** ** More on the memory manager *)
(* ===================================================================== *)

Section memory_more.

Lemma free_scan_none (heap : list (Z * Z)) (pointer : Z) :
  forall k, free_scan heap k pointer = None <-> Forall (fun b => fst b <> pointer) heap.
Proof.
  induction heap as [|[a n] heap IH]; intros k; simpl.
  - split; [constructor | reflexivity].
  - destruct (Z.eqb_spec a pointer) as [->|Hne].
    + split; [discriminate|]. intros H. inversion H; subst. simpl in *. contradiction.
    + rewrite IH. split.
      * intros H. constructor; [exact Hne | exact H].
      * intros H. inversion H; subst. assumption.
Qed.

Lemma free_scan_some (heap : list (Z * Z)) (pointer : Z) :
  forall k j,
    free_scan heap k pointer = Some j ->
    exists i size,
      j = (k + i)%nat /\ heap !! i = Some (pointer, size) /\
      Forall (fun b => fst b <> pointer) (firstn i heap).
Proof.
  induction heap as [|[a n] heap IH]; intros k j E; [discriminate E|].
  simpl in E. destruct (Z.eqb_spec a pointer) as [->|Hne].
  - injection E as <-. exists O, n. split; [lia|]. split; [reflexivity | constructor].
  - destruct (IH _ _ E) as (i & size & -> & Hl & Hbefore).
    exists (S i), size. split; [lia|]. split; [exact Hl|].
    simpl. constructor; [exact Hne | exact Hbefore].
Qed.

(** In a sorted heap list the block starts strictly decrease. *)
Lemma heap_sorted_starts (heap : list (Z * Z)) :
  forall top, heap_sorted top heap -> Forall (fun b => fst b < top) heap.
Proof.
  induction heap as [|[a n] heap IH]; intros top Hs; [constructor|].
  destruct Hs as (Hn & Ha & Hs). constructor; [simpl; lia|].
  eapply Forall_impl; [apply (IH _ Hs)|]. intros [a' n']. simpl. lia.
Qed.

(** No two blocks of a sorted heap list start at the same address. *)
Lemma heap_sorted_first_only (heap : list (Z * Z)) (pointer : Z) :
  forall top i size,
    heap_sorted top heap ->
    heap !! i = Some (pointer, size) ->
    Forall (fun b => fst b <> pointer) (list_delete_at i heap).
Proof.
  induction heap as [|[a n] heap IH]; intros top i size Hs Hl; [discriminate Hl|].
  destruct Hs as (Hn & Ha & Hs). destruct i as [|i].
  - injection Hl as -> ->. simpl.
    eapply Forall_impl; [apply (heap_sorted_starts _ _ Hs)|].
    intros [a' n']. simpl. lia.
  - simpl in Hl.
    change (list_delete_at (S i) ((a, n) :: heap)) with ((a, n) :: list_delete_at i heap).
    constructor; [|apply (IH _ _ _ Hs Hl)].
    pose proof (heap_sorted_starts _ _ Hs) as Hlt. rewrite Forall_forall in Hlt.
    specialize (Hlt (pointer, size) (list_elem_of_lookup_2 _ _ _ Hl)). simpl in *. lia.
Qed.

(** X8. FREE fails, with the error for a pointer that was not allocated and
    the state as it was, exactly when no block of the heap list starts at
    the pointer; and once a FREE has succeeded on a heap list that is in
    order, a second FREE of the same pointer raises that error. *)
Theorem free_twice_raises (pointer : Z) (p : position) (s : State) :
  (_free pointer p s = Raised (Exec (FreeNotAllocatedPointer p)) s <->
   Forall (fun b => fst b <> pointer) (memory_heap s)) /\
  (forall s1, heap_sorted MEMORY_SIZE (memory_heap s) ->
     _free pointer p s = Ok tt s1 ->
     _free pointer p s1 = Raised (Exec (FreeNotAllocatedPointer p)) s1).
Proof.
  assert (Hfail : forall s, _free pointer p s = Raised (Exec (FreeNotAllocatedPointer p)) s <->
                            Forall (fun b => fst b <> pointer) (memory_heap s)).
  { intros s0. rewrite <- (free_scan_none _ _ O). unfold _free.
    destruct (free_scan (memory_heap s0) 0 pointer); split;
      (discriminate || reflexivity). }
  split; [apply Hfail|].
  intros s1 Hsorted E. apply Hfail. unfold _free in E.
  destruct (free_scan (memory_heap s) 0 pointer) as [j|] eqn:Es; [|discriminate].
  injection E as <-. simpl.
  destruct (free_scan_some _ _ _ _ Es) as (i & size & -> & Hl & _).
  apply (heap_sorted_first_only _ _ _ _ _ Hsorted Hl).
Qed.

Lemma free_twice_raises_witness :
  exists s1,
    _free 16777215 nowhere (set_memory_heap (fresh []) [(16777215, 1)]) = Ok tt s1 /\
    _free 16777215 nowhere s1 = Raised (Exec (FreeNotAllocatedPointer nowhere)) s1.
Proof.
  eexists. split; [reflexivity|].
  apply (free_twice_raises 16777215 nowhere (set_memory_heap (fresh []) [(16777215, 1)])).
  - simpl. change MEMORY_SIZE with 16777216. lia.
  - reflexivity.
Defined.

Lemma list_delete_insert_at {A} (i : nat) (x : A) (l : list A) :
  (i <= length l)%nat -> list_delete_at i (list_insert_at i x l) = l.
Proof.
  revert l. induction i as [|i IH]; intros l Hi.
  - reflexivity.
  - destruct l as [|y l]; [simpl in Hi; lia|].
    change (list_insert_at (S i) x (y :: l)) with (y :: list_insert_at i x l).
    change (list_delete_at (S i) (y :: list_insert_at i x l))
      with (y :: list_delete_at i (list_insert_at i x l)).
    rewrite IH by (simpl in Hi; lia). reflexivity.
Qed.

Lemma list_insert_at_lookup {A} (i : nat) (x : A) (l : list A) :
  (i <= length l)%nat ->
  list_insert_at i x l !! i = Some x /\ firstn i (list_insert_at i x l) = firstn i l.
Proof.
  revert l. induction i as [|i IH]; intros l Hi.
  - split; reflexivity.
  - destruct l as [|y l]; [simpl in Hi; lia|].
    change (list_insert_at (S i) x (y :: l)) with (y :: list_insert_at i x l).
    destruct (IH l ltac:(simpl in Hi; lia)) as [H1 H2].
    split; [exact H1 | simpl; f_equal; exact H2].
Qed.

Lemma free_scan_at (heap : list (Z * Z)) (pointer : Z) :
  forall k i size,
    heap !! i = Some (pointer, size) ->
    Forall (fun b => fst b <> pointer) (firstn i heap) ->
    free_scan heap k pointer = Some (k + i)%nat.
Proof.
  induction heap as [|[a n] heap IH]; intros k i size Hl Hbefore; [discriminate Hl|].
  destruct i as [|i].
  - injection Hl as -> ->. simpl. rewrite Z.eqb_refl. f_equal. lia.
  - simpl in Hl, Hbefore. inversion Hbefore as [|? ? Hne Hrest]; subst. simpl in Hne.
    simpl. destruct (Z.eqb_spec a pointer); [contradiction|].
    rewrite (IH (S k) i size Hl Hrest). f_equal. lia.
Qed.

(** Where the chosen block goes in the list: never past its end. *)
Lemma malloc_choice_index (size : Z) (s : State) :
  (snd (malloc_choice size s) <= length (memory_heap s))%nat.
Proof.
  unfold malloc_choice. destruct (memory_heap s) as [|first heap] eqn:Eh; [simpl; lia|].
  destruct (malloc_scan (first :: heap) 0 MEMORY_SIZE size) as [[a j]|] eqn:Es.
  - destruct (malloc_scan_found _ _ _ _ _ _ Es) as (pos & below & free & -> & Hl & _).
    apply lookup_lt_Some in Hl. simpl in *. lia.
  - destruct (List.last heap first). simpl. lia.
Qed.

(** X9. An allocation that returns a pointer other than NULL on a heap
    list that is in order can be undone: the FREE of that pointer succeeds
    and gives back the heap list of before, and the memory cells as the
    allocation left them. *)
Theorem free_undoes_malloc (size : Z) (p : position) (s s1 : State) (address : Z) :
  heap_sorted MEMORY_SIZE (memory_heap s) ->
  _malloc size p s = Ok address s1 ->
  address <> 0 ->
  exists s2, _free address p s1 = Ok tt s2 /\
             memory_heap s2 = memory_heap s /\ memory s2 = memory s.
Proof.
  intros Hsorted E Hnull.
  assert (Hinv1 : heap_sorted MEMORY_SIZE (memory_heap s1)).
  { unfold _malloc in E. destruct (Z.leb_spec size 0) as [|Hsize]; [discriminate|].
    destruct (malloc_choice size s) as [a index] eqn:Ec.
    destruct (_check_memory_limit_exceeded (Some a) s) eqn:Eroom; simpl in E;
      injection E as <- <-; [|exact Hsorted].
    simpl. unfold malloc_choice in Ec.
    destruct (memory_heap s) as [|first heap] eqn:Eh.
    - injection Ec as <- <-. simpl. change MEMORY_SIZE with 16777216. lia.
    - destruct (malloc_scan (first :: heap) 0 MEMORY_SIZE size) as [[a' j]|] eqn:Es.
      + injection Ec as <- <-.
        destruct (malloc_scan_sorted size _ ltac:(lia) _ _ _ _ Hsorted Es)
          as (pos & -> & Hins). exact Hins.
      + destruct (List.last heap first) as [ra rs] eqn:El. injection Ec as <- <-.
        replace (list_insert_at _ _ _) with ((first :: heap) ++ [(ra - size, size)])
          by (symmetry; apply (list_insert_at_end _ (first :: heap))).
        pose proof (heap_sorted_append size heap first MEMORY_SIZE ltac:(lia) Hsorted) as H.
        rewrite El in H. exact H. }
  unfold _malloc in E. destruct (Z.leb_spec size 0) as [|Hsize]; [discriminate|].
  pose proof (malloc_choice_index size s) as Hindex.
  destruct (malloc_choice size s) as [a index] eqn:Ec. simpl in Hindex.
  destruct (_check_memory_limit_exceeded (Some a) s) eqn:Eroom; simpl in E;
    injection E as <- <-; [|contradiction Hnull; reflexivity].
  simpl in Hinv1.
  destruct (list_insert_at_lookup index (a, size) (memory_heap s) Hindex) as [Hl Hfirst].
  assert (Hbefore : Forall (fun b => fst b <> a)
                      (firstn index (list_insert_at index (a, size) (memory_heap s)))).
  { pose proof (heap_sorted_first_only _ _ _ _ _ Hinv1 Hl) as H.
    rewrite (list_delete_insert_at _ _ _ Hindex) in H.
    rewrite Hfirst. apply Forall_take, H. }
  unfold _free. simpl.
  rewrite (free_scan_at _ _ O index size Hl Hbefore). simpl.
  eexists. split; [reflexivity|]. simpl.
  rewrite (list_delete_insert_at _ _ _ Hindex). split; reflexivity.
Qed.

Lemma free_undoes_malloc_witness :
  exists s1 s2,
    _malloc 3 nowhere (set_local_variables (fresh []) [[]]) = Ok 16777213 s1 /\
    _free 16777213 nowhere s1 = Ok tt s2 /\ memory_heap s2 = [].
Proof.
  destruct (free_undoes_malloc 3 nowhere (set_local_variables (fresh []) [[]])
              (set_memory_heap (set_local_variables (fresh []) [[]]) [(16777213, 3)])
              16777213 I eq_refl ltac:(lia)) as (s2 & E & Hheap & _).
  eexists. exists s2. split; [reflexivity|]. split; [exact E | exact Hheap].
Defined.

Lemma list_index_range (x : string) (l : list string) :
  forall i, list_index x l = Some i -> 0 <= i < len l.
Proof.
  unfold len. induction l as [|y l IH]; intros i E; [discriminate E|].
  simpl in E. destruct (String.eqb y x).
  - injection E as <-. simpl. lia.
  - destruct (list_index x l) as [i'|]; [|discriminate]. injection E as <-.
    specialize (IH i' eq_refl). simpl length. lia.
Qed.

Lemma list_index_same (x y : string) (l : list string) :
  forall i, list_index x l = Some i -> list_index y l = Some i -> x = y.
Proof.
  induction l as [|z l IH]; intros i Ex Ey; [discriminate Ex|].
  simpl in Ex, Ey.
  destruct (String.eqb_spec z x) as [Hx|Hx], (String.eqb_spec z y) as [Hy|Hy].
  - congruence.
  - injection Ex as <-. destruct (list_index y l) as [j|] eqn:E; [|discriminate].
    injection Ey as Hj. pose proof (list_index_range _ _ _ E). lia.
  - injection Ey as <-. destruct (list_index x l) as [j|] eqn:E; [|discriminate].
    injection Ex as Hj. pose proof (list_index_range _ _ _ E). lia.
  - destruct (list_index x l) as [j|]; [|discriminate].
    destruct (list_index y l) as [k|]; [|discriminate].
    injection Ex as <-. injection Ey as Hk. apply (IH j); [reflexivity | f_equal; lia].
Qed.

(** X10. The address of a variable that resolves lies in the stack
    segment, from the read-only limit up to the last occupied stack word,
    the lookup changes nothing, and two different names that resolve in the
    same state have different addresses. *)
Theorem variable_addresses_distinct (x y : string) (p : position) (s s1 s2 : State)
    (ax ay : Z) :
  _get_variable_address x p s = Ok ax s1 ->
  _get_variable_address y p s = Ok ay s2 ->
  s1 = s /\ read_write_stack_limit s <= ax <= last_stack_address s /\
  (x <> y -> ax <> ay).
Proof.
  unfold _get_variable_address, last_stack_address. intros Ex Ey.
  pose proof (sum_len_nonneg (local_variables s)) as Hlocals.
  pose proof (sum_len_nonneg (but_last (local_variables s))) as Hbut.
  assert (Hglobals : 0 <= len (global_variables s)) by (unfold len; lia).
  assert (Hframe : forall frame, last_item (local_variables s) = Some frame ->
                     sum_len (local_variables s)
                     = sum_len (but_last (local_variables s)) + len frame).
  { intros frame E. rewrite (but_last_last _ _ E) at 1. rewrite sum_len_app.
    simpl. lia. }
  destruct (list_index x (global_variables s)) as [i|] eqn:Egx.
  - injection Ex as <- <-. pose proof (list_index_range _ _ _ Egx) as Hi.
    split; [reflexivity|]. split; [lia|]. intros Hxy.
    destruct (list_index y (global_variables s)) as [j|] eqn:Egy.
    + injection Ey as <- _. intros Heq.
      apply Hxy, (list_index_same x y _ i Egx). rewrite Egy. f_equal. lia.
    + destruct (last_item (local_variables s)) as [frame|]; [|discriminate].
      destruct (list_index y frame) as [j|] eqn:Ely; [|discriminate].
      injection Ey as <- _. pose proof (list_index_range _ _ _ Ely). lia.
  - destruct (last_item (local_variables s)) as [frame|] eqn:Elast; [|discriminate].
    destruct (list_index x frame) as [i|] eqn:Elx; [|discriminate].
    injection Ex as <- <-. pose proof (list_index_range _ _ _ Elx) as Hi.
    pose proof (Hframe frame eq_refl) as Hsum.
    split; [reflexivity|]. split; [lia|]. intros Hxy.
    destruct (list_index y (global_variables s)) as [j|] eqn:Egy.
    + injection Ey as <- _. pose proof (list_index_range _ _ _ Egy). lia.
    + destruct (list_index y frame) as [j|] eqn:Ely; [|discriminate].
      injection Ey as <- _. intros Heq.
      apply Hxy, (list_index_same x y _ i Elx). rewrite Ely. f_equal. lia.
Qed.

Lemma variable_addresses_distinct_witness :
  let s := set_local_variables (set_global_variables (fresh []) ["g"%string])
             [["a"; "b"]%string] in
  _get_variable_address "a" nowhere s = Ok 2 s /\
  _get_variable_address "b" nowhere s = Ok 3 s /\
  2 <> 3.
Proof.
  intros s. split; [reflexivity|]. split; [reflexivity|].
  apply (variable_addresses_distinct "a" "b" nowhere s s s 2 3 eq_refl eq_refl).
  discriminate.
Defined.

(** X11. After any run of allocations, frees, writes, reads and checked
    stack moves that starts with an empty heap list and raises nothing,
    the allocated blocks are pairwise disjoint, and every allocated
    address is below [2^24] and strictly above the stack top the room
    check computes, which counts the locals and not the globals; it is
    above the last occupied stack word when no more than one global is
    declared. *)
Theorem allocated_blocks_stay_disjoint (cs : list memory_call) (s0 s : State) :
  memory_heap s0 = [] ->
  run_calls cs s0 = Ok tt s ->
  (forall i j b1 b2 address,
     i <> j -> memory_heap s !! i = Some b1 -> memory_heap s !! j = Some b2 ->
     in_block b1 address -> ~ in_block b2 address) /\
  (forall b address,
     In b (memory_heap s) -> in_block b address ->
     checked_stack_top s < address < 2 ^ 24 /\
     (len (global_variables s) <= 1 -> last_stack_address s < address)).
Proof. exact (allocator_invariant_reachable cs s0 s). Qed.

(** X12. The scan of [_malloc] is a first fit from the top: when it
    breaks, the new block starts right above the first block of the heap
    list that has strictly more than [size] free words above it, and every
    block before that one has at most [size] free words above it. *)
Theorem malloc_takes_first_fit (size : Z) (heap : list (Z * Z)) (top : Z) (k : nat)
    (address : Z) (j : nat) :
  malloc_scan heap k top size = Some (address, j) ->
  exists pos below free,
    j = (k + pos)%nat /\ heap !! pos = Some below /\
    address = fst below + snd below /\
    gaps top heap !! pos = Some free /\ size < free /\
    Forall (fun free => free <= size) (firstn pos (gaps top heap)).
Proof. exact (malloc_scan_found size heap top k address j). Qed.

Lemma allocated_blocks_stay_disjoint_witness :
  exists s,
    run_calls [do_push_frame []; do_malloc 4; do_malloc 2; do_free 16777212]
      (fresh []) = Ok tt s /\
    16777200 < 16777210 < 2 ^ 24 /\
    checked_stack_top s < 16777210.
Proof.
  destruct (run_calls [do_push_frame []; do_malloc 4; do_malloc 2; do_free 16777212]
              (fresh [])) as [[] s|e s] eqn:E.
  - exists s. split; [reflexivity|]. split; [lia|].
    destruct (allocated_blocks_stay_disjoint _ (fresh []) s eq_refl E) as [_ H].
    assert (Hs : memory_heap s = [(16777210, 2)]).
    { vm_compute in E. injection E as <-. reflexivity. }
    apply (H (16777210, 2) 16777210).
    + rewrite Hs. left. reflexivity.
    + unfold in_block. simpl. lia.
  - vm_compute in E. discriminate E.
Defined.

Lemma malloc_takes_first_fit_witness :
  exists pos below free,
    [(16777215, 1); (16777210, 1)] !! pos = Some below /\
    16777211 = fst below + snd below /\
    gaps 16777216 [(16777215, 1); (16777210, 1)] !! pos = Some free /\ 2 < free.
Proof.
  destruct (malloc_takes_first_fit 2 [(16777215, 1); (16777210, 1)] 16777216 O 16777211
              1%nat eq_refl) as (pos & below & free & _ & Hl & Ha & Hg & Hfree & _).
  exists pos, below, free. repeat split; assumption.
Defined.

End memory_more.

(* ===================================================================== *)
(** ** Strings in memory *)
(* ===================================================================== *)

Section strings_in_memory.

Lemma iterate_add {A R} (n m : nat) (step : A -> M (A + R)) :
  forall a s,
    iterate (n + m) step a s
    = match iterate n step a s with
      | Ok (inl a') s' => iterate m step a' s'
      | other => other
      end.
Proof.
  induction n as [|n IH]; intros a s; simpl; [reflexivity|].
  destruct (step a s) as [[a'|r] s'|e s']; [apply IH | reflexivity | reflexivity].
Qed.

Lemma iterate_next {A R} (n : nat) (step : A -> M (A + R)) (a : A) (s : State) :
  iterate (S n) step a s
  = match step a s with
    | Ok (inl a') s' => iterate n step a' s'
    | other => other
    end.
Proof. reflexivity. Qed.

Lemma repeat_until_iterate {A R} (budget : positive) (step : A -> M (A + R)) :
  forall a s, repeat_until budget step a s = iterate (Pos.to_nat budget) step a s.
Proof.
  induction budget as [budget IH|budget IH|]; intros a s.
  - rewrite Pos2Nat.inj_xI. simpl.
    destruct (step a s) as [[a'|r] s'|e s']; try reflexivity.
    replace (Pos.to_nat budget + (Pos.to_nat budget + 0))%nat
      with (Pos.to_nat budget + Pos.to_nat budget)%nat by lia.
    rewrite iterate_add, <- IH.
    destruct (repeat_until budget step a' s') as [[a''|r] s''|e s'']; try reflexivity.
    apply IH.
  - rewrite Pos2Nat.inj_xO. simpl.
    replace (Pos.to_nat budget + (Pos.to_nat budget + 0))%nat
      with (Pos.to_nat budget + Pos.to_nat budget)%nat by lia.
    rewrite iterate_add, <- IH.
    destruct (repeat_until budget step a s) as [[a'|r] s'|e s']; try reflexivity.
    apply IH.
  - simpl. destruct (step a s) as [[a'|r] s'|e s']; reflexivity.
Qed.

Lemma append_empty (text : string) : (text ++ "")%string = text.
Proof.
  induction text as [|c text IH]; [reflexivity|].
  change (String c (text ++ "")%string = String c text). f_equal. exact IH.
Qed.

Lemma append_one (text : string) (c : ascii) (rest : string) :
  ((text ++ String c EmptyString) ++ rest)%string = (text ++ String c rest)%string.
Proof.
  induction text as [|d text IH]; [reflexivity|].
  change (String d ((text ++ String c EmptyString) ++ rest)%string
          = String d (text ++ String c rest)%string).
  f_equal. exact IH.
Qed.

Lemma holds_string_tail (s : State) (address : Z) (c : ascii) (text : list ascii) :
  holds_string s address (c :: text) -> holds_string s (address + 1) text.
Proof.
  intros [Hchars Hnul]. split.
  - intros i d Hi. specialize (Hchars (S i) d Hi).
    rewrite <- Hchars. f_equal. lia.
  - rewrite <- Hnul. f_equal. unfold len. simpl length. lia.
Qed.

(** The loop of [_get_string_from_address] over cells that hold [text]. *)
Lemma string_loop (p : position) (s : State) (text : list ascii) :
  forall address acc,
    1 <= address -> address + len text < 2 ^ 24 ->
    Forall (fun c => ord c <> 0 /\ ord c <= 128) text ->
    holds_string s address text ->
    iterate (S (length text))
      (fun '(address, text) s =>
         bind (_get_memory address p s) (fun word s =>
         bind (lift (py_bin_to_char word p) s) (fun c s =>
         if Ascii.eqb c (ascii_of_nat 0) then Ok (inr text) s
         else Ok (inl (address + 1, (text ++ String c EmptyString)%string)) s)))
      (address, acc) s
    = Ok (inr (acc ++ string_of_list_ascii text)%string) s.
Proof.
  induction text as [|c text IH]; intros address acc Hlow Hhigh Hchars Hholds.
  - destruct Hholds as [_ Hnul]. unfold len in *. simpl in Hnul, Hhigh.
    rewrite Z.add_0_r in Hnul.
    simpl length. rewrite iterate_next. unfold _get_memory.
    rewrite (address_in_range address ltac:(lia)), Hnul. simpl.
    rewrite append_empty. reflexivity.
  - pose proof (holds_string_tail _ _ _ _ Hholds) as Htail.
    destruct Hholds as [Hhead _]. specialize (Hhead O c eq_refl).
    rewrite Z.add_0_r in Hhead.
    inversion Hchars as [|? ? [Hnz Hsmall] Hrest]; subst.
    unfold len in *. simpl length in Hhigh. rewrite Nat2Z.inj_succ in Hhigh.
    simpl length. rewrite iterate_next. unfold _get_memory at 1.
    rewrite (address_in_range address ltac:(lia)), Hhead.
    cbn [bind lift py_bin_to_char as_int].
    destruct (char_word_round_trip c p) as [_ Hback]. rewrite (Hback Hsmall).
    cbn [lift bind].
    assert (Hnot : Ascii.eqb c (ascii_of_nat 0) = false).
    { apply Ascii.eqb_neq. intros ->. apply Hnz. reflexivity. }
    rewrite Hnot.
    rewrite (IH (address + 1) _ ltac:(lia) ltac:(unfold len; lia) Hrest Htail).
    simpl string_of_list_ascii. rewrite append_one. reflexivity.
Qed.

(** The writes of the characters in [_set_string_to_address]. *)
Lemma set_characters (p : position) (address : Z) (text : list ascii) :
  forall i s s1,
    for_enumerate i text
      (fun i c _ => _set_memory (address + i) (VInt (ord c)) p) s = Ok tt s1 ->
    (forall k c, text !! k = Some c ->
       memory s1 !! (address + i + Z.of_nat k) = Some (VInt (ord c))) /\
    (forall b, b < address + i \/ address + i + len text <= b ->
       memory s1 !! b = memory s !! b) /\
    (text <> [] -> 1 <= address + i).
Proof.
  induction text as [|c text IH]; intros i s s1 E.
  - injection E as <-. split; [intros k c Hk; discriminate Hk|].
    split; [reflexivity | congruence].
  - simpl in E. unfold and_then in E.
    destruct (_set_memory (address + i) (VInt (ord c)) p s) as [[] s0|] eqn:E0;
      simpl in E; [|discriminate].
    destruct (IH _ _ _ E) as (Hcells & Hother & _).
    unfold _set_memory in E0.
    destruct (Z.leb_spec (address + i) 0) as [|Hpos]; simpl in E0; [discriminate|].
    destruct (MEMORY_SIZE <=? address + i); simpl in E0; [discriminate|].
    destruct (address + i <? read_write_stack_limit s); [discriminate|].
    injection E0 as <-.
    split; [|split; [|intros _; lia]].
    + intros [|k] d Hk.
      * injection Hk as <-. rewrite Hother by lia. simpl.
        rewrite Z.add_0_r. apply lookup_insert_eq.
      * simpl in Hk. rewrite <- (Hcells k d Hk). f_equal. lia.
    + intros b Hb. unfold len in *. simpl length in Hb. rewrite Nat2Z.inj_succ in Hb.
      rewrite Hother by (unfold len; lia). simpl.
      apply lookup_insert_ne. lia.
Qed.

(** X13. A string written by [_set_string_to_address] is read back by
    [_get_string_from_address] at the same address, when none of its
    characters is NUL and none has an ordinal above 128; the read changes
    nothing. *)
Theorem string_written_is_read_back (text : list ascii) (address : Z) (p : position)
    (s s1 : State) :
  Forall (fun c => ord c <> 0 /\ ord c <= 128) text ->
  _set_string_to_address text address p s = Ok tt s1 ->
  _get_string_from_address address p s1 = Ok (string_of_list_ascii text) s1.
Proof.
  intros Hchars E. unfold _set_string_to_address, and_then in E.
  destruct (_set_memory (address + len text) (VInt 0) p s) as [[] s0|] eqn:E0;
    simpl in E; [|discriminate].
  destruct (set_characters _ _ _ _ _ _ E) as (Hcells & Hother & Hfirst).
  unfold _set_memory in E0.
  destruct (Z.leb_spec (address + len text) 0) as [|Hpos]; simpl in E0; [discriminate|].
  destruct (Z.leb_spec MEMORY_SIZE (address + len text)) as [|Hhigh]; simpl in E0;
    [discriminate|].
  destruct (address + len text <? read_write_stack_limit s); [discriminate|].
  injection E0 as <-. change MEMORY_SIZE with (2 ^ 24) in Hhigh.
  assert (Hlow : 1 <= address).
  { destruct text as [|c text]; [unfold len in Hpos; simpl in Hpos; lia|].
    specialize (Hfirst ltac:(discriminate)). lia. }
  assert (Hholds : holds_string s1 address text).
  { split.
    - intros i c Hi. rewrite <- (Hcells i c Hi). f_equal. lia.
    - rewrite Hother by lia. simpl. apply lookup_insert_eq. }
  unfold _get_string_from_address. rewrite repeat_until_iterate.
  assert (Hbudget : exists more,
            Pos.to_nat (Z.to_pos MEMORY_SIZE) = (S (length text) + more)%nat).
  { exists (Pos.to_nat (Z.to_pos MEMORY_SIZE) - S (length text))%nat.
    assert (Z.of_nat (S (length text)) <= Z.pos (Z.to_pos MEMORY_SIZE)).
    { change (Z.pos (Z.to_pos MEMORY_SIZE)) with (2 ^ 24). unfold len in Hhigh. lia. }
    lia. }
  destruct Hbudget as [more ->].
  rewrite iterate_add, (string_loop p s1 text address EmptyString Hlow Hhigh Hchars Hholds).
  reflexivity.
Qed.

Lemma string_written_is_read_back_witness :
  exists s1,
    _set_string_to_address (list_ascii_of_string "hi") 1 nowhere (fresh []) = Ok tt s1 /\
    _get_string_from_address 1 nowhere s1 = Ok "hi"%string s1.
Proof.
  destruct (_set_string_to_address (list_ascii_of_string "hi") 1 nowhere (fresh []))
    as [[] s1|e s1] eqn:E.
  - exists s1. split; [reflexivity|].
    apply (string_written_is_read_back (list_ascii_of_string "hi") 1 nowhere (fresh []) s1).
    + repeat constructor; vm_compute; discriminate.
    + exact E.
  - vm_compute in E. discriminate E.
Defined.

End strings_in_memory.

(* ===================================================================== *)
(** ** More on program loading *)
(* ===================================================================== *)

Section loading_more.

Local Open Scope method_scope.

Lemma read_structure_frame (P : State -> Prop) name fields p :
  ignores_structures P -> keeps P (_read_structure name fields p).
Proof.
  intros [Hsf Hsfi]. unfold _read_structure.
  apply keeps_and_then; [apply keeps_get_state|]. intros s0.
  destruct (dict_in _ _); [apply keeps_raise|].
  apply keeps_and_then; [apply keeps_modify; intros; apply Hsf; assumption|]. intros _.
  apply keeps_for_enumerate. intros i field rest.
  destruct (list_in _ _); [apply keeps_raise|].
  apply keeps_and_then; [apply keeps_get_state|]. intros s1.
  apply keeps_and_then; [|intros _; apply keeps_modify; intros; apply Hsfi; assumption].
  destruct (dict_in _ _); [|apply keeps_ret].
  apply keeps_for_each. intros [other_name other_fields].
  destruct (String.eqb _ _); [apply keeps_ret|].
  destruct (list_in _ _); [apply keeps_raise | apply keeps_ret].
Qed.

Lemma read_function_frame (P : State -> Prop) name parameters blk p :
  ignores_functions P -> keeps P (_read_function name parameters blk p).
Proof.
  intros Hf. unfold _read_function.
  apply keeps_and_then; [apply keeps_get_state|]. intros s0.
  destruct (dict_in _ _); [apply keeps_raise|].
  apply keeps_and_then.
  - apply keeps_for_enumerate. intros i x rest.
    destruct (list_in _ _); [apply keeps_raise | apply keeps_ret].
  - intros _. apply keeps_modify. intros s H. apply Hf, H.
Qed.

Lemma read_structs_and_functions_frame (P : State -> Prop) tree :
  ignores_structures P -> ignores_functions P ->
  keeps P (_read_structs_and_functions tree).
Proof.
  intros Hs Hf. unfold _read_structs_and_functions. apply keeps_for_each.
  intros [name fields p|name parameters blk p].
  - apply read_structure_frame, Hs.
  - apply read_function_frame, Hf.
Qed.

Lemma set_string_to_address_frame (P : State -> Prop) text address p :
  ignores_memory P -> keeps P (_set_string_to_address text address p).
Proof.
  intros Hm. unfold _set_string_to_address.
  apply keeps_and_then; [apply keeps_set_memory; intros; apply Hm; assumption|].
  intros _. apply keeps_for_enumerate. intros i c rest.
  apply keeps_set_memory; intros; apply Hm; assumption.
Qed.

Lemma search_for_static_strings_frame (P : State -> Prop) tree :
  ignores_strings P -> ignores_memory P ->
  keeps P (_search_for_static_strings tree).
Proof.
  intros [Hstr Hlim] Hm. unfold _search_for_static_strings.
  apply keeps_for_each. intros [lit p].
  destruct lit; try apply keeps_ret.
  unfold register_static_string.
  apply keeps_and_then; [apply keeps_get_state|]. intros s0.
  destruct (dict_in _ _); [apply keeps_ret|].
  apply keeps_and_then; [apply keeps_modify; intros; apply Hstr; assumption|]. intros _.
  destruct (check_is_string_is_ascii_printable_with_escape _).
  - apply keeps_and_then; [apply keeps_lift | intros ?; apply keeps_raise].
  - apply keeps_and_then; [apply keeps_lift|]. intros decoded.
    apply keeps_and_then; [apply keeps_get_state|]. intros s1.
    apply keeps_and_then; [apply set_string_to_address_frame, Hm|]. intros _.
    apply keeps_modify; intros; apply Hlim; assumption.
Qed.

Lemma search_int_char_float_errors_frame (P : State -> Prop) tree :
  keeps P (_search_int_char_float_errors tree).
Proof.
  unfold _search_int_char_float_errors. apply keeps_for_each. intros [lit p].
  destruct lit; try apply keeps_ret.
  - destruct (_ && _); [apply keeps_ret | apply keeps_raise].
  - destruct (check_is_string_is_ascii_printable_with_escape _); [|apply keeps_ret].
    apply keeps_and_then; [apply keeps_lift | intros ?; apply keeps_raise].
Qed.

Lemma literal_value_frame (P : State -> Prop) lit p code :
  keeps P (literal_value lit p code).
Proof.
  destruct lit; simpl.
  - destruct (literal_to_bin _); [apply keeps_ret | apply keeps_raise].
  - apply keeps_ret.
  - apply keeps_and_then; [apply keeps_lift | intros ?; apply keeps_ret].
  - apply keeps_and_then; [apply keeps_get_state|]. intros s0.
    destruct (dict_get _ _); [apply keeps_ret | apply keeps_raise].
  - destruct (literal_to_bin _); [apply keeps_ret | apply keeps_raise].
Qed.

Lemma declare_globals_frame (P : State -> Prop) tree :
  ignores_globals P -> ignores_memory P -> keeps P (_declare_globals tree).
Proof.
  intros Hg Hm. unfold _declare_globals. destruct (globalsdecl tree); [|apply keeps_ret].
  apply keeps_for_each. intros g.
  apply keeps_and_then; [apply keeps_get_state|]. intros s0.
  destruct (list_in _ _); [apply keeps_raise|].
  apply keeps_and_then.
  { apply keeps_for_each. intros [function_name info].
    destruct (list_in _ _); [apply keeps_raise | apply keeps_ret]. }
  intros _. apply keeps_and_then; [apply keeps_modify; intros; apply Hg; assumption|].
  intros _. apply keeps_and_then; [apply literal_value_frame|]. intros value.
  apply keeps_and_then; [apply keeps_get_variable_address|]. intros address.
  apply keeps_set_memory; intros; apply Hm; assumption.
Qed.

Lemma check_main_function_frame (P : State -> Prop) : keeps P _check_main_function.
Proof.
  unfold _check_main_function.
  apply keeps_and_then; [apply keeps_get_state|]. intros s0.
  destruct (dict_get _ _); [|apply keeps_raise].
  destruct (_ =? _); [apply keeps_ret | apply keeps_raise].
Qed.

Lemma list_in_In (x : string) (l : list string) : list_in x l = true <-> In x l.
Proof.
  induction l as [|y l IH]; simpl; [split; [discriminate | contradiction]|].
  rewrite orb_true_iff, IH, String.eqb_eq. tauto.
Qed.

Lemma list_in_not_In (x : string) (l : list string) : list_in x l = false <-> ~ In x l.
Proof.
  rewrite <- list_in_In. destruct (list_in x l); split; congruence.
Qed.

Lemma dict_in_keys {V} (d : list (string * V)) (k : string) :
  dict_in d k = true <-> In k (map fst d).
Proof.
  unfold dict_in. induction d as [|[k' v] d IH]; simpl.
  - split; [discriminate | contradiction].
  - destruct (String.eqb_spec k' k) as [->|Hne].
    + split; [left; reflexivity | reflexivity].
    + rewrite IH. split; [right; assumption | intros [H|H]; [contradiction | assumption]].
Qed.

Lemma dict_set_absent {V} (d : list (string * V)) (k : string) (v : V) :
  dict_in d k = false -> dict_set d k v = d ++ [(k, v)].
Proof.
  unfold dict_in. induction d as [|[k' v'] d IH]; simpl; [reflexivity|].
  destruct (String.eqb k' k); [discriminate|]. intros H. f_equal. apply IH, H.
Qed.

Lemma dict_get_In {V} (d : list (string * V)) (k : string) (v : V) :
  NoDup (map fst d) -> In (k, v) d -> dict_get d k = Some v.
Proof.
  induction d as [|[k' v'] d IH]; simpl; [contradiction|].
  intros Hnd [H|H].
  - injection H as -> ->. rewrite String.eqb_refl. reflexivity.
  - apply NoDup_cons in Hnd as [Hnot Hnd].
    destruct (String.eqb_spec k' k) as [->|Hne].
    + exfalso. apply Hnot, list_elem_of_In.
      change k with (fst (k, v)). apply in_map, H.
    + apply IH; assumption.
Qed.

(** The loop that looks for a name twice in a list. *)
Lemma no_duplicate_loop (l : list string) (error : string -> exn) :
  forall i s s',
    for_enumerate i l
      (fun _ x rest => if list_in x rest then raise (error x) else ret tt) s = Ok tt s' ->
    NoDup l /\ s' = s.
Proof.
  induction l as [|x l IH]; intros i s s' E.
  - injection E as <-. split; [constructor | reflexivity].
  - simpl in E. unfold and_then in E.
    destruct (list_in x l) eqn:Ex; simpl in E; [discriminate|].
    destruct (IH _ _ _ E) as [Hnd ->].
    split; [|reflexivity].
    constructor; [rewrite list_elem_of_In; apply list_in_not_In, Ex | exact Hnd].
Qed.

Lemma read_function_result name parameters blk p (s s' : State) :
  _read_function name parameters blk p s = Ok tt s' ->
  dict_in (functions_infos s) name = false /\ NoDup parameters /\
  functions_infos s'
  = functions_infos s ++ [(name, {| fi_parameters := parameters; fi_tree := blk;
                                    fi_position := p |})].
Proof.
  unfold _read_function, and_then, get_state. simpl.
  destruct (dict_in (functions_infos s) name) eqn:Ein; simpl; [discriminate|].
  destruct (for_enumerate 0 parameters _ s) as [[] s1|] eqn:Eloop; simpl; [|discriminate].
  destruct (no_duplicate_loop parameters
              (fun x => Exec (SameParametersNameFunctionError p name x)) _ _ _ Eloop)
    as [Hnd ->].
  intros [= <-]. split; [reflexivity|]. split; [exact Hnd|]. simpl.
  apply dict_set_absent, Ein.
Qed.

Lemma read_structs_and_functions_result (ds : list decl) :
  forall s s',
    for_each ds (fun d =>
      match d with
      | structdecl structure_name fields p => _read_structure structure_name fields p
      | fundecl function_name parameters blk p =>
          _read_function function_name parameters blk p
      end) s = Ok tt s' ->
    NoDup (map fst (functions_infos s)) ->
    functions_infos s' = functions_infos s ++ declared_functions ds /\
    NoDup (map fst (functions_infos s')) /\
    Forall (fun f => NoDup (fi_parameters (snd f))) (declared_functions ds).
Proof.
  induction ds as [|d ds IH]; intros s s' E Hnd.
  - injection E as <-. simpl. rewrite app_nil_r. repeat split; [exact Hnd | constructor].
  - simpl in E. unfold and_then in E.
    destruct d as [name fields p|name parameters blk p].
    + destruct (_read_structure name fields p s) as [[] s1|] eqn:E1; simpl in E;
        [|discriminate].
      assert (Hsame : functions_infos s1 = functions_infos s).
      { apply (read_structure_frame (fun s0 => functions_infos s0 = functions_infos s)
                 name fields p) with (s := s) (a := tt); [|exact E1 | reflexivity].
        split; intros; assumption. }
      destruct (IH _ _ E ltac:(rewrite Hsame; exact Hnd)) as (Ht & Hnd' & Hp).
      rewrite Hsame in Ht. repeat split; assumption.
    + destruct (_read_function name parameters blk p s) as [[] s1|] eqn:E1; simpl in E;
        [|discriminate].
      destruct (read_function_result _ _ _ _ _ _ E1) as (Hnew & Hparams & Htable).
      assert (Hnd1 : NoDup (map fst (functions_infos s1))).
      { rewrite Htable, map_app. simpl. apply NoDup_app. split; [exact Hnd|]. split.
        - intros x Hx Hx'. apply list_elem_of_In in Hx, Hx'.
          destruct Hx' as [<-|[]]. apply dict_in_keys in Hx. congruence.
        - apply NoDup_singleton. }
      destruct (IH _ _ E Hnd1) as (Ht & Hnd' & Hp).
      rewrite Htable, <- app_assoc in Ht.
      split; [exact Ht|]. split; [exact Hnd'|].
      simpl. constructor; [exact Hparams | exact Hp].
Qed.

Lemma function_table_of_loaded_program (tree : prog) (input : list string) (s : State) :
  SynCProgram tree (fresh input) = Ok tt s ->
  functions_infos s = declared_functions (decls tree) /\
  NoDup (map fst (declared_functions (decls tree))) /\
  (forall name parameters blk p,
     In (fundecl name parameters blk p) (decls tree) ->
     NoDup parameters /\
     dict_get (functions_infos s) name
     = Some {| fi_parameters := parameters; fi_tree := blk; fi_position := p |}).
Proof.
  intros E. unfold SynCProgram, load_before_main_check, and_then in E.
  destruct (_read_structs_and_functions tree (fresh input)) as [[] s1|] eqn:E1;
    simpl in E; [|discriminate].
  destruct (_search_for_static_strings tree s1) as [[] s2|] eqn:E2; simpl in E;
    [|discriminate].
  destruct (_search_int_char_float_errors tree s2) as [[] s3|] eqn:E3; simpl in E;
    [|discriminate].
  destruct (_declare_globals tree s3) as [[] s4|] eqn:E4; simpl in E; [|discriminate].
  destruct (read_structs_and_functions_result _ _ _ E1 ltac:(constructor))
    as (Htable & Hnd & Hparams). simpl in Htable.
  set (Q := fun s0 : State => functions_infos s0 = declared_functions (decls tree)).
  assert (H2 : Q s2).
  { apply (search_for_static_strings_frame Q tree) with (s := s1) (a := tt);
      [split; intros; assumption | intros ? ? ?; assumption | exact E2 | exact Htable]. }
  assert (H3 : Q s3).
  { apply (search_int_char_float_errors_frame Q tree) with (s := s2) (a := tt);
      assumption. }
  assert (H4 : Q s4).
  { apply (declare_globals_frame Q tree) with (s := s3) (a := tt);
      [intros ? ? ?; assumption | intros ? ? ?; assumption | exact E4 | exact H3]. }
  assert (H5 : Q s).
  { apply (check_main_function_frame Q) with (s := s4) (a := tt); assumption. }
  unfold Q in H5. rewrite H5 in *. rewrite Htable in Hnd.
  split; [reflexivity|]. split; [exact Hnd|].
  intros name parameters blk p Hin.
  assert (Hdecl : In (name, {| fi_parameters := parameters; fi_tree := blk;
                                fi_position := p |})
                     (declared_functions (decls tree))).
  { unfold declared_functions. apply in_flat_map.
    exists (fundecl name parameters blk p). split; [exact Hin | left; reflexivity]. }
  split.
  - rewrite Forall_forall in Hparams.
    apply (Hparams _ (proj2 (list_elem_of_In _ _) Hdecl)).
  - apply dict_get_In; assumption.
Qed.

(** X14. After a load that raises nothing, the function table is the list
    of the declared functions in the order of their declarations: the
    names are pairwise different, no function has two parameters of the
    same name, and looking a declared function up gives its declared
    parameters, body and position. *)
Theorem loaded_function_table (tree : prog) (input : list string) (s : State) :
  SynCProgram tree (fresh input) = Ok tt s ->
  functions_infos s = declared_functions (decls tree) /\
  NoDup (map fst (declared_functions (decls tree))) /\
  (forall name parameters blk p,
     In (fundecl name parameters blk p) (decls tree) ->
     NoDup parameters /\
     dict_get (functions_infos s) name
     = Some {| fi_parameters := parameters; fi_tree := blk; fi_position := p |}).
Proof. exact (function_table_of_loaded_program tree input s). Qed.

Lemma loaded_function_table_witness :
  exists s,
    SynCProgram bare_call (fresh []) = Ok tt s /\
    map fst (functions_infos s) = ["g"; "f"; "main"]%string.
Proof.
  destruct (SynCProgram bare_call (fresh [])) as [[] s|e s] eqn:E.
  - exists s. split; [reflexivity|].
    destruct (loaded_function_table bare_call [] s E) as [-> _]. reflexivity.
  - vm_compute in E. discriminate E.
Defined.

(** X15. A program that loads declares a function [main], and the table
    holds it with no parameter. *)
Theorem loaded_program_has_main (tree : prog) (input : list string) (s : State) :
  SynCProgram tree (fresh input) = Ok tt s ->
  declares_main tree = true /\
  exists info, dict_get (functions_infos s) "main" = Some info /\
               fi_parameters info = [].
Proof.
  intros E. unfold SynCProgram, and_then in E.
  destruct (load_before_main_check tree (fresh input)) as [[] s1|] eqn:E1; simpl in E;
    [|discriminate].
  unfold _check_main_function, and_then, get_state in E. simpl in E.
  destruct (dict_get (functions_infos s1) "main") as [info|] eqn:Emain; [|discriminate].
  destruct (Z.eqb_spec (len (fi_parameters info)) 0) as [Hlen|]; [|discriminate].
  injection E as <-. split.
  - destruct (declares_main tree) eqn:Ed; [reflexivity|].
    pose proof (load_before_main_check_keeps tree Ed _ _ _ E1 eq_refl) as Hnone.
    unfold no_main_registered in Hnone. congruence.
  - exists info. split; [exact Emain|].
    destruct (fi_parameters info); [reflexivity | unfold len in Hlen; simpl in Hlen; lia].
Qed.

Lemma loaded_program_has_main_witness :
  exists s info,
    SynCProgram scenario_C (fresh []) = Ok tt s /\
    dict_get (functions_infos s) "main" = Some info /\ fi_parameters info = [].
Proof.
  destruct (SynCProgram scenario_C (fresh [])) as [[] s|e s] eqn:E.
  - destruct (loaded_program_has_main scenario_C [] s E) as [_ (info & H1 & H2)].
    exists s, info. split; [reflexivity|]. split; assumption.
  - vm_compute in E. discriminate E.
Defined.

(** The loop that looks for the global among the parameters of the
    functions. *)
Lemma parameter_clash_loop (variable : string) (p : position)
    (table : list (string * function_info)) :
  forall s s',
    for_each table (fun '(function_name, info) =>
      if list_in variable (fi_parameters info)
      then raise (Exec (GlobalVariableAndFunctionParameterWithSameNameError
                          p variable function_name))
      else ret tt) s = Ok tt s' ->
    s' = s /\
    Forall (fun f => ~ In variable (fi_parameters (snd f))) table.
Proof.
  induction table as [|[function_name info] table IH]; intros s s' E.
  - injection E as <-. split; [reflexivity | constructor].
  - simpl in E. unfold and_then in E.
    destruct (list_in variable (fi_parameters info)) eqn:Ein; simpl in E; [discriminate|].
    destruct (IH _ _ E) as [-> Hrest]. split; [reflexivity|].
    constructor; [apply list_in_not_In, Ein | exact Hrest].
Qed.

Lemma declare_globals_result (gs : list globalaffect) (ds : list decl) :
  forall s s',
    _declare_globals {| globalsdecl := Some gs; decls := ds |} s = Ok tt s' ->
    global_variables s' = global_variables s ++ map ga_variable gs /\
    functions_infos s' = functions_infos s /\
    (NoDup (global_variables s) -> NoDup (global_variables s')) /\
    Forall (fun g => Forall (fun f => ~ In (ga_variable g) (fi_parameters (snd f)))
                            (functions_infos s)) gs.
Proof.
  induction gs as [|g gs IH]; intros s s' E.
  - injection E as <-. simpl. rewrite app_nil_r. repeat split; [tauto | constructor].
  - unfold _declare_globals in E. simpl in E. unfold and_then at 1 in E.
    unfold and_then at 1 in E. unfold get_state in E. simpl in E.
    destruct (list_in (ga_variable g) (global_variables s)) eqn:Enew; simpl in E;
      [discriminate|].
    unfold and_then at 1 in E.
    destruct (for_each (functions_infos s) _ s) as [[] s0|] eqn:Eclash; simpl in E;
      [|discriminate].
    destruct (parameter_clash_loop _ _ _ _ _ Eclash) as [-> Hclash].
    unfold and_then at 1 in E. unfold modify at 1 in E. simpl in E.
    set (s1 := set_global_variables s (global_variables s ++ [ga_variable g])) in *.
    unfold and_then at 1 in E.
    destruct (literal_value (ga_value g) (ga_position g) 0 s1) as [value s2|] eqn:Evalue;
      simpl in E; [|discriminate].
    unfold and_then at 1 in E.
    destruct (_get_variable_address (ga_variable g) (ga_position g) s2)
      as [address s3|] eqn:Eaddress; simpl in E; [|discriminate].
    destruct (_set_memory address value (ga_position g) s3) as [[] s4|] eqn:Eset;
      simpl in E; [|discriminate].
    set (Q := fun s0 : State => global_variables s0 = global_variables s1 /\
                                functions_infos s0 = functions_infos s1).
    assert (H2 : Q s2).
    { apply (literal_value_frame Q _ _ _ _ _ _ Evalue). split; reflexivity. }
    assert (H3 : Q s3).
    { apply (keeps_get_variable_address Q _ _ _ _ _ Eaddress H2). }
    assert (H4 : Q s4).
    { apply (keeps_set_memory Q address value (ga_position g)) with (s := s3) (a := tt);
        [intros ? ? ?; assumption | exact Eset | exact H3]. }
    destruct H4 as [Hg4 Hf4].
    change (_declare_globals {| globalsdecl := Some gs; decls := ds |} s4 = Ok tt s') in E.
    destruct (IH _ _ E) as (Hg & Hf & Hnd & Hparams).
    rewrite Hg4 in Hg, Hnd. rewrite Hf4 in Hf, Hparams. simpl in Hg, Hf, Hnd, Hparams.
    split; [rewrite Hg, <- app_assoc; reflexivity|].
    split; [exact Hf|]. split.
    + intros Hnd0. apply Hnd. apply NoDup_app. split; [exact Hnd0|]. split.
      * intros x Hx Hx'. apply list_elem_of_In in Hx, Hx'. destruct Hx' as [<-|[]].
        apply list_in_not_In in Enew. contradiction.
      * apply NoDup_singleton.
    + constructor; [exact Hclash | exact Hparams].
Qed.

(** X16. After a load that raises nothing, the global variables are the
    names of the globals block in its order, pairwise different, and none
    of them is the name of a parameter of a declared function. *)
Theorem loaded_globals (tree : prog) (input : list string) (s : State) :
  SynCProgram tree (fresh input) = Ok tt s ->
  global_variables s = declared_globals tree /\
  NoDup (declared_globals tree) /\
  (forall g name parameters blk p,
     In g (declared_globals tree) ->
     In (fundecl name parameters blk p) (decls tree) ->
     ~ In g parameters).
Proof.
  intros E. pose proof (function_table_of_loaded_program tree input s E) as (Htable & _ & _).
  unfold SynCProgram, load_before_main_check, and_then in E.
  destruct (_read_structs_and_functions tree (fresh input)) as [[] s1|] eqn:E1;
    simpl in E; [|discriminate].
  destruct (_search_for_static_strings tree s1) as [[] s2|] eqn:E2; simpl in E;
    [|discriminate].
  destruct (_search_int_char_float_errors tree s2) as [[] s3|] eqn:E3; simpl in E;
    [|discriminate].
  destruct (_declare_globals tree s3) as [[] s4|] eqn:E4; simpl in E; [|discriminate].
  set (Q := fun s0 : State => global_variables s0 = []).
  assert (H1 : Q s1).
  { apply (read_structs_and_functions_frame Q tree) with (s := fresh input) (a := tt);
      [split; intros; assumption | intros ? ? ?; assumption | exact E1 | reflexivity]. }
  assert (H2 : Q s2).
  { apply (search_for_static_strings_frame Q tree) with (s := s1) (a := tt);
      [split; intros; assumption | intros ? ? ?; assumption | exact E2 | exact H1]. }
  assert (H3 : Q s3).
  { apply (search_int_char_float_errors_frame Q tree) with (s := s2) (a := tt);
      assumption. }
  assert (Hs : global_variables s = global_variables s4 /\
               functions_infos s = functions_infos s4).
  { apply (check_main_function_frame
             (fun s0 => global_variables s0 = global_variables s4 /\
                        functions_infos s0 = functions_infos s4))
      with (s := s4) (a := tt); [exact E | split; reflexivity]. }
  destruct Hs as [Hgs Hfs]. unfold Q in H3. unfold declared_globals.
  destruct tree as [[gs|] ds]; simpl in *.
  - destruct (declare_globals_result gs ds _ _ E4) as (Hg & Hf & Hnd & Hparams).
    rewrite H3 in Hg, Hnd. simpl in Hg. rewrite <- Hg, <- Hgs.
    split; [reflexivity|]. split; [rewrite Hgs; apply Hnd; constructor|].
    intros g name parameters blk p Hg_in Hdecl Hclash.
    rewrite <- Hf, <- Hfs, Htable in Hparams.
    rewrite Hgs, Hg in Hg_in. apply in_map_iff in Hg_in as (ga & <- & Hga).
    rewrite Forall_forall in Hparams.
    specialize (Hparams ga (proj2 (list_elem_of_In _ _) Hga)).
    rewrite Forall_forall in Hparams.
    apply (Hparams (name, {| fi_parameters := parameters; fi_tree := blk;
                             fi_position := p |})); [|exact Hclash].
    apply list_elem_of_In. unfold declared_functions. apply in_flat_map.
    exists (fundecl name parameters blk p). split; [exact Hdecl | left; reflexivity].
  - injection E4 as <-. rewrite Hgs, H3.
    split; [reflexivity|]. split; [constructor | intros; contradiction].
Qed.

Lemma loaded_globals_witness :
  exists s,
    SynCProgram two_globals (fresh []) = Ok tt s /\
    global_variables s = ["a"; "b"]%string.
Proof.
  destruct (SynCProgram two_globals (fresh [])) as [[] s|e s] eqn:E.
  - exists s. split; [reflexivity|].
    destruct (loaded_globals two_globals [] s E) as [-> _]. reflexivity.
  - vm_compute in E. discriminate E.
Defined.

End loading_more.

(* ===================================================================== *)
(** ** What execution leaves alone *)
(* ===================================================================== *)

Lemma memory_blind_get {V} (view : State -> V) :
  (forall s v, view (set_memory s v) = view s) ->
  forall address p, M_steady view (_get_memory address p).
Proof.
  intros view_memory address p s. unfold _get_memory. destruct (_ || _); [reflexivity|].
  destruct (memory s !! address); [reflexivity | apply view_memory].
Qed.

Lemma memory_blind_set {V} (view : State -> V) :
  (forall s v, view (set_memory s v) = view s) ->
  forall address value p, M_steady view (_set_memory address value p).
Proof.
  intros view_memory address value p s. unfold _set_memory.
  destruct (_ || _); [reflexivity|].
  destruct (_ <? _); [reflexivity | apply view_memory].
Qed.

Section engine_frame.

(** A view of the state that no read and no write of the memory changes,
    and that does not look at the heap list, the frames of locals, the
    input or the outputs. *)
Variable V : Type.
Variable view : State -> V.
Hypothesis M_steady_get_memory :
  forall address p, M_steady view (_get_memory address p).
Hypothesis M_steady_set_memory :
  forall address value p, M_steady view (_set_memory address value p).
Hypothesis view_heap : forall s v, view (set_memory_heap s v) = view s.
Hypothesis view_locals : forall s v, view (set_local_variables s v) = view s.
Hypothesis view_buffer : forall s v, view (set_input_buffer s v) = view s.
Hypothesis view_stdin : forall s v, view (set_stdin s v) = view s.
Hypothesis view_stdout : forall s v, view (set_stdout s v) = view s.
Hypothesis view_stderr : forall s v, view (set_stderr s v) = view s.

(** *** Methods *)

Lemma M_steady_ret {A} (a : A) : M_steady view (ret a).
Proof. intros s. reflexivity. Qed.

Lemma M_steady_raise {A} (e : exn) : M_steady view (@raise A e).
Proof. intros s. reflexivity. Qed.

Lemma M_steady_lift {A} (r : exn + A) : M_steady view (lift r).
Proof. intros s. destruct r; reflexivity. Qed.

Lemma M_steady_and_then {A B} (m : M A) (f : A -> M B) :
  M_steady view m -> (forall a, M_steady view (f a)) -> M_steady view (and_then m f).
Proof.
  intros Hm Hf s. unfold and_then. specialize (Hm s).
  destruct (m s) as [a s1|e s1]; simpl; [|exact Hm].
  specialize (Hf a s1). destruct (f a s1); congruence.
Qed.

Lemma M_steady_bind {A B} (m : M A) (f : A -> M B) :
  M_steady view m -> (forall a, M_steady view (f a)) ->
  M_steady view (fun s => bind (m s) f).
Proof. exact (M_steady_and_then m f). Qed.

Lemma M_steady_for_enumerate {A} (l : list A) (body : Z -> A -> list A -> M unit) :
  (forall i x rest, M_steady view (body i x rest)) ->
  forall i, M_steady view (for_enumerate i l body).
Proof.
  intros Hb. induction l as [|x l IH]; intros i; simpl.
  - apply M_steady_ret.
  - apply M_steady_and_then; [apply Hb | intros _; apply IH].
Qed.

Lemma M_steady_malloc size p : M_steady view (_malloc size p).
Proof.
  intros s. unfold _malloc. destruct (_ <=? _); [reflexivity|].
  destruct (malloc_choice size s) as [address index].
  destruct (negb _); [reflexivity | apply view_heap].
Qed.

Lemma M_steady_free pointer p : M_steady view (_free pointer p).
Proof.
  intros s. unfold _free. destruct (free_scan _ _ _); [apply view_heap | reflexivity].
Qed.

Lemma M_steady_get_variable_address variable p :
  M_steady view (_get_variable_address variable p).
Proof.
  intros s. unfold _get_variable_address.
  destruct (list_index _ (global_variables s)); [reflexivity|].
  destruct (last_item _); [|reflexivity].
  destruct (list_index _ _); reflexivity.
Qed.

Lemma M_steady_push_frame parameters p : M_steady view (push_frame parameters p).
Proof.
  intros s. unfold push_frame. destruct (negb _); [|apply view_locals].
  destruct (last_item parameters); apply view_locals.
Qed.

Lemma M_steady_pop_frame : M_steady view pop_frame.
Proof.
  intros s. unfold pop_frame. destruct (local_variables s); [reflexivity|].
  apply view_locals.
Qed.

Lemma M_steady_literal_value lit p code : M_steady view (literal_value lit p code).
Proof.
  intros s. destruct lit; simpl; try reflexivity.
  - destruct (literal_to_bin _); reflexivity.
  - unfold loader.and_then, lift. destruct (char_to_bin text); reflexivity.
  - unfold loader.and_then, get_state. simpl. destruct (dict_get _ _); reflexivity.
  - destruct (literal_to_bin _); reflexivity.
Qed.

Lemma M_steady_repeat_until {A R} (budget : positive) (step : A -> M (A + R)) :
  (forall a, M_steady view (step a)) ->
  forall a, M_steady view (repeat_until budget step a).
Proof.
  intros Hstep. induction budget as [budget IH|budget IH|]; intros a s; simpl.
  - specialize (Hstep a s). destruct (step a s) as [[a'|r] s1|e s1]; try exact Hstep.
    pose proof (IH a' s1) as H1.
    destruct (repeat_until budget step a' s1) as [[a''|r] s2|e s2]; try congruence.
    pose proof (IH a'' s2) as H2.
    destruct (repeat_until budget step a'' s2); congruence.
  - pose proof (IH a s) as H1.
    destruct (repeat_until budget step a s) as [[a'|r] s1|e s1]; try exact H1.
    pose proof (IH a' s1) as H2.
    destruct (repeat_until budget step a' s1); congruence.
  - apply Hstep.
Qed.

Lemma M_steady_get_string_from_address address p :
  M_steady view (_get_string_from_address address p).
Proof.
  intros s. unfold _get_string_from_address.
  pose proof (M_steady_repeat_until (R := string) (Z.to_pos MEMORY_SIZE)
    (fun '(address, text) s =>
       bind (_get_memory address p s) (fun word s =>
       bind (lift (py_bin_to_char word p) s) (fun c s =>
       if Ascii.eqb c (ascii_of_nat 0) then Ok (inr text) s
       else Ok (inl (address + 1, (text ++ String c EmptyString)%string)) s)))) as H.
  match type of H with ?Hyp -> _ => assert (Hstep : Hyp) end.
  { intros [a text]. apply M_steady_bind; [apply M_steady_get_memory|]. intros word.
    apply M_steady_bind; [apply M_steady_lift|]. intros c s0.
    destruct (Ascii.eqb c _); reflexivity. }
  specialize (H Hstep (address, EmptyString) s).
  destruct (repeat_until _ _ _ s) as [[?|?] ?|? ?]; exact H.
Qed.

Lemma M_steady_set_string_to_address text address p :
  M_steady view (_set_string_to_address text address p).
Proof.
  unfold _set_string_to_address.
  apply M_steady_and_then; [apply M_steady_set_memory|]. intros _.
  apply M_steady_for_enumerate. intros. apply M_steady_set_memory.
Qed.

Lemma M_steady_print to_stdout value : M_steady view (print to_stdout value).
Proof.
  intros s. unfold print. destruct (py_str value); [reflexivity|].
  destruct to_stdout; [apply view_stdout | apply view_stderr].
Qed.

Lemma M_steady_print_parameters function_name binary_parameters p :
  forall type, M_steady view (print_parameters function_name type binary_parameters p).
Proof.
  induction binary_parameters as [|parameter rest IH]; intros type.
  - apply M_steady_ret.
  - cbn [print_parameters].
    destruct (match parameter with VStr t => _ | _ => false end).
    + destruct type; [apply M_steady_raise|].
      destruct parameter; try apply M_steady_raise. apply IH.
    + apply M_steady_and_then.
      * repeat first
          [ apply M_steady_lift | apply M_steady_ret | apply M_steady_raise
          | apply M_steady_get_string_from_address
          | apply M_steady_and_then; [|intros ?]
          | match goal with
            | |- M_steady _ (match ?x with _ => _ end) => destruct x
            end ].
      * intros value. apply M_steady_and_then; [apply M_steady_print|].
        intros _. apply IH.
Qed.

Lemma M_steady_read_bits lines : forall bin, M_steady view (read_bits lines bin).
Proof.
  induction lines as [|line lines IH]; intros bin s; simpl.
  - destruct (_ <? _); apply view_buffer.
  - destruct (_ <? _); [|apply view_buffer].
    match goal with |- match read_bits lines ?b ?s0 with _ => _ end =>
      pose proof (IH b s0) as H; destruct (read_bits lines b s0) end.
    + rewrite H, view_stdin, view_buffer, view_buffer. reflexivity.
    + rewrite H, view_stdin, view_buffer, view_buffer. reflexivity.
Qed.

Lemma M_steady_READ : M_steady view READ.
Proof.
  intros s. unfold READ. pose proof (M_steady_read_bits (stdin s) [] s) as H.
  destruct (read_bits (stdin s) [] s) as [bin s1|e s1]; simpl; [|exact H].
  destruct (int_base2 bin); simpl; exact H.
Qed.

(** *** Generators *)

Lemma steady_bind {A B} (g : gen A) (f : A -> G B) :
  (forall a, G_steady view (f a)) ->
  forall v, steady view v g -> steady view v (gen_bind g f).
Proof.
  intros Hf. induction g as [a s|e s|elementary value p s resume IH|]; intros v Hg; simpl.
  - simpl in Hg. rewrite <- Hg. apply Hf.
  - exact Hg.
  - destruct Hg as [Hs Hresume]. split; [exact Hs|]. intros s'. apply IH, Hresume.
  - exact I.
Qed.

Lemma G_steady_then {A B} (m : G A) (f : A -> G B) :
  G_steady view m -> (forall a, G_steady view (f a)) -> G_steady view (g_then m f).
Proof. intros Hm Hf s. apply steady_bind; [exact Hf | apply Hm]. Qed.

Lemma G_steady_done {A} (a : A) : G_steady view (done a).
Proof. intros s. reflexivity. Qed.

Lemma G_steady_throw {A} (e : exn) : G_steady view (@throw A e).
Proof. intros s. reflexivity. Qed.

Lemma G_steady_current_state : G_steady view current_state.
Proof. intros s. reflexivity. Qed.

Lemma G_steady_method {A} (m : M A) : M_steady view m -> G_steady view (method m).
Proof. intros Hm s. unfold method. specialize (Hm s). destruct (m s); exact Hm. Qed.

Lemma G_steady_pure {A} (r : exn + A) : G_steady view (pure r).
Proof. apply G_steady_method, M_steady_lift. Qed.

Lemma G_steady_yield elementary value p : G_steady view (yield elementary value p).
Proof. intros s. split; [reflexivity | intros s'; reflexivity]. Qed.

Lemma steady_forward_value (g : gen unit) :
  forall v binary_value, steady view v g -> steady view v (forward_value g binary_value).
Proof.
  induction g as [a s|e s|elementary value p s resume IH|]; intros v b Hg; simpl;
    try exact Hg.
  destruct Hg as [Hs Hresume]. split; [exact Hs|]. intros s'. apply IH, Hresume.
Qed.

Lemma steady_forward_elementary (g : gen unit) :
  forall v binary_value,
    steady view v g -> steady view v (forward_elementary g binary_value).
Proof.
  induction g as [a s|e s|elementary value p s resume IH|]; intros v b Hg; simpl;
    try exact Hg.
  destruct Hg as [Hs Hresume]. destruct elementary.
  - split; [exact Hs|]. intros s'. apply IH, Hresume.
  - apply IH. rewrite <- Hs. apply Hresume.
Qed.

Lemma steady_forward_loop_body (g : gen unit) :
  forall v, steady view v g -> steady view v (forward_loop_body g).
Proof.
  induction g as [a s|e s|elementary value p s resume IH|]; intros v Hg;
    try exact Hg.
  destruct Hg as [Hs Hresume].
  assert (Hon : steady view v
                  (Yield elementary value p s (fun s' => forward_loop_body (resume s')))).
  { split; [exact Hs|]. intros s'. apply IH, Hresume. }
  assert (Hstop : forall exit : loop_exit, steady view v
                    (Yield elementary VNone p s (fun s' => Return exit s'))).
  { intros exit. split; [exact Hs|]. intros s'. reflexivity. }
  cbn [forward_loop_body].
  repeat match goal with
         | |- steady _ _ (match ?x with _ => _ end) => destruct x
         end; first [exact Hon | apply Hstop].
Qed.

Lemma steady_forward_function_body (g : gen unit) :
  forall v, steady view v g -> steady view v (forward_function_body g).
Proof.
  induction g as [a s|e s|elementary value p s resume IH|]; intros v Hg;
    try exact Hg.
  destruct Hg as [Hs Hresume]. cbn [forward_function_body].
  destruct value; try (split; [exact Hs|]; intros s'; apply IH, Hresume).
  split; [exact Hs|]. intros s'. reflexivity.
Qed.

Lemma G_steady_value_of (g : G unit) : G_steady view g -> G_steady view (value_of g).
Proof. intros Hg s. apply steady_forward_value, Hg. Qed.

Lemma G_steady_update (f : State -> State) :
  (forall s, view (f s) = view s) -> G_steady view (update f).
Proof. intros Hf s. apply Hf. Qed.

Lemma G_steady_undeclared variable : G_steady view (undeclared variable).
Proof.
  unfold undeclared. apply G_steady_then; [apply G_steady_current_state|]. intros s0.
  repeat match goal with
         | |- G_steady _ (if ?b then _ else _) => destruct b
         | |- G_steady _ (match ?x with _ => _ end) => destruct x
         | _ => first [apply G_steady_done | apply G_steady_throw]
         end.
Qed.

Lemma G_steady_append_local variable : G_steady view (append_local variable).
Proof.
  apply G_steady_update. intros s. destruct (last_item _); [apply view_locals | reflexivity].
Qed.

(** *** Executors and the position of their node *)

Lemma steady_track {A} (g : gen A) :
  forall v p, steady view v g -> steady view v (track g p).
Proof.
  induction g as [a s|e s|elementary value q s resume IH|]; intros v p Hg; simpl in *;
    try exact Hg.
  destruct Hg as [Hs Hresume]. split; [exact Hs|]. intros s'. apply IH, Hresume.
Qed.

Lemma E_steady_at_node {A} (f : position -> G A) :
  (forall p, G_steady view (f p)) -> E_steady view (at_node f).
Proof. intros Hf p s. apply steady_track, Hf. Qed.

Lemma E_steady_steps_of {A} (m : G A) : G_steady view m -> E_steady view (steps_of m).
Proof. intros Hm. apply E_steady_at_node. intros _. exact Hm. Qed.

Lemma E_steady_done {A} (a : A) : E_steady view (e_done a).
Proof. apply E_steady_at_node. intros _. apply G_steady_done. Qed.

Lemma E_steady_starved {A} : E_steady view (@e_starved A).
Proof. intros p s. exact I. Qed.

Lemma E_steady_then {A B} (m : E A) (f : A -> E B) :
  E_steady view m -> (forall a, E_steady view (f a)) -> E_steady view (e_then m f).
Proof.
  intros Hm Hf p. apply (G_steady_then (m p) (fun r => f (fst r) (snd r))).
  - apply Hm.
  - intros r. apply Hf.
Qed.

Lemma G_steady_start {A} (p : position) (m : E A) :
  E_steady view m -> G_steady view (start p m).
Proof.
  intros Hm. apply (G_steady_then (m p) (fun r => done (fst r))).
  - apply Hm.
  - intros r. apply G_steady_done.
Qed.

(** *** The executors, given that the recursive calls keep the view *)

Section executors.

Variable execute_node_ : node -> G unit.
Variable execute_function_ : string -> list pyval -> G unit.
Hypothesis node_steady : forall n, G_steady view (execute_node_ n).
Hypothesis function_steady :
  forall name params, G_steady view (execute_function_ name params).

Local Ltac steady_step :=
  first
    [ apply G_steady_done | apply G_steady_throw | apply G_steady_current_state
    | apply G_steady_yield | apply G_steady_pure
    | apply G_steady_undeclared | apply G_steady_append_local
    | apply node_steady | apply function_steady
    | apply G_steady_value_of
    | apply G_steady_method
    | apply M_steady_get_memory | apply M_steady_set_memory | apply M_steady_malloc
    | apply M_steady_free | apply M_steady_get_variable_address
    | apply M_steady_literal_value | apply M_steady_READ
    | apply M_steady_print_parameters | apply M_steady_set_string_to_address
    | apply M_steady_push_frame | apply M_steady_pop_frame
    | apply G_steady_then; [|intros ?]
    | apply E_steady_done | apply E_steady_starved
    | apply E_steady_steps_of
    | apply E_steady_at_node; intros ?
    | apply E_steady_then; [|intros ?]
    | match goal with
      | |- G_steady _ (if ?b then _ else _) => destruct b
      | |- G_steady _ (match ?x with _ => _ end) => destruct x
      | |- E_steady _ (if ?b then _ else _) => destruct b
      | |- E_steady _ (match ?x with _ => _ end) => destruct x
      end ].

Lemma G_steady_loop_body blk :
  G_steady view (fun s => forward_loop_body (execute_node_ blk s)).
Proof. intros s. apply steady_forward_loop_body, node_steady. Qed.

Lemma G_steady_guard condition_node :
  G_steady view (fun s => forward_elementary (execute_node_ condition_node s) VNone).
Proof. intros s. apply steady_forward_elementary, node_steady. Qed.

Lemma E_steady_atom lit : E_steady view (_execute_atom lit).
Proof. unfold _execute_atom. destruct lit; repeat steady_step. Qed.

Lemma E_steady_affect variable expr :
  E_steady view (_execute_affect execute_node_ variable expr).
Proof. unfold _execute_affect. repeat steady_step. Qed.

Lemma E_steady_arrayaffect array index expr :
  E_steady view (_execute_arrayaffect execute_node_ array index expr).
Proof. unfold _execute_arrayaffect. repeat steady_step. Qed.

Lemma E_steady_structaffect struct field expr :
  E_steady view (_execute_structaffect execute_node_ struct field expr).
Proof. unfold _execute_structaffect. repeat steady_step. Qed.

Lemma E_steady_derefaffect pointer expr :
  E_steady view (_execute_derefaffect execute_node_ pointer expr).
Proof. unfold _execute_derefaffect. repeat steady_step. Qed.

Lemma E_steady_bracketexpr expr :
  E_steady view (_execute_bracketexpr execute_node_ expr).
Proof. unfold _execute_bracketexpr. repeat steady_step. Qed.

Lemma E_steady_binaryoperator left_expr operator right_expr :
  E_steady view (_execute_binaryoperator execute_node_ left_expr operator right_expr).
Proof. unfold _execute_binaryoperator. repeat steady_step. Qed.

Lemma E_steady_boolbinaryoperator left_expr operator right_expr :
  E_steady view
    (_execute_boolbinaryoperator execute_node_ left_expr operator right_expr).
Proof. unfold _execute_boolbinaryoperator. repeat steady_step. Qed.

Lemma E_steady_unaryoperator operator expr :
  E_steady view (_execute_unaryoperator execute_node_ operator expr).
Proof. unfold _execute_unaryoperator. repeat steady_step. Qed.

Lemma E_steady_refexpr variable : E_steady view (_execute_refexpr variable).
Proof. unfold _execute_refexpr. repeat steady_step. Qed.

Lemma E_steady_arraycall array index :
  E_steady view (_execute_arraycall execute_node_ array index).
Proof. unfold _execute_arraycall. repeat steady_step. Qed.

Lemma E_steady_structcall struct field :
  E_steady view (_execute_structcall execute_node_ struct field).
Proof. unfold _execute_structcall. repeat steady_step. Qed.

Lemma G_steady_expected_nb_parameters function_name nb p :
  G_steady view (expected_nb_parameters function_name nb p).
Proof. unfold expected_nb_parameters. repeat steady_step. Qed.

Lemma E_steady_evaluate_parameters parameters :
  E_steady view (evaluate_parameters execute_node_ parameters).
Proof.
  induction parameters as [|[token|parameter] parameters IH];
    cbn [evaluate_parameters].
  - apply E_steady_done.
  - destruct (list_in token type_names); [|repeat steady_step].
    apply E_steady_then; [exact IH | intros ?; apply E_steady_done].
  - apply E_steady_then; [repeat steady_step|]. intros ?.
    apply E_steady_then; [exact IH | intros ?; apply E_steady_done].
Qed.

Lemma G_steady_initialise_cells address values p :
  forall i, G_steady view (initialise_cells address i values p).
Proof.
  induction values as [|v values IH]; intros i; simpl.
  - apply G_steady_done.
  - apply G_steady_then; [repeat steady_step|]. intros _.
    apply G_steady_then; [apply G_steady_yield|]. intros _. apply IH.
Qed.

Lemma G_steady_call_result function_name binary_parameters p :
  G_steady view (call_result execute_function_ function_name binary_parameters p).
Proof.
  unfold call_result.
  assert (Hparameter : forall i,
            G_steady view (match nth_error binary_parameters i with
                           | Some v => done v
                           | None => throw IndexError
                           end)).
  { intros i. destruct (nth_error _ _); [apply G_steady_done | apply G_steady_throw]. }
  repeat first
    [ apply Hparameter | apply G_steady_initialise_cells
    | match goal with
      | |- G_steady _ (fun s => forward_value _ _) =>
          intros s; apply steady_forward_value, function_steady
      end
    | steady_step ].
Qed.

Lemma E_steady_call function_name parameters :
  E_steady view (_execute_call execute_node_ execute_function_ function_name parameters).
Proof.
  unfold _execute_call.
  apply E_steady_then;
    [apply E_steady_at_node; intros ?; apply G_steady_expected_nb_parameters|].
  intros expected.
  destruct (negb expected); [repeat steady_step|].
  apply E_steady_then.
  - destruct (String.eqb _ _); [|apply E_steady_evaluate_parameters].
    repeat steady_step.
  - intros binary_parameters.
    apply E_steady_then;
      [apply E_steady_at_node; intros ?; apply G_steady_call_result|].
    intros ?. apply E_steady_at_node. intros ?. apply G_steady_yield.
Qed.

Lemma E_steady_ifexpr branches else_block :
  E_steady view (_execute_ifexpr execute_node_ branches else_block).
Proof.
  induction branches as [|[condition blk] branches IH]; cbn [_execute_ifexpr].
  - destruct else_block; repeat steady_step.
  - apply E_steady_then; [repeat steady_step|]. intros ?.
    apply E_steady_then; [repeat steady_step|]. intros [|];
      [repeat steady_step | exact IH].
Qed.

Lemma E_steady_for_rounds address blk :
  forall budget end_expr,
    E_steady view (for_rounds execute_node_ budget address end_expr blk).
Proof.
  induction budget as [|budget IH]; intros end_expr; [apply E_steady_starved|].
  cbn [for_rounds].
  apply E_steady_then; [repeat steady_step|]. intros [|]; [|apply E_steady_done].
  apply E_steady_then; [apply E_steady_steps_of, G_steady_loop_body|].
  intros [| |]; try apply E_steady_done;
    (apply E_steady_then; [repeat steady_step | intros ?; apply IH]).
Qed.

Lemma E_steady_forexpr budget variable start_expr end_expr blk :
  E_steady view
    (_execute_forexpr execute_node_ budget variable start_expr end_expr blk).
Proof.
  unfold _execute_forexpr.
  repeat first [ apply E_steady_for_rounds | steady_step ].
Qed.

Lemma E_steady_whileexpr condition_node blk :
  forall budget,
    E_steady view (_execute_whileexpr execute_node_ budget condition_node blk).
Proof.
  induction budget as [|budget IH]; [apply E_steady_starved|]. cbn [_execute_whileexpr].
  apply E_steady_then; [apply E_steady_steps_of, G_steady_guard|].
  intros binary_condition.
  apply E_steady_then; [repeat steady_step|]. intros [|]; [|apply E_steady_done].
  apply E_steady_then; [apply E_steady_steps_of, G_steady_loop_body|].
  intros [| |]; first [exact IH | apply E_steady_done].
Qed.

Lemma E_steady_continuerule : E_steady view _execute_continuerule.
Proof. unfold _execute_continuerule. repeat steady_step. Qed.

Lemma E_steady_breakrule : E_steady view _execute_breakrule.
Proof. unfold _execute_breakrule. repeat steady_step. Qed.

Lemma E_steady_returnrule expr :
  E_steady view (_execute_returnrule execute_node_ expr).
Proof. unfold _execute_returnrule. repeat steady_step. Qed.

Lemma E_steady_block blockexprs : E_steady view (_execute_block execute_node_ blockexprs).
Proof.
  induction blockexprs as [|blockexpr blockexprs IH]; cbn [_execute_block].
  - apply E_steady_done.
  - apply E_steady_then; [repeat steady_step | intros _; exact IH].
Qed.

Lemma E_steady_executor_of budget n :
  E_steady view (snd (executor_of execute_node_ execute_function_ budget n)).
Proof.
  destruct n; cbn [executor_of snd].
  - apply E_steady_atom.
  - apply E_steady_affect.
  - apply E_steady_arrayaffect.
  - apply E_steady_structaffect.
  - apply E_steady_derefaffect.
  - apply E_steady_bracketexpr.
  - apply E_steady_binaryoperator.
  - apply E_steady_boolbinaryoperator.
  - apply E_steady_unaryoperator.
  - apply E_steady_refexpr.
  - apply E_steady_call.
  - apply E_steady_arraycall.
  - apply E_steady_structcall.
  - apply E_steady_ifexpr.
  - apply E_steady_forexpr.
  - apply E_steady_whileexpr.
  - apply E_steady_continuerule.
  - apply E_steady_breakrule.
  - apply E_steady_returnrule.
  - apply E_steady_block.
Qed.

Lemma G_steady_execute_function_with function_name params :
  G_steady view (execute_function_with execute_node_ function_name params).
Proof.
  unfold execute_function_with.
  apply G_steady_then; [apply G_steady_current_state|]. intros s0.
  destruct (dict_get _ _) as [info|]; [|apply G_steady_throw].
  apply G_steady_then; [repeat steady_step|]. intros _.
  apply G_steady_then.
  { destruct (fi_parameters info); [apply G_steady_done|].
    apply G_steady_then; [repeat steady_step|]. intros address0.
    apply G_steady_method, M_steady_for_enumerate. intros. apply M_steady_set_memory. }
  intros _.
  apply (G_steady_then (fun s => forward_function_body (execute_node_ (fi_tree info) s))).
  { intros s. apply steady_forward_function_body, node_steady. }
  intros _. repeat steady_step.
Qed.

End executors.

(** *** The engine itself, by induction on the depth of the calls *)

Lemma G_steady_execute_node :
  forall fuel n, G_steady view (execute_node fuel n).
Proof.
  induction fuel as [|fuel IH]; intros n; [intros s; exact I|].
  cbn [execute_node].
  pose proof (E_steady_executor_of (execute_node fuel)
                (execute_function_with (execute_node fuel)) IH
                (fun name params =>
                   G_steady_execute_function_with (execute_node fuel) IH name params)
                fuel n) as H.
  destruct (executor_of _ _ fuel n) as [p executor]. apply G_steady_start, H.
Qed.

Lemma G_steady_execute_function fuel name params :
  G_steady view (execute_function fuel name params).
Proof.
  apply G_steady_execute_function_with. intros n. apply G_steady_execute_node.
Qed.

Lemma steady_exhaust {A} (g : gen A) :
  forall v out, steady view v g -> exhaust g = Some out -> view (final_state out) = v.
Proof.
  induction g as [a s|e s|elementary value p s resume IH|]; intros v out Hg E;
    simpl in *.
  - injection E as <-. exact Hg.
  - injection E as <-. exact Hg.
  - destruct Hg as [Hs Hresume]. rewrite <- Hs. apply (IH s); [apply Hresume | exact E].
  - discriminate.
Qed.

Hypothesis view_count :
  forall s v, view (set_nb_elementary_operations s v) = view s.

Lemma steady_count_elementary (g : gen unit) :
  forall v, steady view v g -> steady view v (count_elementary g).
Proof.
  induction g as [a s|e s|elementary value p s resume IH|]; intros v Hg; simpl in *;
    try exact Hg.
  destruct Hg as [Hs Hresume]. destruct elementary; simpl.
  - split; [rewrite view_count; exact Hs|]. intros s'. apply IH, Hresume.
  - rewrite <- Hs. apply IH, Hresume.
Qed.

End engine_frame.

(* ===================================================================== *)
(** ** What a run leaves alone, and what the driver counts *)
(* ===================================================================== *)

Section engine.

Local Ltac blind :=
  first [ reflexivity
        | apply memory_blind_get; reflexivity
        | apply memory_blind_set; reflexivity ].

Lemma execute_function_keeps_loaded_program fuel name params :
  G_steady loaded_program (execute_function fuel name params).
Proof. apply G_steady_execute_function; blind. Qed.

Lemma execute_function_keeps_count fuel name params :
  G_steady nb_elementary_operations (execute_function fuel name params).
Proof. apply G_steady_execute_function; blind. Qed.

Lemma read_only_zone_get address p : M_steady read_only_zone (_get_memory address p).
Proof.
  intros s. unfold _get_memory. destruct (_ || _); [reflexivity|].
  destruct (memory s !! address) eqn:E; [reflexivity|].
  unfold read_only_zone. simpl. f_equal. apply map_ext. intros x.
  unfold cell. simpl. destruct (Z.eq_dec address x) as [<-|Hne].
  - rewrite lookup_insert_eq, E. reflexivity.
  - rewrite lookup_insert_ne by exact Hne. reflexivity.
Qed.

Lemma read_only_zone_set address value p :
  M_steady read_only_zone (_set_memory address value p).
Proof.
  intros s. unfold _set_memory. destruct (_ || _); [reflexivity|].
  destruct (Z.ltb_spec address (read_write_stack_limit s)) as [|Hge]; [reflexivity|].
  unfold read_only_zone. simpl. f_equal. apply map_ext_in. intros x Hx.
  apply list_elem_of_In, elem_of_seqZ in Hx.
  unfold cell. simpl. rewrite lookup_insert_ne by lia. reflexivity.
Qed.

Lemma execute_function_keeps_read_only_zone fuel name params :
  G_steady read_only_zone (execute_function fuel name params).
Proof.
  apply G_steady_execute_function;
    first [reflexivity | apply read_only_zone_get | apply read_only_zone_set].
Qed.

Lemma read_only_zone_cell (s s' : State) :
  read_only_zone s' = read_only_zone s ->
  read_write_stack_limit s' = read_write_stack_limit s /\
  forall address, 1 <= address < read_write_stack_limit s ->
                  cell s' address = cell s address.
Proof.
  unfold read_only_zone. intros [= Hlimit Hcells]. split; [exact Hlimit|].
  intros address Haddress. rewrite Hlimit in Hcells.
  assert (Hat : seqZ 1 (read_write_stack_limit s - 1) !! Z.to_nat (address - 1)
                = Some address).
  { rewrite lookup_seqZ. split; lia. }
  apply (f_equal (fun l => l !! Z.to_nat (address - 1))) in Hcells.
  rewrite !list_lookup_fmap, Hat in Hcells. simpl in Hcells.
  injection Hcells as Hcell. exact Hcell.
Qed.

(** X17. A run of the program, whether it ends normally or on an error of
    the embedded fragment, leaves the tables of structures and functions,
    the addresses of the static strings, the read-only limit and the list
    of globals as loading made them. *)
Theorem run_keeps_loaded_program (fuel : nat) (s : State) (out : outcome unit) :
  exhaust (main_function_iterator fuel s) = Some out ->
  inside_model out ->
  loaded_program (final_state out) = loaded_program s.
Proof.
  intros E _. unfold main_function_iterator in E.
  refine (steady_exhaust _ loaded_program _ _ _ _ E).
  apply steady_count_elementary; [reflexivity|].
  apply execute_function_keeps_loaded_program.
Qed.

Lemma run_keeps_loaded_program_witness :
  exists s0 s,
    SynCProgram scenario_C (fresh []) = Ok tt s0 /\
    exhaust (main_function_iterator 50 s0) = Some (Ok tt s) /\
    loaded_program s = loaded_program s0.
Proof.
  destruct (SynCProgram scenario_C (fresh [])) as [[] s0|e s0] eqn:E0;
    [|vm_compute in E0; discriminate E0].
  destruct (exhaust (main_function_iterator 50 s0)) as [[[] s|e s]|] eqn:E.
  - exists s0, s. split; [reflexivity|]. split; [exact E|].
    exact (run_keeps_loaded_program 50 s0 (Ok tt s) E I).
  - vm_compute in E0. injection E0 as <-. vm_compute in E. discriminate E.
  - vm_compute in E0. injection E0 as <-. vm_compute in E. discriminate E.
Defined.

Lemma counted_steps (g : gen unit) :
  forall c, steady nb_elementary_operations c g ->
    map snd (steps_seen (count_elementary g))
    = counts_from (c + 1) (length (steps_seen (count_elementary g))).
Proof.
  assert (Hshift : forall n k,
             counts_from n (S k) = n :: counts_from (n + 1) k).
  { intros n k. unfold counts_from. simpl. f_equal; [f_equal; lia|].
    rewrite <- seq_shift, map_map. apply map_ext. intros i. lia. }
  induction g as [a s|e s|elementary value p s resume IH|]; intros c Hg; simpl in *;
    try reflexivity.
  destruct Hg as [Hs Hresume]. destruct elementary; simpl.
  - rewrite Hshift. f_equal; [lia|].
    apply IH. subst c. exact (Hresume _).
  - apply IH. rewrite <- Hs. apply Hresume.
Qed.

Lemma counted_total (g : gen unit) :
  forall c out, steady nb_elementary_operations c g ->
    exhaust (count_elementary g) = Some out ->
    nb_elementary_operations (final_state out)
    = c + Z.of_nat (length (steps_seen (count_elementary g))).
Proof.
  induction g as [a s|e s|elementary value p s resume IH|]; intros c out Hg E;
    simpl in *.
  - injection E as <-. simpl. lia.
  - injection E as <-. simpl. lia.
  - destruct Hg as [Hs Hresume]. destruct elementary; simpl in *.
    + subst c. rewrite (IH _ _ out (Hresume _) E). simpl. lia.
    + apply IH; [rewrite <- Hs; apply Hresume | exact E].
  - discriminate.
Qed.

(** X23. A run never changes the read-only zone: the limit stays where
    loading put it, and every cell below it, where the static strings are,
    reads at the end of the run, normal or on an error of the embedded
    fragment, as it did before. *)
Theorem run_keeps_read_only_memory (fuel : nat) (s : State) (out : outcome unit) :
  exhaust (main_function_iterator fuel s) = Some out ->
  inside_model out ->
  read_write_stack_limit (final_state out) = read_write_stack_limit s /\
  forall address, 1 <= address < read_write_stack_limit s ->
                  cell (final_state out) address = cell s address.
Proof.
  intros E _. apply read_only_zone_cell. unfold main_function_iterator in E.
  refine (steady_exhaust _ read_only_zone _ _ _ _ E).
  apply steady_count_elementary; [reflexivity|].
  apply execute_function_keeps_read_only_zone.
Qed.

Lemma run_keeps_read_only_memory_witness :
  exists s0 s,
    SynCProgram read_twice (fresh [bin_to_string 5; bin_to_string 7]) = Ok tt s0 /\
    exhaust (main_function_iterator 50 s0) = Some (Ok tt s) /\
    read_write_stack_limit s0 = 3 /\
    cell s 1 = cell s0 1 /\ cell s0 1 = VInt 32.
Proof.
  destruct (SynCProgram read_twice (fresh [bin_to_string 5; bin_to_string 7]))
    as [[] s0|e s0] eqn:E0; [|vm_compute in E0; discriminate E0].
  destruct (exhaust (main_function_iterator 50 s0)) as [[[] s|e s]|] eqn:E.
  - exists s0, s. split; [reflexivity|]. split; [exact E|].
    assert (Hlimit : read_write_stack_limit s0 = 3)
      by (vm_compute in E0; injection E0 as <-; reflexivity).
    split; [exact Hlimit|]. split.
    + apply (run_keeps_read_only_memory 50 s0 (Ok tt s) E I). rewrite Hlimit. lia.
    + vm_compute in E0. injection E0 as <-. reflexivity.
  - vm_compute in E0. injection E0 as <-. vm_compute in E. discriminate E.
  - vm_compute in E0. injection E0 as <-. vm_compute in E. discriminate E.
Defined.

(** X18. Whatever the program, the operation counts the driver reads at
    the steps it is handed are consecutive: the count before the run plus
    1, plus 2, and so on, one more at each step, for as long as the run
    stays in the embedded fragment. *)
Theorem driver_sees_consecutive_counts (fuel : nat) (s : State) :
  map snd (steps_seen (main_function_iterator fuel s))
  = counts_from (nb_elementary_operations s + 1)
      (length (steps_seen (main_function_iterator fuel s))).
Proof.
  unfold main_function_iterator. apply counted_steps.
  apply execute_function_keeps_count.
Qed.

(** X19. When the run ends, normally or on an error of the embedded
    fragment, the operation count has grown by exactly the number of steps
    the driver was handed. *)
Theorem final_count_is_number_of_steps (fuel : nat) (s : State) (out : outcome unit) :
  exhaust (main_function_iterator fuel s) = Some out ->
  inside_model out ->
  nb_elementary_operations (final_state out)
  = nb_elementary_operations s
    + Z.of_nat (length (steps_seen (main_function_iterator fuel s))).
Proof.
  intros E _. revert E. unfold main_function_iterator. apply counted_total.
  apply execute_function_keeps_count.
Qed.

Lemma final_count_is_number_of_steps_witness :
  exists s0 s,
    SynCProgram scenario_C (fresh []) = Ok tt s0 /\
    exhaust (main_function_iterator 50 s0) = Some (Ok tt s) /\
    nb_elementary_operations s
    = nb_elementary_operations s0
      + Z.of_nat (length (steps_seen (main_function_iterator 50 s0))).
Proof.
  destruct (SynCProgram scenario_C (fresh [])) as [[] s0|e s0] eqn:E0;
    [|vm_compute in E0; discriminate E0].
  destruct (exhaust (main_function_iterator 50 s0)) as [[[] s|e s]|] eqn:E.
  - exists s0, s. split; [reflexivity|]. split; [exact E|].
    exact (final_count_is_number_of_steps 50 s0 (Ok tt s) E I).
  - vm_compute in E0. injection E0 as <-. vm_compute in E. discriminate E.
  - vm_compute in E0. injection E0 as <-. vm_compute in E. discriminate E.
Defined.

End engine.

(* ===================================================================== *)
(** ** Words on the standard input, and arithmetic on words *)
(* ===================================================================== *)

Section words.

(** X7. A word the referee writes with [bin_to_string] on a line of its
    own is the word READ returns: with an empty buffer and that line next
    on the standard input, READ consumes the line and returns the word. *)
Theorem READ_of_bin_to_string (s : State) (w : Z) (rest : list string) :
  0 <= w < 2 ^ 32 ->
  input_buffer s = [] ->
  stdin s = bin_to_string w :: rest ->
  exists s', READ s = Ok (VInt w) s' /\ input_buffer s' = [] /\ stdin s' = rest.
Proof.
  intros Hw Hbuffer Hstdin.
  destruct (bin_to_string_digits w Hw) as (Hlen & Hfilter & Hvalue).
  destruct (READ_line_of_32_digits s (bin_to_string w) rest Hbuffer Hstdin)
    as (word & s' & Hword & HREAD & Hrest).
  - rewrite Hfilter. exact Hlen.
  - rewrite Hfilter, Hvalue in Hword. injection Hword as <-.
    exists s'. split; [exact HREAD | exact Hrest].
Qed.

Lemma READ_of_bin_to_string_witness :
  exists s',
    READ (fresh [bin_to_string 4294967295; "rest"%string]) = Ok (VInt 4294967295) s' /\
    input_buffer s' = [] /\ stdin s' = ["rest"%string].
Proof.
  apply (READ_of_bin_to_string (fresh [bin_to_string 4294967295; "rest"%string])
           4294967295 ["rest"%string]); [lia | reflexivity | reflexivity].
Defined.

Lemma bin_to_int_congruent (x : Z) :
  exists k, bin_to_int x = x + k * 2 ^ 32.
Proof.
  unfold bin_to_int. change (INT_NB_BITS - 1) with 31. change INT_NB_BITS with 32.
  destruct (x <? 2 ^ 31); [exists 0 | exists (-1)]; lia.
Qed.

(** X20. Addition, subtraction and multiplication of two words are the
    operations of the integers modulo [2^32] on the words themselves; a
    division or a remainder by the word 0 raises the math-domain error. *)
Theorem word_arithmetic_wraps (a b : Z) (p : position) :
  apply_binary_operator "+" (VInt a) (VInt b) p = inr (VInt ((a + b) mod 2 ^ 32)) /\
  apply_binary_operator "-" (VInt a) (VInt b) p = inr (VInt ((a - b) mod 2 ^ 32)) /\
  apply_binary_operator "*" (VInt a) (VInt b) p = inr (VInt ((a * b) mod 2 ^ 32)) /\
  apply_binary_operator "/" (VInt a) (VInt 0) p = inl (Exec (MathDomainError p 0)) /\
  apply_binary_operator "%" (VInt a) (VInt 0) p = inl (Exec (MathDomainError p 0)).
Proof.
  destruct (bin_to_int_congruent a) as [ka Ha].
  destruct (bin_to_int_congruent b) as [kb Hb].
  unfold apply_binary_operator, bin_to_int_of, py_bin_to_int, int_of. simpl.
  rewrite !int_to_bin_wraps, Ha, Hb.
  repeat split.
  - replace (a + ka * 2 ^ 32 + (b + kb * 2 ^ 32)) with (a + b + (ka + kb) * 2 ^ 32)
      by ring.
    rewrite Z_mod_plus_full. reflexivity.
  - replace (a + ka * 2 ^ 32 - (b + kb * 2 ^ 32)) with (a - b + (ka - kb) * 2 ^ 32)
      by ring.
    rewrite Z_mod_plus_full. reflexivity.
  - replace ((a + ka * 2 ^ 32) * (b + kb * 2 ^ 32))
      with (a * b + (a * kb + ka * b + ka * kb * 2 ^ 32) * 2 ^ 32) by ring.
    rewrite Z_mod_plus_full. reflexivity.
Qed.

End words.

(* ===================================================================== *)
(** ** The static strings of a loaded program *)
(* ===================================================================== *)

Section static_strings.

Local Open Scope method_scope.

Lemma keeps_write (P : State -> Prop) address value p :
  ignores_writes P -> keeps P (_set_memory address value p).
Proof.
  intros HP s a s' E H. unfold _set_memory in E.
  destruct (_ || _); [discriminate|].
  destruct (Z.ltb_spec address (read_write_stack_limit s)); [discriminate|].
  injection E as _ <-. apply HP; assumption.
Qed.

Lemma declare_globals_above (P : State -> Prop) tree :
  ignores_globals P -> ignores_writes P -> keeps P (_declare_globals tree).
Proof.
  intros Hg Hm. unfold _declare_globals. destruct (globalsdecl tree); [|apply keeps_ret].
  apply keeps_for_each. intros g.
  apply keeps_and_then; [apply keeps_get_state|]. intros s0.
  destruct (list_in _ _); [apply keeps_raise|].
  apply keeps_and_then.
  { apply keeps_for_each. intros [function_name info].
    destruct (list_in _ _); [apply keeps_raise | apply keeps_ret]. }
  intros _. apply keeps_and_then; [apply keeps_modify; intros; apply Hg; assumption|].
  intros _. apply keeps_and_then; [apply literal_value_frame|]. intros value.
  apply keeps_and_then; [apply keeps_get_variable_address|]. intros address.
  apply keeps_write, Hm.
Qed.

Lemma dict_get_set_same {V} (d : list (string * V)) (k : string) (v : V) :
  dict_get (dict_set d k v) k = Some v.
Proof.
  induction d as [|[k0 v0] d IH]; simpl.
  - rewrite String.eqb_refl. reflexivity.
  - destruct (String.eqb k0 k) eqn:E0; simpl.
    + rewrite String.eqb_refl. reflexivity.
    + rewrite E0. exact IH.
Qed.

Lemma dict_in_set {V} (d : list (string * V)) (k k' : string) (v : V) :
  dict_in d k' = true -> dict_in (dict_set d k v) k' = true.
Proof.
  unfold dict_in. destruct (String.eqb k k') eqn:E.
  - apply String.eqb_eq in E. subst k'. rewrite dict_get_set_same. reflexivity.
  - rewrite dict_get_set_other by exact E. trivial.
Qed.

(** What [_set_string_to_address] has done when it returns. *)
Lemma set_string_to_address_effect (text : list ascii) (address : Z) (p : position)
    (s s1 : State) :
  _set_string_to_address text address p s = Ok tt s1 ->
  holds_string s1 address text /\
  (forall b, b < address -> memory s1 !! b = memory s !! b) /\
  1 <= address /\ address + len text < 2 ^ 24 /\
  read_write_stack_limit s <= address /\
  read_only_strings_adress s1 = read_only_strings_adress s /\
  read_write_stack_limit s1 = read_write_stack_limit s.
Proof.
  intros E.
  assert (Hframe : read_only_strings_adress s1 = read_only_strings_adress s /\
                   read_write_stack_limit s1 = read_write_stack_limit s).
  { refine (set_string_to_address_frame
              (fun s' => read_only_strings_adress s' = read_only_strings_adress s /\
                         read_write_stack_limit s' = read_write_stack_limit s)
              text address p _ s tt s1 E _); [intros s' v H; exact H | split; reflexivity]. }
  unfold _set_string_to_address, and_then in E.
  destruct (_set_memory (address + len text) (VInt 0) p s) as [[] s0|] eqn:E0;
    simpl in E; [|discriminate].
  destruct (set_characters _ _ _ _ _ _ E) as (Hcells & Hother & Hfirst).
  assert (Hlimit0 : read_write_stack_limit s0 = read_write_stack_limit s).
  { unfold _set_memory in E0. destruct (_ || _); [discriminate|].
    destruct (_ <? _); [discriminate|]. injection E0 as <-. reflexivity. }
  assert (Hlimit : text <> [] -> read_write_stack_limit s <= address).
  { intros Hne. destruct text as [|c text]; [congruence|]. simpl in E.
    unfold and_then, _set_memory in E.
    destruct (_ || _); [discriminate|]. rewrite Hlimit0 in E.
    destruct (Z.ltb_spec (address + 0) (read_write_stack_limit s)); [discriminate | lia]. }
  unfold _set_memory in E0.
  destruct (Z.leb_spec (address + len text) 0) as [|Hpos]; simpl in E0; [discriminate|].
  destruct (Z.leb_spec MEMORY_SIZE (address + len text)) as [|Hhigh]; simpl in E0;
    [discriminate|].
  destruct (Z.ltb_spec (address + len text) (read_write_stack_limit s)) as [|Hlast];
    [discriminate|].
  injection E0 as <-. change MEMORY_SIZE with (2 ^ 24) in Hhigh.
  assert (Hlow : 1 <= address /\ read_write_stack_limit s <= address).
  { destruct text as [|c text]; [unfold len in *; simpl in *; lia|].
    specialize (Hfirst ltac:(discriminate)). specialize (Hlimit ltac:(discriminate)).
    lia. }
  split; [|split; [|split; [lia | split; [exact Hhigh | split; [lia | exact Hframe]]]]].
  - split.
    + intros i c Hi. rewrite <- (Hcells i c Hi). f_equal. lia.
    + rewrite Hother by lia. simpl. apply lookup_insert_eq.
  - intros b Hb. rewrite Hother by lia. simpl. apply lookup_insert_ne.
    unfold len. lia.
Qed.

Lemma holds_string_same (s s' : State) (address : Z) (text : list ascii) :
  (forall b, address <= b <= address + len text -> memory s' !! b = memory s !! b) ->
  holds_string s address text -> holds_string s' address text.
Proof.
  intros Hsame [Hchars Hnul]. split.
  - intros i c Hi. rewrite Hsame; [exact (Hchars i c Hi)|].
    apply lookup_lt_Some in Hi. unfold len. lia.
  - rewrite Hsame; [exact Hnul | unfold len; lia].
Qed.

Lemma register_static_string_stores (text : string) (p : position) (s s' : State) :
  register_static_string text p s = Ok tt s' ->
  static_strings_stored s ->
  static_strings_stored s' /\
  dict_in (read_only_strings_adress s') text = true /\
  (forall other, dict_in (read_only_strings_adress s) other = true ->
                 dict_in (read_only_strings_adress s') other = true).
Proof.
  intros E [Hone Hstored]. unfold register_static_string, and_then, get_state, modify in E.
  simpl in E.
  destruct (dict_in (read_only_strings_adress s) text) eqn:Ein; simpl in E.
  { injection E as <-. split; [split; assumption | split; [exact Ein | trivial]]. }
  destruct (check_is_string_is_ascii_printable_with_escape text); simpl in E.
  { destruct (shift_char _ _); discriminate E. }
  destruct (unicode_escape (list_ascii_of_string text)) as [|decoded] eqn:Edecoded;
    simpl in E; [discriminate|].
  match type of E with
  | bind (_set_string_to_address _ _ _ ?s1) _ = _ =>
      destruct (_set_string_to_address decoded (read_write_stack_limit s) p s1)
        as [[] s2|] eqn:Eset; simpl in E; [|discriminate]
  end.
  injection E as <-.
  destruct (set_string_to_address_effect _ _ _ _ _ Eset)
    as (Hholds & Hbelow & Hlow & Hhigh & _ & Htable & Hlimit).
  simpl in Htable, Hlimit, Hbelow.
  assert (Hlen : 0 <= len decoded) by (unfold len; lia).
  split; [|split].
  - split; simpl; [lia|]. intros text0 address0 Hget. rewrite Htable in Hget.
    destruct (String.eqb text text0) eqn:Esame.
    + apply String.eqb_eq in Esame. subst text0.
      rewrite dict_get_set_same in Hget. injection Hget as <-.
      exists decoded. rewrite Hlimit.
      split; [exact Edecoded | split; [exact Hlow | split; [lia | exact Hholds]]].
    + rewrite dict_get_set_other in Hget by exact Esame.
      destruct (Hstored text0 address0 Hget) as (decoded0 & Hd0 & Hlow0 & Hhigh0 & Hholds0).
      exists decoded0. rewrite Hlimit.
      split; [exact Hd0 | split; [exact Hlow0 | split; [lia|]]].
      apply (holds_string_same s); [|exact Hholds0].
      intros b Hb. apply Hbelow. lia.
  - simpl. rewrite Htable. unfold dict_in. rewrite dict_get_set_same. reflexivity.
  - intros other Hother. simpl. rewrite Htable. apply dict_in_set, Hother.
Qed.

Lemma search_for_static_strings_stores (ls : list (literal * position)) :
  forall s s',
    for_each ls (fun '(lit, p) =>
      match lit with
      | string_literal text => register_static_string text p
      | _ => ret tt
      end) s = Ok tt s' ->
    static_strings_stored s ->
    static_strings_stored s' /\
    (forall other, dict_in (read_only_strings_adress s) other = true ->
                   dict_in (read_only_strings_adress s') other = true) /\
    (forall text p, In (string_literal text, p) ls ->
                    dict_in (read_only_strings_adress s') text = true).
Proof.
  induction ls as [|[lit p] ls IH]; intros s s' E Hs.
  - injection E as <-. split; [exact Hs | split; [trivial | contradiction]].
  - simpl in E. unfold and_then in E.
    assert (Hstep : forall s1,
               match lit with
               | string_literal text => register_static_string text p
               | _ => ret tt
               end s = Ok tt s1 ->
               static_strings_stored s1 /\
               (forall other, dict_in (read_only_strings_adress s) other = true ->
                              dict_in (read_only_strings_adress s1) other = true) /\
               (forall text, lit = string_literal text ->
                             dict_in (read_only_strings_adress s1) text = true)).
    { intros s1 E1. destruct lit;
        try (injection E1 as <-; split; [exact Hs | split; [trivial | discriminate]]).
      destruct (register_static_string_stores _ _ _ _ E1 Hs) as (H1 & H2 & H3).
      split; [exact H1 | split; [exact H3|]]. intros text' [= <-]. exact H2. }
    destruct (match lit with
              | string_literal text => register_static_string text p
              | _ => ret tt
              end s) as [[] s1|] eqn:E1; simpl in E; [|discriminate].
    destruct (Hstep s1 eq_refl) as (Hs1 & Hgrow1 & Hthis).
    destruct (IH s1 s' E Hs1) as (Hs' & Hgrow & Hrest).
    split; [exact Hs' | split].
    + intros other Hother. apply Hgrow, Hgrow1, Hother.
    + intros text q [Hhead|Htail].
      * injection Hhead as -> _. apply Hgrow, Hthis. reflexivity.
      * exact (Hrest text q Htail).
Qed.

Lemma static_strings_stored_above : ignores_writes static_strings_stored.
Proof.
  intros s address value Haddress [Hone Hstored]. split; [exact Hone|].
  intros text address0 Hget.
  destruct (Hstored text address0 Hget) as (decoded & Hd & Hlow & Hhigh & Hholds).
  exists decoded. split; [exact Hd | split; [exact Hlow | split; [exact Hhigh|]]].
  apply (holds_string_same s); [|exact Hholds].
  intros b Hb. simpl in *. apply lookup_insert_ne. lia.
Qed.

(** X24. In a program that loads, every string literal of the source has
    an entry in the table of static strings, and at the address of the
    entry the memory holds the characters of the decoded literal, closed
    by NUL, all of it below the read-only limit. *)
Theorem static_strings_are_stored (tree : prog) (input : list string) (s : State)
    (text : string) (p : position) :
  SynCProgram tree (fresh input) = Ok tt s ->
  In (string_literal text, p) (literals_of_prog tree) ->
  exists address decoded,
    dict_get (read_only_strings_adress s) text = Some address /\
    unicode_escape (list_ascii_of_string text) = inr decoded /\
    1 <= address /\ address + len decoded < read_write_stack_limit s /\
    holds_string s address decoded.
Proof.
  intros E Hliteral.
  unfold SynCProgram, load_before_main_check, and_then in E.
  destruct (_read_structs_and_functions tree (fresh input)) as [[] s1|] eqn:E1;
    simpl in E; [|discriminate].
  destruct (_search_for_static_strings tree s1) as [[] s2|] eqn:E2;
    simpl in E; [|discriminate].
  destruct (_search_int_char_float_errors tree s2) as [[] s3|] eqn:E3;
    simpl in E; [|discriminate].
  destruct (_declare_globals tree s3) as [[] s4|] eqn:E4; simpl in E; [|discriminate].
  assert (H1 : static_strings_stored s1).
  { refine (read_structs_and_functions_frame static_strings_stored tree _ _ _ _ _ E1 _).
    - split; intros s0 v H; exact H.
    - intros s0 v H; exact H.
    - split; [simpl; lia | intros ? ? H; discriminate H]. }
  destruct (search_for_static_strings_stores _ _ _ E2 H1) as (H2 & _ & Hin2).
  specialize (Hin2 text p Hliteral).
  set (P := fun s0 : State =>
              static_strings_stored s0 /\
              dict_in (read_only_strings_adress s0) text = true).
  assert (H : P s).
  { refine (check_main_function_frame P _ _ _ E _).
    refine (declare_globals_above P tree _ _ _ _ _ E4 _).
    - intros s0 v H; exact H.
    - intros s0 address value Haddress [Ha Hb].
      split; [apply static_strings_stored_above; assumption | exact Hb].
    - refine (search_int_char_float_errors_frame P tree _ _ _ E3 _).
      split; assumption. }
  destruct H as [[Hone Hstored] Hin]. unfold dict_in in Hin.
  destruct (dict_get (read_only_strings_adress s) text) as [address|] eqn:Hget;
    [|discriminate].
  destruct (Hstored text address Hget) as (decoded & H).
  exists address, decoded. split; [reflexivity | exact H].
Qed.

Lemma static_strings_are_stored_witness :
  exists s,
    SynCProgram read_twice (fresh []) = Ok tt s /\
    dict_get (read_only_strings_adress s) " " = Some 1 /\
    holds_string s 1 [" "%char].
Proof.
  destruct (SynCProgram read_twice (fresh [])) as [[] s|e s] eqn:E;
    [|vm_compute in E; discriminate E].
  destruct (static_strings_are_stored read_twice [] s " " (at_ 1 42) E)
    as (address & decoded & Hget & Hdecoded & _ & _ & Hholds).
  - vm_compute. tauto.
  - injection Hdecoded as <-.
    assert (Haddress : address = 1).
    { vm_compute in E. injection E as <-. vm_compute in Hget. congruence. }
    subst address. exists s. split; [reflexivity | split; assumption].
Defined.

End static_strings.

(* ===================================================================== *)
(** ** The check of the characters of a string literal *)
(* ===================================================================== *)

Section printable.

Lemma check_printable_from_offender (text : list ascii) :
  forall i check_escape j,
    check_printable_from i check_escape text = Some j ->
    exists before c rest,
      text = before ++ c :: rest /\
      j = i + len before /\
      check_printable_from i check_escape before = None /\
      (if escape_open check_escape before
       then is_escape_letter c = false
       else (32 <=? ord c) && (ord c <=? 126) = false).
Proof.
  induction text as [|c text IH]; intros i check_escape j E; [discriminate E|].
  cbn [check_printable_from] in E.
  assert (Hnext : forall check_escape',
             check_printable_from (i + 1) check_escape' text = Some j ->
             (negb check_escape && Ascii.eqb c "\") = check_escape' ->
             (forall before,
                 check_printable_from i check_escape (c :: before)
                 = check_printable_from (i + 1) check_escape' before) ->
             exists before c0 rest,
               c :: text = before ++ c0 :: rest /\
               j = i + len before /\
               check_printable_from i check_escape before = None /\
               (if escape_open check_escape before
                then is_escape_letter c0 = false
                else (32 <=? ord c0) && (ord c0 <=? 126) = false)).
  { intros check_escape' Hrec Hstate Hcons.
    destruct (IH _ _ _ Hrec) as (before & c0 & rest & -> & -> & Hnone & Hbad).
    exists (c :: before), c0, rest.
    split; [reflexivity|]. split; [unfold len; simpl length; lia|].
    split; [rewrite Hcons; exact Hnone|].
    cbn [escape_open]. rewrite Hstate. exact Hbad. }
  destruct (negb check_escape && Ascii.eqb c "\") eqn:Eslash.
  { apply (Hnext true E); [reflexivity|]. intros before. cbn [check_printable_from].
    rewrite Eslash. reflexivity. }
  destruct check_escape.
  - destruct (is_escape_letter c) eqn:Eletter.
    + apply (Hnext false E); [reflexivity|]. intros before. cbn [check_printable_from].
      rewrite Eslash, Eletter. reflexivity.
    + injection E as <-. exists [], c, text.
      split; [reflexivity|]. split; [unfold len; simpl; lia|].
      split; [reflexivity | exact Eletter].
  - destruct ((32 <=? ord c) && (ord c <=? 126)) eqn:Eprintable.
    + apply (Hnext false E); [reflexivity|]. intros before. cbn [check_printable_from].
      rewrite Eslash, Eprintable. reflexivity.
    + injection E as <-. exists [], c, text.
      split; [reflexivity|]. split; [unfold len; simpl; lia|].
      split; [reflexivity | exact Eprintable].
Qed.

Lemma trailing_backslashes_last (text : list ascii) (c : ascii) :
  trailing_backslashes (text ++ [c])
  = if Ascii.eqb c "\" then S (trailing_backslashes text) else O.
Proof. unfold trailing_backslashes. rewrite rev_unit. reflexivity. Qed.

Lemma escape_open_last (text : list ascii) (c : ascii) :
  forall check_escape,
    escape_open check_escape (text ++ [c])
    = negb (escape_open check_escape text) && Ascii.eqb c "\".
Proof.
  induction text as [|d text IH]; intros check_escape; [reflexivity|].
  cbn [escape_open app]. apply IH.
Qed.

(** An escape is open after a text exactly when the text ends with an odd
    number of backslashes. *)
Lemma escape_open_odd (text : list ascii) :
  escape_open false text = Nat.odd (trailing_backslashes text).
Proof.
  induction text as [|c text IH] using rev_ind; [reflexivity|].
  rewrite escape_open_last, trailing_backslashes_last, IH.
  destruct (Ascii.eqb c "\").
  - rewrite Nat.odd_succ, <- Nat.negb_odd, andb_true_r. reflexivity.
  - rewrite andb_false_r. reflexivity.
Qed.

Lemma odd_trailing_backslashes (text : list ascii) :
  Nat.odd (trailing_backslashes text) = true ->
  exists stem, text = stem ++ ["\"%char] /\
               Nat.even (trailing_backslashes stem) = true.
Proof.
  destruct text as [|c text] using rev_ind; [discriminate|]. clear IHtext.
  rewrite trailing_backslashes_last.
  destruct (Ascii.eqb_spec c "\") as [->|]; [|discriminate].
  rewrite Nat.odd_succ. intros Heven. exists text. split; [reflexivity | exact Heven].
Qed.

(** X21. The index the check returns is that of the first offending
    character: the text before it passes the check, and either that text
    leaves no escape open (it ends with an even number of backslashes) and
    the character at the index is outside the printable range 32..126, or
    the character comes right after a backslash that opens an escape and
    is not one of the escape letters. *)
Theorem check_reports_first_offender (text : string) (index : Z) :
  check_is_string_is_ascii_printable_with_escape text = Some index ->
  exists before c rest,
    list_ascii_of_string text = before ++ c :: rest /\
    index = len before /\
    check_is_string_is_ascii_printable_with_escape (string_of_list_ascii before) = None /\
    ((Nat.even (trailing_backslashes before) = true /\
      (32 <=? ord c) && (ord c <=? 126) = false) \/
     (exists stem, before = stem ++ ["\"%char] /\
                   Nat.even (trailing_backslashes stem) = true /\
                   is_escape_letter c = false)).
Proof.
  intros E. unfold check_is_string_is_ascii_printable_with_escape in *.
  destruct (check_printable_from_offender _ _ _ _ E)
    as (before & c & rest & Htext & Hindex & Hnone & Hbad).
  exists before, c, rest. rewrite list_ascii_of_string_of_list_ascii.
  split; [exact Htext|]. split; [lia|]. split; [exact Hnone|].
  rewrite escape_open_odd in Hbad.
  destruct (Nat.odd (trailing_backslashes before)) eqn:Eodd.
  - right. destruct (odd_trailing_backslashes _ Eodd) as (stem & Hstem & Heven).
    exists stem. split; [exact Hstem | split; [exact Heven | exact Hbad]].
  - left. split; [|exact Hbad]. rewrite <- Nat.negb_odd, Eodd. reflexivity.
Qed.

Lemma check_reports_first_offender_witness :
  exists before c rest,
    list_ascii_of_string "ab\qd" = before ++ c :: rest /\
    3 = len before /\
    check_is_string_is_ascii_printable_with_escape (string_of_list_ascii before) = None /\
    ((Nat.even (trailing_backslashes before) = true /\
      (32 <=? ord c) && (ord c <=? 126) = false) \/
     (exists stem, before = stem ++ ["\"%char] /\
                   Nat.even (trailing_backslashes stem) = true /\
                   is_escape_letter c = false)).
Proof.
  apply (check_reports_first_offender "ab\qd" 3). reflexivity.
Defined.

Lemma plain_text_passes (text : list ascii) :
  Forall (fun c => (32 <=? ord c) && (ord c <=? 126) = true /\ c <> "\"%char) text ->
  forall i,
    check_printable_from i false text = None /\
    check_printable_from i false (text ++ ["\"%char]) = None /\
    unicode_escape text = inr text /\
    unicode_escape (text ++ ["\"%char]) = inl ValueError.
Proof.
  induction 1 as [|c text [Hprintable Hslash] _ IH]; intros i.
  - repeat split; reflexivity.
  - apply Ascii.eqb_neq in Hslash.
    destruct (IH (i + 1)) as (H1 & H2 & H3 & H4).
    cbn [check_printable_from unicode_escape app].
    rewrite Hslash, Hprintable, H1, H2, H3, H4. repeat split; reflexivity.
Qed.

(** X22. A text of printable characters with no backslash passes the
    check and is stored as it is. With one backslash added at its end it
    still passes the check, although the escape is not finished, and the
    decoding that follows raises an error that is not an execution error. *)
Theorem unfinished_escape_passes_the_check (text : string) :
  Forall (fun c => (32 <=? ord c) && (ord c <=? 126) = true /\ c <> "\"%char)
         (list_ascii_of_string text) ->
  check_is_string_is_ascii_printable_with_escape text = None /\
  unicode_escape (list_ascii_of_string text) = inr (list_ascii_of_string text) /\
  check_is_string_is_ascii_printable_with_escape (text ++ "\") = None /\
  unicode_escape (list_ascii_of_string (text ++ "\")) = inl ValueError.
Proof.
  intros Hplain. unfold check_is_string_is_ascii_printable_with_escape.
  assert (Happ : list_ascii_of_string (text ++ "\")
                 = list_ascii_of_string text ++ ["\"%char]).
  { clear Hplain. induction text as [|c text IH]; [reflexivity|].
    change (c :: list_ascii_of_string (text ++ "\")
            = c :: (list_ascii_of_string text ++ ["\"%char])).
    f_equal. exact IH. }
  rewrite Happ.
  destruct (plain_text_passes _ Hplain 0) as (H1 & H2 & H3 & H4).
  split; [exact H1 | split; [exact H3 | split; [exact H2 | exact H4]]].
Qed.

Lemma unfinished_escape_passes_the_check_witness :
  check_is_string_is_ascii_printable_with_escape "abc\" = None /\
  unicode_escape (list_ascii_of_string "abc\") = inl ValueError.
Proof.
  destruct (unfinished_escape_passes_the_check "abc") as (_ & _ & H3 & H4).
  - repeat constructor; discriminate.
  - split; [exact H3 | exact H4].
Defined.

End printable.

(* ===================================================================== *)
(** ** The structures of a loaded program *)
(* ===================================================================== *)

Section structures.

Local Open Scope method_scope.

Lemma and_then_Ok {A B} (m : M A) (f : A -> M B) (s s' : State) (b : B) :
  and_then m f s = Ok b s' -> exists a s1, m s = Ok a s1 /\ f a s1 = Ok b s'.
Proof.
  unfold and_then. destruct (m s) as [a s1|]; simpl; [|discriminate].
  intros E. exists a, s1. split; [reflexivity | exact E].
Qed.

(** The loop over the other structures, run when the field already has an
    index. *)
Lemma other_structures_loop (p : position) (structure_name field : string)
    (table : list (string * list string)) :
  forall s s',
    for_each table (fun '(other_structure_name, other_fields) =>
      if String.eqb other_structure_name structure_name then ret tt
      else if list_in field other_fields
      then raise (Exec (SameFieldStructureError p other_structure_name
                          structure_name field))
      else ret tt) s = Ok tt s' ->
    s' = s /\
    forall other_name other_fields,
      In (other_name, other_fields) table -> other_name <> structure_name ->
      ~ In field other_fields.
Proof.
  induction table as [|[other_name other_fields] table IH]; intros s s' E.
  - injection E as <-. split; [reflexivity | contradiction].
  - simpl in E. apply and_then_Ok in E as ([] & s1 & E1 & E).
    destruct (IH _ _ E) as [-> Hrest].
    destruct (String.eqb_spec other_name structure_name) as [->|Hne].
    + injection E1 as <-. split; [reflexivity|].
      intros n fs [[= <- <-]|Hin] Hn; [congruence | exact (Hrest n fs Hin Hn)].
    + destruct (list_in field other_fields) eqn:Efield; [discriminate E1|].
      injection E1 as <-. split; [reflexivity|].
      intros n fs [[= <- <-]|Hin] Hn;
        [apply list_in_not_In, Efield | exact (Hrest n fs Hin Hn)].
Qed.

(** The loop of [_read_structure] over the fields. *)
Lemma read_structure_loop (p : position) (structure_name : string) (fields : list string) :
  forall i s s',
    for_enumerate i fields (fun i field rest =>
      if list_in field rest
      then raise (Exec (SameFieldsNameStructureError p structure_name field))
      else
        s <- get_state ;;
        (if dict_in (structures_fields_indexes s) field
         then for_each (structures_fields s) (fun '(other_structure_name, other_fields) =>
                if String.eqb other_structure_name structure_name then ret tt
                else if list_in field other_fields
                then raise (Exec (SameFieldStructureError p other_structure_name
                                    structure_name field))
                else ret tt)
         else ret tt) ;;;
        modify (fun s => set_structures_fields_indexes s
                           (dict_set (structures_fields_indexes s) field i))) s
    = Ok tt s' ->
    structures_fields s' = structures_fields s /\
    NoDup fields /\
    (forall field other_name other_fields,
        In field fields ->
        dict_in (structures_fields_indexes s) field = true ->
        In (other_name, other_fields) (structures_fields s) ->
        other_name <> structure_name ->
        ~ In field other_fields) /\
    (forall k field, fields !! k = Some field ->
        dict_get (structures_fields_indexes s') field = Some (i + Z.of_nat k)) /\
    (forall field, ~ In field fields ->
        dict_get (structures_fields_indexes s') field
        = dict_get (structures_fields_indexes s) field).
Proof.
  induction fields as [|field fields IH]; intros i s s' E.
  - injection E as <-. split; [reflexivity|]. split; [constructor|].
    split; [intros ? ? ? []|]. split; [intros k field Hk; discriminate Hk | reflexivity].
  - cbn [for_enumerate] in E. apply and_then_Ok in E as ([] & s1 & E1 & E).
    destruct (list_in field fields) eqn:Efield; [discriminate E1|].
    apply list_in_not_In in Efield.
    apply and_then_Ok in E1 as (s0 & s0' & Eget & E1). injection Eget as <- <-.
    apply and_then_Ok in E1 as ([] & sa & Einner & Emodify).
    injection Emodify as <-.
    assert (Hinner : sa = s /\
              (dict_in (structures_fields_indexes s) field = true ->
               forall other_name other_fields,
                 In (other_name, other_fields) (structures_fields s) ->
                 other_name <> structure_name -> ~ In field other_fields)).
    { destruct (dict_in (structures_fields_indexes s) field).
      - destruct (other_structures_loop _ _ _ _ _ _ Einner) as [-> H].
        split; [reflexivity | intros _; exact H].
      - injection Einner as <-. split; [reflexivity | discriminate]. }
    destruct Hinner as [-> Hinner].
    destruct (IH _ _ _ E) as (Htable & Hnd & Hothers & Hindex & Hrest).
    simpl in Htable, Hothers, Hrest.
    split; [exact Htable|]. split; [|split; [|split]].
    + constructor; [rewrite list_elem_of_In; exact Efield | exact Hnd].
    + intros f other_name other_fields [<-|Hin] Hf Hother Hname.
      * exact (Hinner Hf other_name other_fields Hother Hname).
      * apply (Hothers f other_name other_fields Hin); [|exact Hother | exact Hname].
        unfold dict_in in *. rewrite dict_get_set_other; [exact Hf|].
        apply String.eqb_neq. intros ->. contradiction.
    + intros [|k] f Hk.
      * injection Hk as <-. rewrite Hrest by exact Efield.
        rewrite dict_get_set_same. f_equal. lia.
      * simpl in Hk. rewrite (Hindex k f Hk). f_equal. lia.
    + intros f Hf. rewrite Hrest by (intros H; apply Hf; right; exact H).
      apply dict_get_set_other, String.eqb_neq. intros ->. apply Hf. left. reflexivity.
Qed.

Lemma read_structure_result name fields p (s s' : State) :
  _read_structure name fields p s = Ok tt s' ->
  dict_in (structures_fields s) name = false /\
  structures_fields s' = structures_fields s ++ [(name, fields)] /\
  NoDup fields /\
  (forall field other_name other_fields,
      In field fields ->
      dict_in (structures_fields_indexes s) field = true ->
      In (other_name, other_fields) (structures_fields s) ->
      other_name <> name ->
      ~ In field other_fields) /\
  (forall k field, fields !! k = Some field ->
      dict_get (structures_fields_indexes s') field = Some (Z.of_nat k)) /\
  (forall field, ~ In field fields ->
      dict_get (structures_fields_indexes s') field
      = dict_get (structures_fields_indexes s) field).
Proof.
  intros E. unfold _read_structure in E.
  apply and_then_Ok in E as (s0 & s0' & Eget & E). injection Eget as <- <-.
  destruct (dict_in (structures_fields s) name) eqn:Ein; [discriminate E|].
  apply and_then_Ok in E as ([] & s1 & Emodify & E). injection Emodify as <-.
  destruct (read_structure_loop _ _ _ _ _ _ E) as (Htable & Hnd & Hothers & Hindex & Hrest).
  simpl in Htable, Hothers, Hrest.
  rewrite (dict_set_absent _ _ _ Ein) in Htable, Hothers.
  split; [reflexivity|]. split; [exact Htable|]. split; [exact Hnd|].
  split; [|split; [exact Hindex | exact Hrest]].
  intros field other_name other_fields Hfield Hin Hother Hname.
  apply (Hothers field other_name other_fields Hfield Hin); [|exact Hname].
  apply in_or_app. left. exact Hother.
Qed.

(** The structure table and its index: the names differ, no field occurs
    twice in the whole table, and the index of a field is its place in its
    structure. *)
Lemma read_structs_result (ds : list decl) :
  forall s s',
    for_each ds (fun d =>
      match d with
      | structdecl structure_name fields p => _read_structure structure_name fields p
      | fundecl function_name parameters blk p =>
          _read_function function_name parameters blk p
      end) s = Ok tt s' ->
    NoDup (map fst (structures_fields s)) ->
    NoDup (flat_map snd (structures_fields s)) ->
    (forall name fields k field,
        In (name, fields) (structures_fields s) -> fields !! k = Some field ->
        dict_get (structures_fields_indexes s) field = Some (Z.of_nat k)) ->
    structures_fields s' = structures_fields s ++ declared_structures ds /\
    NoDup (map fst (structures_fields s')) /\
    NoDup (flat_map snd (structures_fields s')) /\
    (forall name fields k field,
        In (name, fields) (structures_fields s') -> fields !! k = Some field ->
        dict_get (structures_fields_indexes s') field = Some (Z.of_nat k)).
Proof.
  induction ds as [|d ds IH]; intros s s' E Hnames Hfields Hindex.
  - injection E as <-. simpl. rewrite app_nil_r. repeat split; assumption.
  - cbn [for_each] in E. apply and_then_Ok in E as ([] & s1 & E1 & E).
    destruct d as [name fields p|name parameters blk p].
    + destruct (read_structure_result _ _ _ _ _ E1)
        as (Hnew & Htable & Hnd & Hothers & Hthis & Hrest).
      assert (Hkey : forall other_fields, ~ In (name, other_fields) (structures_fields s)).
      { intros other_fields Hin.
        assert (Hk : dict_in (structures_fields s) name = true).
        { apply dict_in_keys, in_map_iff. exists (name, other_fields).
          split; [reflexivity | exact Hin]. }
        congruence. }
      assert (Hdisjoint : forall field, In field fields ->
                                        ~ In field (flat_map snd (structures_fields s))).
      { intros field Hfield Hold. apply in_flat_map in Hold as ([on ofs] & Hin & Hof).
        simpl in Hof.
        apply list_elem_of_In, list_elem_of_lookup_1 in Hof as [k Hk].
        apply (Hothers field on ofs Hfield).
        - unfold dict_in. rewrite (Hindex on ofs k field Hin Hk). reflexivity.
        - exact Hin.
        - intros ->. exact (Hkey ofs Hin).
        - apply list_elem_of_In, list_elem_of_lookup_2 with k. exact Hk. }
      destruct (IH s1 s' E) as (Ht & Hn' & Hf' & Hi').
      * rewrite Htable, map_app. simpl. apply NoDup_app. split; [exact Hnames|]. split.
        -- intros x Hx Hx'. apply list_elem_of_In in Hx, Hx'.
           destruct Hx' as [<-|[]]. apply dict_in_keys in Hx. congruence.
        -- apply NoDup_singleton.
      * rewrite Htable, flat_map_app. simpl. rewrite app_nil_r.
        apply NoDup_app. split; [exact Hfields|]. split; [|exact Hnd].
        intros x Hx Hx'. apply list_elem_of_In in Hx, Hx'.
        exact (Hdisjoint x Hx' Hx).
      * intros n fs k field Hin Hk. rewrite Htable in Hin.
        apply in_app_or in Hin as [Hin|[[= <- <-]|[]]].
        -- rewrite Hrest; [exact (Hindex n fs k field Hin Hk)|].
           intros Hfield. apply (Hdisjoint field Hfield).
           apply in_flat_map. exists (n, fs). split; [exact Hin|].
           simpl. apply list_elem_of_In, list_elem_of_lookup_2 with k. exact Hk.
        -- exact (Hthis k field Hk).
      * rewrite Htable, <- app_assoc in Ht. repeat split; assumption.
    + assert (Hsame : structures_fields s1 = structures_fields s /\
                      structures_fields_indexes s1 = structures_fields_indexes s).
      { apply (read_function_frame
                 (fun s0 => structures_fields s0 = structures_fields s /\
                            structures_fields_indexes s0 = structures_fields_indexes s)
                 name parameters blk p) with (s := s) (a := tt);
          [intros ? ? H; exact H | exact E1 | split; reflexivity]. }
      destruct Hsame as [Ht1 Hi1].
      destruct (IH s1 s' E) as (Ht & Hkept);
        [rewrite Ht1; exact Hnames | rewrite Ht1; exact Hfields
        |rewrite Ht1, Hi1; exact Hindex|].
      rewrite Ht1 in Ht. split; [exact Ht | exact Hkept].
Qed.

(** X25. After a load that raises nothing, the structure table is the list
    of the declared structures in the order of their declarations: their
    names are pairwise different, no field name occurs twice in the whole
    table, and the index recorded for a field is its place among the
    fields of its structure. *)
Theorem loaded_structure_table (tree : prog) (input : list string) (s : State) :
  SynCProgram tree (fresh input) = Ok tt s ->
  structures_fields s = declared_structures (decls tree) /\
  NoDup (map fst (declared_structures (decls tree))) /\
  NoDup (flat_map snd (declared_structures (decls tree))) /\
  (forall name fields p k field,
      In (structdecl name fields p) (decls tree) -> fields !! k = Some field ->
      dict_get (structures_fields_indexes s) field = Some (Z.of_nat k)).
Proof.
  intros E. unfold SynCProgram, load_before_main_check, and_then in E.
  destruct (_read_structs_and_functions tree (fresh input)) as [[] s1|] eqn:E1;
    simpl in E; [|discriminate].
  destruct (_search_for_static_strings tree s1) as [[] s2|] eqn:E2; simpl in E;
    [|discriminate].
  destruct (_search_int_char_float_errors tree s2) as [[] s3|] eqn:E3; simpl in E;
    [|discriminate].
  destruct (_declare_globals tree s3) as [[] s4|] eqn:E4; simpl in E; [|discriminate].
  destruct (read_structs_result _ _ _ E1) as (Htable & Hnames & Hfields & Hindex);
    [constructor | constructor | intros ? ? ? ? []|].
  simpl in Htable.
  set (Q := fun s0 : State =>
              structures_fields s0 = structures_fields s1 /\
              structures_fields_indexes s0 = structures_fields_indexes s1).
  assert (H : Q s).
  { refine (check_main_function_frame Q _ _ _ E _).
    refine (declare_globals_frame Q tree _ _ _ _ _ E4 _);
      [intros ? ? H; exact H | intros ? ? H; exact H|].
    refine (search_int_char_float_errors_frame Q tree _ _ _ E3 _).
    refine (search_for_static_strings_frame Q tree _ _ _ _ _ E2 _);
      [split; intros ? ? H; exact H | intros ? ? H; exact H | split; reflexivity]. }
  destruct H as [Ht Hi]. rewrite Ht, Hi. rewrite Htable in Hnames, Hfields, Hindex.
  split; [exact Htable|]. split; [exact Hnames|]. split; [exact Hfields|].
  intros name fields p k field Hin Hk.
  apply (Hindex name fields k field); [|exact Hk].
  unfold declared_structures. apply in_flat_map.
  exists (structdecl name fields p). split; [exact Hin | left; reflexivity].
Qed.

Lemma loaded_structure_table_witness :
  exists s,
    SynCProgram two_structures (fresh []) = Ok tt s /\
    dict_get (structures_fields_indexes s) "tail" = Some 1.
Proof.
  destruct (SynCProgram two_structures (fresh [])) as [[] s|e s] eqn:E;
    [|vm_compute in E; discriminate E].
  exists s. split; [reflexivity|].
  destruct (loaded_structure_table two_structures [] s E) as (_ & _ & _ & Hindex).
  apply (Hindex "cons"%string ["head"; "tail"]%string (at_ 2 1) 1%nat "tail"%string);
    [right; left; reflexivity | reflexivity].
Defined.

End structures.

(* ===================================================================== *)
(** ** The frames of local variables *)
(* ===================================================================== *)

Section frames.

Lemma frames_extended_refl (l : list (list string)) : frames_extended l l.
Proof. left. reflexivity. Qed.

Lemma frames_extended_trans (l1 l2 l3 : list (list string)) :
  frames_extended l1 l2 -> frames_extended l2 l3 -> frames_extended l1 l3.
Proof.
  intros [->|(below & top & added & -> & ->)] H23; [exact H23|].
  destruct H23 as [->|(below' & top' & added' & E & ->)].
  - right. exists below, top, added. split; reflexivity.
  - apply app_inj_tail in E as [<- <-].
    right. exists below, top, (added ++ added'). rewrite app_assoc.
    split; reflexivity.
Qed.

Lemma balanced_mono {A} (strict : bool) (P Q : list (list string) -> Prop) (g : gen A) :
  (forall l, P l -> Q l) -> balanced strict P g -> balanced strict Q g.
Proof.
  intros HPQ. induction g as [a s|e s|elementary value p s resume IH|]; simpl;
    try tauto.
  - apply HPQ.
  - intros [Hs Hresume]. split; [intros H1 H2; apply HPQ, Hs; assumption|].
    intros s' Hs'. apply IH, Hresume, Hs'.
Qed.

Lemma balanced_weaken {A} (P : list (list string) -> Prop) (g : gen A) :
  forall strict, balanced strict P g -> balanced false P g.
Proof.
  induction g as [a s|e s|elementary value p s resume IH|]; intros strict; simpl;
    try tauto.
  intros [_ Hresume]. split; [discriminate|].
  intros s' Hs'. exact (IH s' strict (Hresume s' Hs')).
Qed.

Lemma balanced_bind {A B} (strict : bool) (P Q : list (list string) -> Prop)
    (g : gen A) (f : A -> G B) :
  balanced strict P g ->
  (strict = true -> forall l, P l -> Q l) ->
  (forall a s, P (local_variables s) -> balanced strict Q (f a s)) ->
  balanced strict Q (gen_bind g f).
Proof.
  intros Hg HPQ Hf. induction g as [a s|e s|elementary value p s resume IH|]; simpl in *.
  - apply Hf, Hg.
  - exact I.
  - destruct Hg as [Hs Hresume]. split.
    + intros Hstrict Hvalue. apply (HPQ Hstrict), Hs; assumption.
    + intros s' Hs'. apply IH, Hresume, Hs'.
  - exact I.
Qed.

Lemma G_balanced_then {A B} (strict : bool) (m : G A) (f : A -> G B) :
  G_balanced strict m -> (forall a, G_balanced strict (f a)) ->
  G_balanced strict (g_then m f).
Proof.
  intros Hm Hf s. unfold g_then.
  apply (balanced_bind strict (frames_extended (local_variables s))); [apply Hm | trivial|].
  intros a s1 H1. apply (balanced_mono _ (frames_extended (local_variables s1)));
    [|apply Hf].
  intros l. apply frames_extended_trans, H1.
Qed.

Lemma G_balanced_done {A} strict (a : A) : G_balanced strict (done a).
Proof. intros s. apply frames_extended_refl. Qed.

Lemma G_balanced_throw {A} strict (e : exn) : G_balanced strict (@throw A e).
Proof. intros s. exact I. Qed.

Lemma G_balanced_current_state strict : G_balanced strict current_state.
Proof. intros s. apply frames_extended_refl. Qed.

Lemma G_balanced_method {A} strict (m : M A) :
  M_steady local_variables m -> G_balanced strict (method m).
Proof.
  intros Hm s. unfold method. specialize (Hm s).
  destruct (m s); simpl; [rewrite Hm; apply frames_extended_refl | exact I].
Qed.

Lemma G_balanced_pure {A} strict (r : exn + A) : G_balanced strict (pure r).
Proof. intros s. destruct r; simpl; [exact I | apply frames_extended_refl]. Qed.

Lemma G_balanced_yield strict elementary value p :
  G_balanced strict (yield elementary value p).
Proof.
  intros s. simpl. split; [intros; apply frames_extended_refl|].
  intros s' Hs'. simpl. rewrite Hs'. apply frames_extended_refl.
Qed.

Lemma G_balanced_undeclared strict variable : G_balanced strict (undeclared variable).
Proof.
  unfold undeclared. apply G_balanced_then; [apply G_balanced_current_state|]. intros s0.
  repeat match goal with
         | |- G_balanced _ (if ?b then _ else _) => destruct b
         | |- G_balanced _ (match ?x with _ => _ end) => destruct x
         | _ => first [apply G_balanced_done | apply G_balanced_throw]
         end.
Qed.

Lemma G_balanced_append_local strict variable : G_balanced strict (append_local variable).
Proof.
  intros s. unfold append_local, update. simpl.
  destruct (last_item (local_variables s)) as [frame|] eqn:E;
    [|apply frames_extended_refl].
  simpl. right. exists (but_last (local_variables s)), frame, [variable].
  split; [apply but_last_last, E | reflexivity].
Qed.

Lemma balanced_forward_value (P : list (list string) -> Prop) (g : gen unit) :
  forall strict binary_value,
    balanced false P g -> balanced strict P (forward_value g binary_value).
Proof.
  induction g as [a s|e s|elementary value p s resume IH|]; intros strict v Hg;
    simpl in *; try assumption.
  destruct Hg as [_ Hresume]. split; [congruence|].
  intros s' Hs'. apply IH, Hresume, Hs'.
Qed.

Lemma balanced_forward_elementary (P : list (list string) -> Prop) (g : gen unit) :
  forall strict binary_value,
    balanced false P g -> balanced strict P (forward_elementary g binary_value).
Proof.
  induction g as [a s|e s|elementary value p s resume IH|]; intros strict v Hg;
    simpl in *; try assumption.
  destruct Hg as [_ Hresume]. destruct elementary; simpl.
  - split; [congruence|]. intros s' Hs'. apply IH, Hresume, Hs'.
  - apply IH, Hresume. reflexivity.
Qed.

Lemma balanced_forward_loop_body (P : list (list string) -> Prop) (g : gen unit) :
  balanced true P g -> balanced true P (forward_loop_body g).
Proof.
  induction g as [a s|e s|elementary value p s resume IH|]; intros Hg;
    simpl in *; try assumption.
  destruct Hg as [Hs Hresume].
  assert (Hpass : balanced true P
                    (Yield elementary value p s (fun s' => forward_loop_body (resume s')))).
  { split; [exact Hs|]. intros s' Hs'. apply IH, Hresume, Hs'. }
  assert (Hleave : forall exit : loop_exit,
             value <> VNone ->
             balanced true P (Yield elementary VNone p s (fun s' => Return exit s'))).
  { intros exit Hvalue. split; [congruence|]. intros s' Hs'. simpl. rewrite Hs'.
    apply Hs; [reflexivity | exact Hvalue]. }
  repeat first
    [ exact Hpass
    | apply Hleave; discriminate
    | match goal with
      | |- balanced _ _ (match ?x with _ => _ end) => destruct x
      | |- balanced _ _ (if ?x then _ else _) => destruct x
      end ].
Qed.

Lemma balanced_forward_function_body (P : list (list string) -> Prop) (g : gen unit) :
  balanced true P g -> balanced false P (forward_function_body g).
Proof.
  induction g as [a s|e s|elementary value p s resume IH|]; intros Hg;
    simpl in *; try assumption.
  destruct Hg as [Hs Hresume].
  assert (Hpass : balanced false P
                    (Yield elementary value p s
                       (fun s' => forward_function_body (resume s')))).
  { split; [discriminate|]. intros s' Hs'. apply IH, Hresume, Hs'. }
  destruct value; try exact Hpass.
  split; [discriminate|]. intros s' Hs'. simpl. rewrite Hs'.
  apply Hs; [reflexivity | discriminate].
Qed.

Lemma G_balanced_value_of strict (g : G unit) :
  G_balanced false g -> G_balanced strict (value_of g).
Proof. intros Hg s. apply balanced_forward_value, Hg. Qed.

Lemma G_balanced_weaken {A} (m : G A) strict : G_balanced strict m -> G_balanced false m.
Proof. intros Hm s. apply (balanced_weaken _ _ strict), Hm. Qed.

Local Ltac same_frames :=
  first [ reflexivity
        | apply memory_blind_get; reflexivity
        | apply memory_blind_set; reflexivity ].

Local Ltac frames_method :=
  first [ apply memory_blind_get | apply memory_blind_set
        | apply M_steady_malloc | apply M_steady_free
        | apply M_steady_get_variable_address | apply M_steady_literal_value
        | apply M_steady_READ | apply M_steady_print_parameters
        | apply M_steady_set_string_to_address ];
  same_frames.

Lemma balanced_track {A} (strict : bool) (P : list (list string) -> Prop) (g : gen A) :
  forall p, balanced strict P g -> balanced strict P (track g p).
Proof.
  induction g as [a s|e s|elementary value q s resume IH|]; intros p Hg; simpl in *;
    try exact Hg.
  destruct Hg as [Hs Hresume]. split; [exact Hs|]. intros s' Hs'. apply IH, Hresume, Hs'.
Qed.

Lemma E_balanced_at_node {A} strict (f : position -> G A) :
  (forall p, G_balanced strict (f p)) -> E_balanced strict (at_node f).
Proof. intros Hf p s. apply balanced_track, Hf. Qed.

Lemma E_balanced_steps_of {A} strict (m : G A) :
  G_balanced strict m -> E_balanced strict (steps_of m).
Proof. intros Hm. apply E_balanced_at_node. intros _. exact Hm. Qed.

Lemma E_balanced_done {A} strict (a : A) : E_balanced strict (e_done a).
Proof. apply E_balanced_at_node. intros _. apply G_balanced_done. Qed.

Lemma E_balanced_starved {A} strict : E_balanced strict (@e_starved A).
Proof. intros p s. exact I. Qed.

Lemma E_balanced_then {A B} strict (m : E A) (f : A -> E B) :
  E_balanced strict m -> (forall a, E_balanced strict (f a)) ->
  E_balanced strict (e_then m f).
Proof.
  intros Hm Hf p. apply (G_balanced_then strict (m p) (fun r => f (fst r) (snd r))).
  - apply Hm.
  - intros r. apply Hf.
Qed.

Lemma G_balanced_start {A} strict (p : position) (m : E A) :
  E_balanced strict m -> G_balanced strict (start p m).
Proof.
  intros Hm. apply (G_balanced_then strict (m p) (fun r => done (fst r))).
  - apply Hm.
  - intros r. apply G_balanced_done.
Qed.

Section executors.

Variable execute_node_ : node -> G unit.
Variable execute_function_ : string -> list pyval -> G unit.
Hypothesis node_balanced : forall n, G_balanced true (execute_node_ n).
Hypothesis function_balanced :
  forall name params, G_balanced false (execute_function_ name params).

Lemma node_balanced_any strict n : G_balanced strict (execute_node_ n).
Proof.
  destruct strict; [apply node_balanced | apply (G_balanced_weaken _ true), node_balanced].
Qed.

Local Ltac balanced_step :=
  first
    [ apply G_balanced_done | apply G_balanced_throw | apply G_balanced_current_state
    | apply G_balanced_yield | apply G_balanced_pure
    | apply G_balanced_undeclared | apply G_balanced_append_local
    | apply node_balanced_any
    | apply G_balanced_value_of
    | apply G_balanced_method; frames_method
    | apply G_balanced_then; [|intros ?]
    | apply E_balanced_done | apply E_balanced_starved
    | apply E_balanced_steps_of
    | apply E_balanced_at_node; intros ?
    | apply E_balanced_then; [|intros ?]
    | match goal with
      | |- G_balanced _ (if ?b then _ else _) => destruct b
      | |- G_balanced _ (match ?x with _ => _ end) => destruct x
      | |- E_balanced _ (if ?b then _ else _) => destruct b
      | |- E_balanced _ (match ?x with _ => _ end) => destruct x
      end ].

Lemma G_balanced_loop_body blk :
  G_balanced true (fun s => forward_loop_body (execute_node_ blk s)).
Proof. intros s. apply balanced_forward_loop_body, node_balanced. Qed.

Lemma G_balanced_guard strict condition_node :
  G_balanced strict (fun s => forward_elementary (execute_node_ condition_node s) VNone).
Proof. intros s. apply balanced_forward_elementary, (node_balanced_any false). Qed.

Lemma E_balanced_atom strict lit : E_balanced strict (_execute_atom lit).
Proof. unfold _execute_atom. destruct lit; repeat balanced_step. Qed.

Lemma E_balanced_affect strict variable expr :
  E_balanced strict (_execute_affect execute_node_ variable expr).
Proof. unfold _execute_affect. repeat balanced_step. Qed.

Lemma E_balanced_arrayaffect strict array index expr :
  E_balanced strict (_execute_arrayaffect execute_node_ array index expr).
Proof. unfold _execute_arrayaffect. repeat balanced_step. Qed.

Lemma E_balanced_structaffect strict struct field expr :
  E_balanced strict (_execute_structaffect execute_node_ struct field expr).
Proof. unfold _execute_structaffect. repeat balanced_step. Qed.

Lemma E_balanced_derefaffect strict pointer expr :
  E_balanced strict (_execute_derefaffect execute_node_ pointer expr).
Proof. unfold _execute_derefaffect. repeat balanced_step. Qed.

Lemma E_balanced_bracketexpr strict expr :
  E_balanced strict (_execute_bracketexpr execute_node_ expr).
Proof. unfold _execute_bracketexpr. repeat balanced_step. Qed.

Lemma E_balanced_binaryoperator strict left_expr operator right_expr :
  E_balanced strict
    (_execute_binaryoperator execute_node_ left_expr operator right_expr).
Proof. unfold _execute_binaryoperator. repeat balanced_step. Qed.

Lemma E_balanced_boolbinaryoperator strict left_expr operator right_expr :
  E_balanced strict
    (_execute_boolbinaryoperator execute_node_ left_expr operator right_expr).
Proof. unfold _execute_boolbinaryoperator. repeat balanced_step. Qed.

Lemma E_balanced_unaryoperator strict operator expr :
  E_balanced strict (_execute_unaryoperator execute_node_ operator expr).
Proof. unfold _execute_unaryoperator. repeat balanced_step. Qed.

Lemma E_balanced_refexpr strict variable :
  E_balanced strict (_execute_refexpr variable).
Proof. unfold _execute_refexpr. repeat balanced_step. Qed.

Lemma E_balanced_arraycall strict array index :
  E_balanced strict (_execute_arraycall execute_node_ array index).
Proof. unfold _execute_arraycall. repeat balanced_step. Qed.

Lemma E_balanced_structcall strict struct field :
  E_balanced strict (_execute_structcall execute_node_ struct field).
Proof. unfold _execute_structcall. repeat balanced_step. Qed.

Lemma G_balanced_expected_nb_parameters strict function_name nb p :
  G_balanced strict (expected_nb_parameters function_name nb p).
Proof. unfold expected_nb_parameters. repeat balanced_step. Qed.

Lemma E_balanced_evaluate_parameters strict parameters :
  E_balanced strict (evaluate_parameters execute_node_ parameters).
Proof.
  induction parameters as [|[token|parameter] parameters IH];
    cbn [evaluate_parameters].
  - apply E_balanced_done.
  - destruct (list_in token type_names); [|repeat balanced_step].
    apply E_balanced_then; [exact IH | intros ?; apply E_balanced_done].
  - apply E_balanced_then; [repeat balanced_step|]. intros ?.
    apply E_balanced_then; [exact IH | intros ?; apply E_balanced_done].
Qed.

Lemma G_balanced_initialise_cells strict address values p :
  forall i, G_balanced strict (initialise_cells address i values p).
Proof.
  induction values as [|v values IH]; intros i; simpl.
  - apply G_balanced_done.
  - apply G_balanced_then; [repeat balanced_step|]. intros _.
    apply G_balanced_then; [apply G_balanced_yield|]. intros _. apply IH.
Qed.

Lemma G_balanced_call_result strict function_name binary_parameters p :
  G_balanced strict (call_result execute_function_ function_name binary_parameters p).
Proof.
  unfold call_result.
  assert (Hparameter : forall i,
            G_balanced strict (match nth_error binary_parameters i with
                               | Some v => done v
                               | None => throw IndexError
                               end)).
  { intros i. destruct (nth_error _ _); [apply G_balanced_done | apply G_balanced_throw]. }
  repeat first
    [ apply Hparameter | apply G_balanced_initialise_cells
    | match goal with
      | |- G_balanced _ (fun s => forward_value _ _) =>
          intros s; apply balanced_forward_value, function_balanced
      end
    | balanced_step ].
Qed.

Lemma E_balanced_call strict function_name parameters :
  E_balanced strict
    (_execute_call execute_node_ execute_function_ function_name parameters).
Proof.
  unfold _execute_call.
  apply E_balanced_then;
    [apply E_balanced_at_node; intros ?; apply G_balanced_expected_nb_parameters|].
  intros expected.
  destruct (negb expected); [repeat balanced_step|].
  apply E_balanced_then.
  - destruct (String.eqb _ _); [|apply E_balanced_evaluate_parameters].
    repeat balanced_step.
  - intros binary_parameters.
    apply E_balanced_then;
      [apply E_balanced_at_node; intros ?; apply G_balanced_call_result|].
    intros ?. apply E_balanced_at_node. intros ?. apply G_balanced_yield.
Qed.

Lemma E_balanced_ifexpr strict branches else_block :
  E_balanced strict (_execute_ifexpr execute_node_ branches else_block).
Proof.
  induction branches as [|[condition blk] branches IH]; cbn [_execute_ifexpr].
  - destruct else_block; repeat balanced_step.
  - apply E_balanced_then; [repeat balanced_step|]. intros ?.
    apply E_balanced_then; [repeat balanced_step|]. intros [|];
      [repeat balanced_step | exact IH].
Qed.

Lemma E_balanced_for_rounds address blk :
  forall budget end_expr,
    E_balanced true (for_rounds execute_node_ budget address end_expr blk).
Proof.
  induction budget as [|budget IH]; intros end_expr; [apply E_balanced_starved|].
  cbn [for_rounds].
  apply E_balanced_then; [repeat balanced_step|]. intros [|]; [|apply E_balanced_done].
  apply E_balanced_then; [apply E_balanced_steps_of, G_balanced_loop_body|].
  intros [| |]; try apply E_balanced_done;
    (apply E_balanced_then; [repeat balanced_step | intros ?; apply IH]).
Qed.

Lemma E_balanced_forexpr budget variable start_expr end_expr blk :
  E_balanced true
    (_execute_forexpr execute_node_ budget variable start_expr end_expr blk).
Proof.
  unfold _execute_forexpr.
  repeat first [ apply E_balanced_for_rounds | balanced_step ].
Qed.

Lemma E_balanced_whileexpr condition_node blk :
  forall budget,
    E_balanced true (_execute_whileexpr execute_node_ budget condition_node blk).
Proof.
  induction budget as [|budget IH]; [apply E_balanced_starved|].
  cbn [_execute_whileexpr].
  apply E_balanced_then; [apply E_balanced_steps_of, G_balanced_guard|].
  intros binary_condition.
  apply E_balanced_then; [repeat balanced_step|]. intros [|]; [|apply E_balanced_done].
  apply E_balanced_then; [apply E_balanced_steps_of, G_balanced_loop_body|].
  intros [| |]; first [exact IH | apply E_balanced_done].
Qed.

Lemma E_balanced_continuerule strict : E_balanced strict _execute_continuerule.
Proof. unfold _execute_continuerule. repeat balanced_step. Qed.

Lemma E_balanced_breakrule strict : E_balanced strict _execute_breakrule.
Proof. unfold _execute_breakrule. repeat balanced_step. Qed.

Lemma E_balanced_returnrule strict expr :
  E_balanced strict (_execute_returnrule execute_node_ expr).
Proof. unfold _execute_returnrule. repeat balanced_step. Qed.

Lemma E_balanced_block strict blockexprs :
  E_balanced strict (_execute_block execute_node_ blockexprs).
Proof.
  induction blockexprs as [|blockexpr blockexprs IH]; cbn [_execute_block].
  - apply E_balanced_done.
  - apply E_balanced_then; [repeat balanced_step | intros _; exact IH].
Qed.

Lemma E_balanced_executor_of budget n :
  E_balanced true (snd (executor_of execute_node_ execute_function_ budget n)).
Proof.
  destruct n; cbn [executor_of snd].
  - apply E_balanced_atom.
  - apply E_balanced_affect.
  - apply E_balanced_arrayaffect.
  - apply E_balanced_structaffect.
  - apply E_balanced_derefaffect.
  - apply E_balanced_bracketexpr.
  - apply E_balanced_binaryoperator.
  - apply E_balanced_boolbinaryoperator.
  - apply E_balanced_unaryoperator.
  - apply E_balanced_refexpr.
  - apply E_balanced_call.
  - apply E_balanced_arraycall.
  - apply E_balanced_structcall.
  - apply E_balanced_ifexpr.
  - apply E_balanced_forexpr.
  - apply E_balanced_whileexpr.
  - apply E_balanced_continuerule.
  - apply E_balanced_breakrule.
  - apply E_balanced_returnrule.
  - apply E_balanced_block.
Qed.

(** A call that returns has popped the frame it pushed. *)
Lemma execute_function_with_balanced function_name params (s : State) :
  balanced false (eq (local_variables s))
    (execute_function_with execute_node_ function_name params s).
Proof.
  unfold execute_function_with, g_then, current_state. simpl.
  destruct (dict_get (functions_infos s) function_name) as [info|]; [|exact I].
  unfold method at 1. unfold push_frame.
  destruct (negb _); [destruct (last_item _); exact I|]. simpl.
  set (s1 := set_local_variables s (local_variables s ++ [fi_parameters info])).
  set (P := fun l : list (list string) =>
              exists added, l = local_variables s ++ [fi_parameters info ++ added]).
  assert (Hpushed : forall l, frames_extended (local_variables s1) l -> P l).
  { intros l [->|(below & top & added & E & ->)].
    - exists []. rewrite app_nil_r. reflexivity.
    - simpl in E. apply app_inj_tail in E as [<- <-]. exists added. reflexivity. }
  apply (balanced_bind false (frames_extended (local_variables s1))); [|discriminate|].
  { destruct (fi_parameters info) as [|first others] eqn:Eparameters.
    - apply frames_extended_refl.
    - apply (G_balanced_then false); [repeat balanced_step|]. intros address0.
      apply G_balanced_method, M_steady_for_enumerate. intros i x rest.
      apply memory_blind_set. reflexivity. }
  intros _ s2 H2.
  apply (balanced_bind false (frames_extended (local_variables s1))); [|discriminate|].
  { apply balanced_forward_function_body.
    apply (balanced_mono _ (frames_extended (local_variables s2)));
      [|apply node_balanced].
    intros l. apply frames_extended_trans, H2. }
  intros _ s3 H3. destruct (Hpushed _ H3) as [added E3].
  unfold method, pop_frame.
  destruct (local_variables s3) as [|frame frames] eqn:E; [exact I|].
  cbn [balanced local_variables set_local_variables].
  rewrite E3. unfold but_last. rewrite removelast_last. reflexivity.
Qed.

Lemma G_balanced_execute_function_with function_name params :
  G_balanced false (execute_function_with execute_node_ function_name params).
Proof.
  intros s. apply (balanced_mono _ (eq (local_variables s)));
    [intros l <-; apply frames_extended_refl | apply execute_function_with_balanced].
Qed.

End executors.

Lemma G_balanced_execute_node :
  forall fuel n, G_balanced true (execute_node fuel n).
Proof.
  induction fuel as [|fuel IH]; intros n; [intros s; exact I|].
  cbn [execute_node].
  pose proof (E_balanced_executor_of (execute_node fuel)
                (execute_function_with (execute_node fuel)) IH
                (fun name params =>
                   G_balanced_execute_function_with (execute_node fuel) IH name params)
                fuel n) as H.
  destruct (executor_of _ _ fuel n) as [p executor]. apply G_balanced_start, H.
Qed.

Lemma balanced_exhaust {A} (P : list (list string) -> Prop) (g : gen A) :
  forall a s', balanced false P g -> exhaust g = Some (Ok a s') ->
               P (local_variables s').
Proof.
  induction g as [a0 s|e s|elementary value p s resume IH|]; intros a s' Hg E;
    simpl in *; try discriminate.
  - injection E as <- <-. exact Hg.
  - destruct Hg as [_ Hresume]. apply (IH s a s'); [apply Hresume; reflexivity | exact E].
Qed.

Lemma balanced_count_elementary (P : list (list string) -> Prop) (g : gen unit) :
  balanced false P g -> balanced false P (count_elementary g).
Proof.
  induction g as [a s|e s|elementary value p s resume IH|]; intros Hg; simpl in *;
    try assumption.
  destruct Hg as [_ Hresume]. destruct elementary; simpl.
  - split; [discriminate|]. intros s' Hs'. apply IH, Hresume, Hs'.
  - apply IH, Hresume. reflexivity.
Qed.

(** X26. A call of a function of the program that returns has popped the
    frame it pushed: the frames of local variables are those of before
    the call, and so are they at the end of a run of [main] that raises
    nothing. *)
Theorem call_returns_with_same_frames (fuel : nat) (s : State) :
  (forall function_name params s',
      exhaust (execute_function fuel function_name params s) = Some (Ok tt s') ->
      local_variables s' = local_variables s) /\
  (forall s',
      exhaust (main_function_iterator fuel s) = Some (Ok tt s') ->
      local_variables s' = local_variables s).
Proof.
  assert (Hcall : forall function_name params,
             balanced false (eq (local_variables s))
               (execute_function fuel function_name params s)).
  { intros. apply execute_function_with_balanced. intros n.
    apply G_balanced_execute_node. }
  split.
  - intros function_name params s' E. symmetry.
    exact (balanced_exhaust _ _ _ _ (Hcall function_name params) E).
  - intros s' E. symmetry. unfold main_function_iterator in E.
    exact (balanced_exhaust _ _ _ _ (balanced_count_elementary _ _ (Hcall _ _)) E).
Qed.

Lemma call_returns_with_same_frames_witness :
  exists s0 s,
    SynCProgram scenario_C (fresh []) = Ok tt s0 /\
    exhaust (main_function_iterator 50 s0) = Some (Ok tt s) /\
    local_variables s = local_variables s0.
Proof.
  destruct (SynCProgram scenario_C (fresh [])) as [[] s0|e s0] eqn:E0;
    [|vm_compute in E0; discriminate E0].
  destruct (exhaust (main_function_iterator 50 s0)) as [[[] s|e s]|] eqn:E.
  - exists s0, s. split; [reflexivity|]. split; [exact E|].
    exact (proj2 (call_returns_with_same_frames 50 s0) s E).
  - vm_compute in E0. injection E0 as <-. vm_compute in E. discriminate E.
  - vm_compute in E0. injection E0 as <-. vm_compute in E. discriminate E.
Defined.

End frames.

(* ===================================================================== *)
(** ** The literals and the globals of a loaded program *)
(* ===================================================================== *)

Section literals_and_globals.

Local Open Scope method_scope.

Lemma search_int_char_float_errors_checks (ls : list (literal * position)) :
  forall s s',
    for_each ls (fun '(lit, p) =>
      match lit with
      | integer intval =>
          if (- 2 ^ 31 <=? intval) && (intval <? 2 ^ 31) then ret tt
          else raise (Exec (NonValidIntegerError p intval))
      | char c =>
          match check_is_string_is_ascii_printable_with_escape c with
          | Some error_char_index =>
              p' <- lift (shift_char p (error_char_index + 1)) ;;
              raise (Exec (NonValidCharacterError p' c))
          | None => ret tt
          end
      | _ => ret tt
      end) s = Ok tt s' ->
    (forall intval p, In (integer intval, p) ls -> - 2 ^ 31 <= intval < 2 ^ 31) /\
    (forall c p, In (char c, p) ls ->
                 check_is_string_is_ascii_printable_with_escape c = None).
Proof.
  induction ls as [|[lit q] ls IH]; intros s s' E.
  - split; intros ? ? [].
  - cbn [for_each] in E. apply and_then_Ok in E as ([] & s1 & E1 & E).
    destruct (IH _ _ E) as [Hint Hchar]. split.
    + intros intval p [[= -> ->]|Hin]; [|exact (Hint intval p Hin)].
      destruct (Z.leb_spec (- 2 ^ 31) intval), (Z.ltb_spec intval (2 ^ 31));
        simpl in E1; try discriminate E1. lia.
    + intros c p [[= -> ->]|Hin]; [|exact (Hchar c p Hin)].
      destruct (check_is_string_is_ascii_printable_with_escape c); [|reflexivity].
      apply and_then_Ok in E1 as (? & ? & _ & E1). discriminate E1.
Qed.

(** X27. In a program that loads, every integer literal of the source is
    in the signed 32-bit range, so that the word stored for it decodes to
    it, and every character literal passes the check of the characters. *)
Theorem loaded_literals_are_checked (tree : prog) (input : list string) (s : State) :
  SynCProgram tree (fresh input) = Ok tt s ->
  (forall intval p, In (integer intval, p) (literals_of_prog tree) ->
      - 2 ^ 31 <= intval < 2 ^ 31 /\ bin_to_int (int_to_bin intval false) = intval) /\
  (forall c p, In (char c, p) (literals_of_prog tree) ->
      check_is_string_is_ascii_printable_with_escape c = None).
Proof.
  intros E. unfold SynCProgram, load_before_main_check, and_then in E.
  destruct (_read_structs_and_functions tree (fresh input)) as [[] s1|] eqn:E1;
    simpl in E; [|discriminate].
  destruct (_search_for_static_strings tree s1) as [[] s2|] eqn:E2; simpl in E;
    [|discriminate].
  destruct (_search_int_char_float_errors tree s2) as [[] s3|] eqn:E3; simpl in E;
    [|discriminate].
  destruct (search_int_char_float_errors_checks _ _ _ E3) as [Hint Hchar].
  split; [|exact Hchar].
  intros intval p Hin. specialize (Hint intval p Hin).
  split; [exact Hint | apply signed_word_round_trip, Hint].
Qed.

Lemma loaded_literals_are_checked_witness :
  exists s,
    SynCProgram bare_call (fresh []) = Ok tt s /\
    - 2 ^ 31 <= 5 < 2 ^ 31 /\ bin_to_int (int_to_bin 5 false) = 5.
Proof.
  destruct (SynCProgram bare_call (fresh [])) as [[] s|e s] eqn:E;
    [|vm_compute in E; discriminate E].
  exists s. split; [reflexivity|].
  apply (proj1 (loaded_literals_are_checked bare_call [] s E) 5 (at_ 1 21)).
  vm_compute. tauto.
Defined.

Lemma literal_value_stable (lit : literal) (p : position) (code : Z) (s s1 : State)
    (value : pyval) :
  literal_value lit p code s = Ok value s1 ->
  s1 = s /\
  forall s', read_only_strings_adress s' = read_only_strings_adress s ->
             literal_value lit p code s' = Ok value s'.
Proof.
  destruct lit; simpl.
  - destruct (literal_to_bin _); [|discriminate]. intros [= <- <-].
    split; [reflexivity | reflexivity].
  - intros [= <- <-]. split; reflexivity.
  - unfold and_then. destruct (char_to_bin _); simpl; [discriminate|].
    intros [= <- <-]. split; reflexivity.
  - unfold and_then, get_state. simpl.
    destruct (dict_get (read_only_strings_adress s) _) eqn:E; [|discriminate].
    intros [= <- <-]. split; [reflexivity|]. intros s' ->. rewrite E. reflexivity.
  - destruct (literal_to_bin _); [|discriminate]. intros [= <- <-].
    split; reflexivity.
Qed.

Lemma list_index_new (x : string) (l : list string) :
  list_in x l = false -> list_index x (l ++ [x]) = Some (len l).
Proof.
  unfold len. induction l as [|y l IH]; simpl.
  - rewrite String.eqb_refl. reflexivity.
  - destruct (String.eqb y x); [discriminate|]. simpl. intros H. rewrite (IH H).
    f_equal. lia.
Qed.

Lemma declare_globals_values (gs : list globalaffect) (ds : list decl) :
  forall s s',
    _declare_globals {| globalsdecl := Some gs; decls := ds |} s = Ok tt s' ->
    read_write_stack_limit s' = read_write_stack_limit s /\
    read_only_strings_adress s' = read_only_strings_adress s /\
    (forall b, b < read_write_stack_limit s + len (global_variables s) ->
               memory s' !! b = memory s !! b) /\
    (forall i g, gs !! i = Some g ->
       exists value,
         literal_value (ga_value g) (ga_position g) 0 s' = Ok value s' /\
         memory s' !! (read_write_stack_limit s + len (global_variables s) + Z.of_nat i)
         = Some value).
Proof.
  induction gs as [|g gs IH]; intros s s' E.
  - injection E as <-. repeat split. intros i g Hi. discriminate Hi.
  - unfold _declare_globals in E. cbn [globalsdecl for_each] in E.
    apply and_then_Ok in E as ([] & s4 & Ehead & E).
    change (_declare_globals {| globalsdecl := Some gs; decls := ds |} s4 = Ok tt s') in E.
    apply and_then_Ok in Ehead as (s0 & s0' & Eget & Ehead). injection Eget as <- <-.
    destruct (list_in (ga_variable g) (global_variables s)) eqn:Enew; [discriminate Ehead|].
    apply and_then_Ok in Ehead as ([] & sa & Eclash & Ehead).
    destruct (parameter_clash_loop _ _ _ _ _ Eclash) as [-> _].
    apply and_then_Ok in Ehead as ([] & s1 & Emodify & Ehead). injection Emodify as <-.
    apply and_then_Ok in Ehead as (value & s2 & Evalue & Ehead).
    destruct (literal_value_stable _ _ _ _ _ _ Evalue) as [-> Hvalue].
    apply and_then_Ok in Ehead as (address & s3 & Eaddress & Eset).
    unfold _get_variable_address in Eaddress. cbn [global_variables set_global_variables
      read_write_stack_limit] in Eaddress.
    rewrite (list_index_new _ _ Enew) in Eaddress. injection Eaddress as <- <-.
    unfold _set_memory in Eset. destruct (_ || _); [discriminate|].
    destruct (_ <? _); [discriminate|]. injection Eset as <-.
    destruct (IH _ _ E) as (Hlimit & Htable & Hbelow & Hvalues).
    cbn [read_write_stack_limit read_only_strings_adress global_variables memory
         set_memory set_global_variables] in Hlimit, Htable, Hbelow, Hvalues.
    assert (Hlen : len (global_variables s ++ [ga_variable g])
                   = len (global_variables s) + 1).
    { unfold len. rewrite length_app. simpl. lia. }
    rewrite Hlen in Hbelow, Hvalues.
    split; [exact Hlimit|]. split; [exact Htable|]. split.
    + intros b Hb. rewrite Hbelow by lia. apply lookup_insert_ne. lia.
    + intros [|i] g' Hi.
      * injection Hi as <-. exists value. split.
        -- apply Hvalue. exact Htable.
        -- rewrite Z.add_0_r, Hbelow by lia. apply lookup_insert_eq.
      * destruct (Hvalues i g' Hi) as (value' & H1 & H2).
        exists value'. split; [exact H1|]. rewrite <- H2. f_equal. lia.
Qed.

(** X28. In a program that loads, the globals lie right above the
    read-only zone in the order of their declarations: the cell at the
    read-only limit plus the rank of a global holds the word of the
    literal it is declared with. *)
Theorem loaded_globals_hold_their_values (tree : prog) (input : list string) (s : State)
    (gs : list globalaffect) (i : nat) (g : globalaffect) :
  SynCProgram tree (fresh input) = Ok tt s ->
  globalsdecl tree = Some gs ->
  gs !! i = Some g ->
  exists value,
    literal_value (ga_value g) (ga_position g) 0 s = Ok value s /\
    memory s !! (read_write_stack_limit s + Z.of_nat i) = Some value.
Proof.
  intros E Hgs Hi. unfold SynCProgram, load_before_main_check, and_then in E.
  destruct (_read_structs_and_functions tree (fresh input)) as [[] s1|] eqn:E1;
    simpl in E; [|discriminate].
  destruct (_search_for_static_strings tree s1) as [[] s2|] eqn:E2; simpl in E;
    [|discriminate].
  destruct (_search_int_char_float_errors tree s2) as [[] s3|] eqn:E3; simpl in E;
    [|discriminate].
  destruct (_declare_globals tree s3) as [[] s4|] eqn:E4; simpl in E; [|discriminate].
  set (Q := fun s0 : State => global_variables s0 = []).
  assert (H3 : Q s3).
  { refine (search_int_char_float_errors_frame Q tree _ _ _ E3 _).
    refine (search_for_static_strings_frame Q tree _ _ _ _ _ E2 _);
      [split; intros ? ? H; exact H | intros ? ? H; exact H|].
    refine (read_structs_and_functions_frame Q tree _ _ _ _ _ E1 _);
      [split; intros ? ? H; exact H | intros ? ? H; exact H | reflexivity]. }
  assert (Hs : s = s4).
  { refine (check_main_function_frame (fun s0 => s0 = s4) _ _ _ E _). reflexivity. }
  subst s. destruct tree as [gs0 ds]. simpl in Hgs. subst gs0.
  destruct (declare_globals_values gs ds _ _ E4) as (Hlimit & _ & _ & Hvalues).
  destruct (Hvalues i g Hi) as (value & H1 & H2).
  exists value. split; [exact H1|].
  unfold Q in H3. rewrite H3 in H2. unfold len in H2. simpl in H2.
  rewrite Z.add_0_r in H2. rewrite Hlimit. exact H2.
Qed.

Lemma loaded_globals_hold_their_values_witness :
  exists s gs g value,
    SynCProgram two_globals (fresh []) = Ok tt s /\
    globalsdecl two_globals = Some gs /\ gs !! 1%nat = Some g /\
    literal_value (ga_value g) (ga_position g) 0 s = Ok value s /\
    memory s !! (read_write_stack_limit s + 1) = Some value.
Proof.
  destruct (SynCProgram two_globals (fresh [])) as [[] s|e s] eqn:E;
    [|vm_compute in E; discriminate E].
  destruct (globalsdecl two_globals) as [gs|] eqn:Egs; [|discriminate Egs].
  destruct (gs !! 1%nat) as [g|] eqn:Eg;
    [|injection Egs as <-; discriminate Eg].
  destruct (loaded_globals_hold_their_values two_globals [] s gs 1 g E Egs Eg)
    as (value & H1 & H2).
  exists s, gs, g, value. repeat split; assumption.
Defined.

End literals_and_globals.
